(** * ctwatch scanner: a shallow embedding of [scanner.go] and its properties

    The file follows the source top to bottom.  Integers of Go type
    [int64] are modelled as [Z] with the two's-complement wrap-around
    written out ([wrap64]); Go's [int] is taken to be 64 bits wide, as on
    the amd64 and arm64 targets of the gc compiler.  Strings are
    [String.string]; [fmt.Sprintf("%d", n)] is [dec n].

    The two worker pools of [Scan] are modelled as an interleaving
    transition system: every goroutine has a program counter, the two
    channels are bounded FIFO buffers with a closed flag, the wait groups
    are counters, and a schedule (a list of thread identifiers) picks the
    goroutine that takes the next atomic step. *)

From Stdlib Require Import ZArith List String Ascii Lia Bool DecimalString.
From stdpp Require Import base list strings.

Set Default Proof Using "Type".

Local Open Scope string_scope.
Local Open Scope list_scope.
Local Open Scope Z_scope.

(** ** Machine integers *)

Definition min_int64 : Z := - 2 ^ 63.
Definition max_int64 : Z := 2 ^ 63 - 1.

(** The value an [int64] computation yields for the mathematical result [z]. *)
Definition wrap64 (z : Z) : Z := (z + 2 ^ 63) mod 2 ^ 64 - 2 ^ 63.

Definition in_int64 (z : Z) : Prop := min_int64 <= z <= max_int64.

(** [fmt.Sprintf("%d", n)] *)
Definition dec (n : Z) : string := NilZero.string_of_int (Z.to_int n).

(** ** Lines 109-125: [min] and [max] *)

Definition min (a b : Z) : Z := if a <? b then a else b.

Definition max (a b : Z) : Z := if a >? b then a else b.

(** ** Lines 127-147: [humanTime] *)

Module Duration.
(** Constants of package [time], in nanoseconds. *)
Definition Second : Z := 1000000000.
Definition Minute : Z := 60 * Second.
Definition Hour : Z := 60 * Minute.
End Duration.

(** Go's [/] and [%] on signed integers truncate towards zero: [Z.quot]
    and [Z.rem]. *)
Definition humanTime (seconds : Z) : string :=
  let nanos := wrap64 (seconds * Duration.Second) in
  let hours := Z.quot nanos Duration.Hour in
  let nanos := Z.rem nanos Duration.Hour in
  let minutes := Z.quot nanos Duration.Minute in
  let nanos := Z.rem nanos Duration.Minute in
  let seconds := Z.quot nanos Duration.Second in
  let s := "" in
  let s := if hours >? 0 then s +:+ (dec hours +:+ " hours ") else s in
  let s := if minutes >? 0 then s +:+ (dec minutes +:+ " minutes ") else s in
  let s := if seconds >? 0 then s +:+ (dec seconds +:+ " seconds ") else s in
  s.

(** The rendering the specification describes: one component per unit,
    omitted exactly when its value is zero. *)
Definition component (v : Z) (unit_name : string) : string :=
  if v =? 0 then "" else dec v +:+ unit_name.

Definition humanTime_spec (seconds : Z) : string :=
  component (seconds / 3600) " hours "
  +:+ component (seconds mod 3600 / 60) " minutes "
  +:+ component (seconds mod 60) " seconds ".

(** The largest argument whose nanosecond count still fits an [int64]. *)
Definition humanTime_limit : Z := 9223372036.

(** ** Lines 57-61: [fetchRange] *)

Record fetchRange : Type := { start : Z; end_ : Z }.

(** Number of indices in the inclusive range, zero when it is empty. *)
Definition width (r : fetchRange) : nat := Z.to_nat (end_ r - start r + 1).

(** The indices of a range, ascending. *)
Definition indices (r : fetchRange) : list Z := seqZ (start r) (end_ r - start r + 1).

(** ** Lines 188-193: the partitioning loop of [Scan]

    The loop need not terminate on every input, hence the fuel: [None]
    means the loop is still running after [fuel] tests of its condition. *)
Fixpoint Scan_ranges (fuel : nat) (start endIndex batchSize : Z) : option (list fetchRange) :=
  match fuel with
  | O => None
  | S fuel' =>
      if start <? endIndex then
        let e := wrap64 (min (wrap64 (start + batchSize)) endIndex - 1) in
        match Scan_ranges fuel' (wrap64 (e + 1)) endIndex batchSize with
        | Some ranges => Some ({| start := start; end_ := e |} :: ranges)
        | None => None
        end
      else Some []
  end.

(** The contract of the partitioner as the specification words it. *)
Definition adjacent (l : list fetchRange) : Prop :=
  forall (i : nat) (r r' : fetchRange),
    l !! i = Some r -> l !! S i = Some r' -> end_ r + 1 = start r'.

Definition partition_contract (startIndex endIndex batchSize : Z) (l : list fetchRange) : Prop :=
  (exists r0, head l = Some r0 /\ start r0 = startIndex)
  /\ adjacent l
  /\ (exists rk, last l = Some rk /\ end_ rk = endIndex - 1)
  /\ Forall (fun r => end_ r - start r + 1 <= batchSize) l
  /\ concat (map indices l) = seqZ startIndex (endIndex - startIndex).

(** A tiling of [[s, endIndex)] by consecutive non-empty ranges of at most
    [batchSize] indices: what the loop builds when no addition overflows. *)
Inductive tiles (batchSize endIndex : Z) : Z -> list fetchRange -> Prop :=
| tiles_nil (s : Z) :
    endIndex <= s -> tiles batchSize endIndex s []
| tiles_cons (s e : Z) (l : list fetchRange) :
    s <= e < endIndex -> e - s + 1 <= batchSize ->
    tiles batchSize endIndex (e + 1) l ->
    tiles batchSize endIndex s ({| start := s; end_ := e |} :: l).

(** ** The scanner and the log client

    [client.LogClient] and [ct.LogEntry] belong to the certificate
    transparency library.  The client is taken as an arbitrary state
    machine: a call consumes the client's state and returns the next state
    with either a value or an error (the message of a non-nil [error]).
    Of a log entry only [Index] is inspected by this package; the rest is
    an opaque payload. *)

Inductive result (A : Type) : Type :=
| Ok (a : A)
| Err (e : string).
Arguments Ok {A} a.
Arguments Err {A} e.

(** Lines 17-30 *)
Record ScannerOptions : Type := {
  BatchSize : Z;
  NumWorkers : Z;
  ParallelFetch : Z;
  Quiet : bool
}.

(** Lines 33-40 *)
Definition DefaultScannerOptions : ScannerOptions :=
  {| BatchSize := 1000; NumWorkers := 1; ParallelFetch := 1; Quiet := false |}.

(** Modelled from the spec: the signed tree head [GetSTH] returns is
    declared in the client library, not in this package.  Only the field
    read at line 164 is kept.  The library declares it as an unsigned
    64-bit integer, which is why line 164 converts it: a tree size is a
    number from 0 to 2^64 - 1, and the conversion [int64(...)] is
    written out in [TreeSize] below, where it wraps the sizes from 2^63
    on to negative numbers. *)
Record SignedTreeHead : Type := { STH_TreeSize : Z }.

(** A bounded channel: [make(chan A, cap)]. *)
Record chan (A : Type) : Type := { buf : list A; cap : Z; closed : bool }.
Arguments buf {A} c.
Arguments cap {A} c.
Arguments closed {A} c.

Definition make (A : Type) (n : Z) : chan A :=
  {| buf := []; cap := n; closed := false |}.

Inductive send_result (A : Type) : Type :=
| Sent (c : chan A)
| SendBlocks
| SendPanics.
Arguments Sent {A} c.
Arguments SendBlocks {A}.
Arguments SendPanics {A}.

(** [c <- x]: panics on a closed channel, blocks while the buffer is full. *)
Definition send {A : Type} (c : chan A) (x : A) : send_result A :=
  if closed c then SendPanics
  else if Z.of_nat (length (buf c)) <? cap c
       then Sent {| buf := buf c ++ [x]; cap := cap c; closed := closed c |}
       else SendBlocks.

Inductive recv_result (A : Type) : Type :=
| Received (x : A) (c : chan A)
| RecvClosed
| RecvBlocks.
Arguments Received {A} x c.
Arguments RecvClosed {A}.
Arguments RecvBlocks {A}.

(** One turn of [for x := range c]: the oldest buffered element; the loop
    ends when the channel is closed and drained, and blocks otherwise. *)
Definition recv {A : Type} (c : chan A) : recv_result A :=
  match buf c with
  | x :: rest => Received x {| buf := rest; cap := cap c; closed := closed c |}
  | [] => if closed c then RecvClosed else RecvBlocks
  end.

(** [close(c)]: [None] is the panic of closing a closed channel. *)
Definition close {A : Type} (c : chan A) : option (chan A) :=
  if closed c then None
  else Some {| buf := buf c; cap := cap c; closed := true |}.

Section Scanner.

(** Payload of a [ct.LogEntry] and state of the [client.LogClient]. *)
Context {LeafInput : Type} {Client : Type}.

(** Modelled from the spec: [ct.LogEntry] is declared in the client
    library.  Section 3 of the specification describes it as an [int64]
    index with an opaque payload; this package assigns [Index] (line 93)
    and passes the rest on untouched. *)
Record LogEntry : Type := { Index : Z; Leaf : LeafInput }.

(** [logClient.GetEntries(start, end)] *)
Variable GetEntries : Client -> Z -> Z -> Client * result (list LogEntry).

(** [int(time.Since(startTime).Seconds())] at line 213: the wall clock is
    outside the model. *)
Variable elapsed : Z.

(** Lines 42-55 *)
Record Scanner : Type := {
  LogUri : string;
  logClient : Client;
  opts : ScannerOptions;
  certsProcessed : Z
}.

Definition with_logClient (s : Scanner) (c : Client) : Scanner :=
  {| LogUri := LogUri s; logClient := c; opts := opts s;
     certsProcessed := certsProcessed s |}.

Definition with_certsProcessed (s : Scanner) (n : Z) : Scanner :=
  {| LogUri := LogUri s; logClient := logClient s; opts := opts s;
     certsProcessed := n |}.

(** Lines 218-226 *)
Definition NewScanner (logUri : string) (client : Client) (o : ScannerOptions) : Scanner :=
  {| LogUri := logUri; logClient := client; opts := o; certsProcessed := 0 |}.

(** Lines 149-157: the lines [Log] and [Warn] hand to [log.Print]. *)
Definition Log (s : Scanner) (msg : string) : list string :=
  if Quiet (opts s) then [] else [LogUri s +:+ ": " +:+ msg].

Definition Warn (s : Scanner) (msg : string) : list string :=
  [LogUri s +:+ ": " +:+ msg].

(** Lines 159-165, with [logClient.GetSTH()] as [GetSTH].  The scanner
    comes back with the client state after the single call of [GetSTH]. *)
Definition TreeSize (GetSTH : Client -> Client * result SignedTreeHead) (s : Scanner) : Scanner * (Z * option string) :=
  let (c, latestSth) := GetSTH (logClient s) in
  match latestSth with
  | Err err => (with_logClient s c, (0, Some err))
  | Ok sth => (with_logClient s c, (wrap64 (STH_TreeSize sth), None))
  end.

(** ** Lines 81-107: [fetcherJob], one range at a time *)

(** Line 93: the entry is stamped with the range's current start. *)
Definition reindex (r : fetchRange) (e : LogEntry) : LogEntry :=
  {| Index := start r; Leaf := Leaf e |}.

(** Line 95: [r.start++] *)
Definition advance (r : fetchRange) : fetchRange :=
  {| start := wrap64 (start r + 1); end_ := end_ r |}.

(** Lines 92-96: the entries sent, and the range afterwards. *)
Fixpoint pushEntries (r : fetchRange) (logEntries : list LogEntry) : list LogEntry * fetchRange :=
  match logEntries with
  | [] => ([], r)
  | e :: rest =>
      let (out, r') := pushEntries (advance r) rest in
      (reindex r e :: out, r')
  end.

(** What one run of the loop of lines 85-103 has done once the client has
    answered with [responses], one per call: the requests issued, the
    entries sent to the entry queue, and the range the loop is about to
    request next ([None] when [success] was set and the loop is over). *)
Record fetched : Type := {
  requests : list (Z * Z);
  sent : list LogEntry;
  pending : option fetchRange
}.

Fixpoint fetchLoop (r : fetchRange) (responses : list (result (list LogEntry))) : fetched :=
  match responses with
  | [] => {| requests := []; sent := []; pending := Some r |}
  | Err _ :: rest =>
      let f := fetchLoop r rest in
      {| requests := (start r, end_ r) :: requests f;
         sent := sent f; pending := pending f |}
  | Ok logEntries :: rest =>
      let (out, r') := pushEntries r logEntries in
      if start r' >? end_ r'
      then {| requests := [(start r, end_ r)]; sent := out; pending := None |}
      else let f := fetchLoop r' rest in
           {| requests := (start r, end_ r) :: requests f;
              sent := out ++ sent f; pending := pending f |}
  end.

(** The part of the client's contract the loop relies on: a successful
    call never returns more entries than were requested.  Nothing is
    assumed about the [Index] the client put into the entries. *)
Fixpoint honours (r : fetchRange) (responses : list (result (list LogEntry))) : Prop :=
  match responses with
  | [] => True
  | Err _ :: rest => honours r rest
  | Ok logEntries :: rest =>
      Z.of_nat (length logEntries) <= Z.max 0 (end_ r - start r + 1)
      /\ honours (snd (pushEntries r logEntries)) rest
  end.

(** The entries the client handed over, in order. *)
Fixpoint delivered (responses : list (result (list LogEntry))) : list LogEntry :=
  match responses with
  | [] => []
  | Err _ :: rest => delivered rest
  | Ok logEntries :: rest => logEntries ++ delivered rest
  end.

(** ** Lines 167-216: [Scan] as a transition system *)

(** Program counter of a goroutine running [processerJob] (lines 66-73). *)
Inductive processer_pc : Type :=
| PRecv                       (* line 67: waiting on [entries] *)
| PCount (entry : LogEntry)   (* line 68: about to add to [certsProcessed] *)
| PCall (entry : LogEntry)    (* line 69: about to call [processCert] *)
| PFinish                     (* lines 71-72: about to log and [wg.Done()] *)
| PExit.                      (* returned *)

(** Program counter of a goroutine running [fetcherJob] (lines 81-107). *)
Inductive fetcher_pc : Type :=
| FRecv                                              (* line 82: waiting on [ranges] *)
| FGet (r : fetchRange)                              (* lines 85-87: about to call [GetEntries] *)
| FPush (r : fetchRange) (logEntries : list LogEntry) (* lines 92-97: entries still to send *)
| FFinish                                            (* lines 105-106: about to log and [wg.Done()] *)
| FExit.                                             (* returned *)

(** Program counter of the goroutine running [Scan], from line 197 on. *)
Inductive main_pc : Type :=
| MStartProcessers (w : Z) (ranges : list fetchRange)  (* lines 197-200 *)
| MStartFetchers (w : Z) (ranges : list fetchRange)    (* lines 202-205 *)
| MFeed (rest : list fetchRange)                       (* lines 206-209 *)
| MWaitFetchers                                        (* line 210 *)
| MCloseJobs                                           (* line 211 *)
| MWaitProcessers                                      (* line 212 *)
| MComplete                                            (* line 213 *)
| MReturn (err : option string).                       (* line 215 *)

Record state : Type := {
  scanner : Scanner;                    (* [*s] *)
  fetches : chan fetchRange;            (* line 172 *)
  jobs : chan LogEntry;                 (* line 173 *)
  fetcherWG : Z;                        (* line 194 *)
  processorWG : Z;                      (* line 195 *)
  main : main_pc;
  fetcherJobs : list fetcher_pc;        (* the goroutines of line 204, by [id] *)
  processerJobs : list processer_pc;    (* the goroutines of line 199, by [id] *)
  printed : list string;                (* lines handed to [log.Print] *)
  handled : list LogEntry;              (* calls of [processCert], in order *)
  panicked : bool                       (* a goroutine has panicked *)
}.

Definition set_scanner (s : Scanner) (st : state) : state :=
  {| scanner := s; fetches := fetches st; jobs := jobs st;
     fetcherWG := fetcherWG st; processorWG := processorWG st; main := main st;
     fetcherJobs := fetcherJobs st; processerJobs := processerJobs st;
     printed := printed st; handled := handled st; panicked := panicked st |}.

Definition set_fetches (c : chan fetchRange) (st : state) : state :=
  {| scanner := scanner st; fetches := c; jobs := jobs st;
     fetcherWG := fetcherWG st; processorWG := processorWG st; main := main st;
     fetcherJobs := fetcherJobs st; processerJobs := processerJobs st;
     printed := printed st; handled := handled st; panicked := panicked st |}.

Definition set_jobs (c : chan LogEntry) (st : state) : state :=
  {| scanner := scanner st; fetches := fetches st; jobs := c;
     fetcherWG := fetcherWG st; processorWG := processorWG st; main := main st;
     fetcherJobs := fetcherJobs st; processerJobs := processerJobs st;
     printed := printed st; handled := handled st; panicked := panicked st |}.

Definition set_fetcherWG (n : Z) (st : state) : state :=
  {| scanner := scanner st; fetches := fetches st; jobs := jobs st;
     fetcherWG := n; processorWG := processorWG st; main := main st;
     fetcherJobs := fetcherJobs st; processerJobs := processerJobs st;
     printed := printed st; handled := handled st; panicked := panicked st |}.

Definition set_processorWG (n : Z) (st : state) : state :=
  {| scanner := scanner st; fetches := fetches st; jobs := jobs st;
     fetcherWG := fetcherWG st; processorWG := n; main := main st;
     fetcherJobs := fetcherJobs st; processerJobs := processerJobs st;
     printed := printed st; handled := handled st; panicked := panicked st |}.

Definition set_main (pc : main_pc) (st : state) : state :=
  {| scanner := scanner st; fetches := fetches st; jobs := jobs st;
     fetcherWG := fetcherWG st; processorWG := processorWG st; main := pc;
     fetcherJobs := fetcherJobs st; processerJobs := processerJobs st;
     printed := printed st; handled := handled st; panicked := panicked st |}.

Definition set_fetcherJobs (l : list fetcher_pc) (st : state) : state :=
  {| scanner := scanner st; fetches := fetches st; jobs := jobs st;
     fetcherWG := fetcherWG st; processorWG := processorWG st; main := main st;
     fetcherJobs := l; processerJobs := processerJobs st;
     printed := printed st; handled := handled st; panicked := panicked st |}.

Definition set_processerJobs (l : list processer_pc) (st : state) : state :=
  {| scanner := scanner st; fetches := fetches st; jobs := jobs st;
     fetcherWG := fetcherWG st; processorWG := processorWG st; main := main st;
     fetcherJobs := fetcherJobs st; processerJobs := l;
     printed := printed st; handled := handled st; panicked := panicked st |}.

Definition print (lines : list string) (st : state) : state :=
  {| scanner := scanner st; fetches := fetches st; jobs := jobs st;
     fetcherWG := fetcherWG st; processorWG := processorWG st; main := main st;
     fetcherJobs := fetcherJobs st; processerJobs := processerJobs st;
     printed := printed st ++ lines; handled := handled st;
     panicked := panicked st |}.

Definition call_processCert (entry : LogEntry) (st : state) : state :=
  {| scanner := scanner st; fetches := fetches st; jobs := jobs st;
     fetcherWG := fetcherWG st; processorWG := processorWG st; main := main st;
     fetcherJobs := fetcherJobs st; processerJobs := processerJobs st;
     printed := printed st; handled := handled st ++ [entry];
     panicked := panicked st |}.

Definition panic (st : state) : state :=
  {| scanner := scanner st; fetches := fetches st; jobs := jobs st;
     fetcherWG := fetcherWG st; processorWG := processorWG st; main := main st;
     fetcherJobs := fetcherJobs st; processerJobs := processerJobs st;
     printed := printed st; handled := handled st; panicked := true |}.

Definition set_fetcher (id : nat) (pc : fetcher_pc) (st : state) : state :=
  set_fetcherJobs (<[id := pc]> (fetcherJobs st)) st.

Definition set_processer (id : nat) (pc : processer_pc) (st : state) : state :=
  set_processerJobs (<[id := pc]> (processerJobs st)) st.

(** [wg.Done()]: a negative counter panics. *)
Definition fetcherWG_Done (st : state) : state :=
  if fetcherWG st <=? 0 then panic st else set_fetcherWG (fetcherWG st - 1) st.

Definition processorWG_Done (st : state) : state :=
  if processorWG st <=? 0 then panic st else set_processorWG (processorWG st - 1) st.

(** One atomic step of the processer [id] standing at [pc]; [None] when the
    goroutine is blocked or has returned. *)
Definition processerJob (id : nat) (pc : processer_pc) (st : state) : option state :=
  match pc with
  | PRecv =>
      match recv (jobs st) with
      | Received entry c => Some (set_processer id (PCount entry) (set_jobs c st))
      | RecvClosed => Some (set_processer id PFinish st)
      | RecvBlocks => None
      end
  | PCount entry =>
      Some (set_processer id (PCall entry)
              (set_scanner (with_certsProcessed (scanner st)
                              (wrap64 (certsProcessed (scanner st) + 1))) st))
  | PCall entry =>
      Some (set_processer id PRecv (call_processCert entry st))
  | PFinish =>
      Some (set_processer id PExit
              (processorWG_Done
                 (print (Log (scanner st)
                           ("Processor " +:+ dec (Z.of_nat id) +:+ " finished")) st)))
  | PExit => None
  end.

(** One atomic step of the fetcher [id] standing at [pc]. *)
Definition fetcherJob (id : nat) (pc : fetcher_pc) (st : state) : option state :=
  match pc with
  | FRecv =>
      match recv (fetches st) with
      | Received r c => Some (set_fetcher id (FGet r) (set_fetches c st))
      | RecvClosed => Some (set_fetcher id FFinish st)
      | RecvBlocks => None
      end
  | FGet r =>
      let st := print (Log (scanner st)
                         ("Fetching entries " +:+ dec (start r) +:+ " to "
                          +:+ dec (end_ r))) st in
      let (c, res) := GetEntries (logClient (scanner st)) (start r) (end_ r) in
      let st := set_scanner (with_logClient (scanner st) c) st in
      match res with
      | Err err =>
          Some (set_fetcher id (FGet r)
                  (print (Warn (scanner st)
                            ("Problem fetching from log: " +:+ err)) st))
      | Ok logEntries => Some (set_fetcher id (FPush r logEntries) st)
      end
  | FPush r (logEntry :: rest) =>
      match send (jobs st) (reindex r logEntry) with
      | Sent c => Some (set_fetcher id (FPush (advance r) rest) (set_jobs c st))
      | SendBlocks => None
      | SendPanics => Some (panic st)
      end
  | FPush r [] =>
      if start r >? end_ r
      then Some (set_fetcher id FRecv st)
      else Some (set_fetcher id (FGet r) st)
  | FFinish =>
      Some (set_fetcher id FExit
              (fetcherWG_Done
                 (print (Log (scanner st)
                           ("Fetcher " +:+ dec (Z.of_nat id) +:+ " finished")) st)))
  | FExit => None
  end.

(** One atomic step of [Scan] itself. *)
Definition Scan_step (st : state) : option state :=
  match main st with
  | MStartProcessers w ranges =>
      if w <? NumWorkers (opts (scanner st))
      then Some (set_main (MStartProcessers (wrap64 (w + 1)) ranges)
                   (set_processerJobs (processerJobs st ++ [PRecv])
                      (set_processorWG (processorWG st + 1) st)))
      else Some (set_main (MStartFetchers 0 ranges) st)
  | MStartFetchers w ranges =>
      if w <? ParallelFetch (opts (scanner st))
      then Some (set_main (MStartFetchers (wrap64 (w + 1)) ranges)
                   (set_fetcherJobs (fetcherJobs st ++ [FRecv])
                      (set_fetcherWG (fetcherWG st + 1) st)))
      else Some (set_main (MFeed ranges) st)
  | MFeed (r :: rest) =>
      match send (fetches st) r with
      | Sent c => Some (set_main (MFeed rest) (set_fetches c st))
      | SendBlocks => None
      | SendPanics => Some (panic st)
      end
  | MFeed [] =>
      match close (fetches st) with
      | Some c => Some (set_main MWaitFetchers (set_fetches c st))
      | None => Some (panic st)
      end
  | MWaitFetchers =>
      if fetcherWG st =? 0 then Some (set_main MCloseJobs st) else None
  | MCloseJobs =>
      match close (jobs st) with
      | Some c => Some (set_main MWaitProcessers (set_jobs c st))
      | None => Some (panic st)
      end
  | MWaitProcessers =>
      if processorWG st =? 0 then Some (set_main MComplete st) else None
  | MComplete =>
      Some (set_main (MReturn None)
              (print (Log (scanner st)
                        ("Completed " +:+ dec (certsProcessed (scanner st))
                         +:+ " certs in " +:+ humanTime elapsed)) st))
  | MReturn _ => None
  end.

Inductive tid : Type :=
| Main
| Fetcher (id : nat)
| Processer (id : nat).

(** The goroutine [t] takes its next step.  After a panic the program is
    gone and nothing runs. *)
Definition step (t : tid) (st : state) : option state :=
  if panicked st then None
  else match t with
       | Main => Scan_step st
       | Fetcher id =>
           match fetcherJobs st !! id with
           | Some pc => fetcherJob id pc st
           | None => None
           end
       | Processer id =>
           match processerJobs st !! id with
           | Some pc => processerJob id pc st
           | None => None
           end
       end.

(** The goroutines take steps in the order of the schedule; [None] when
    the schedule names a goroutine that cannot move. *)
Fixpoint exec (schedule : list tid) (st : state) : option state :=
  match schedule with
  | [] => Some st
  | t :: rest =>
      match step t st with
      | Some st' => exec rest st'
      | None => None
      end
  end.

(** Lines 168-173 and 194-195: the state in which line 197 is reached, once
    the partitioning loop has produced [ranges]. *)
Definition Scan_start (s : Scanner) (ranges : list fetchRange) : state :=
  {| scanner := with_certsProcessed s 0;
     fetches := make fetchRange 1000;
     jobs := make LogEntry 100000;
     fetcherWG := 0;
     processorWG := 0;
     main := MStartProcessers 0 ranges;
     fetcherJobs := [];
     processerJobs := [];
     printed := Log s "Starting scan...";
     handled := [];
     panicked := false |}.

(** [s.Scan(startIndex, endIndex, processCert)] under a schedule: the state
    the schedule leads to, [None] when the partitioning loop is still
    running after [fuel] turns or the schedule cannot be followed. *)
Definition Scan (fuel : nat) (schedule : list tid) (s : Scanner) (startIndex endIndex : Z) : option state :=
  match Scan_ranges fuel startIndex endIndex (BatchSize (opts s)) with
  | Some ranges => exec schedule (Scan_start s ranges)
  | None => None
  end.

(** [Scan] has returned [err]. *)
Definition returned (st : state) (err : option string) : Prop :=
  main st = MReturn err.

(** ** Invariants of the pipeline *)

(** States reachable from [st0] are those some schedule leads to. *)
Definition reachable (st0 st : state) : Prop :=
  exists schedule, exec schedule st0 = Some st.

Definition fetcher_live (pc : fetcher_pc) : nat :=
  match pc with FExit => 0 | _ => 1 end.

Definition processer_live (pc : processer_pc) : nat :=
  match pc with PExit => 0 | _ => 1 end.

Definition fetcher_over (pc : fetcher_pc) : Prop :=
  pc = FFinish \/ pc = FExit.

Definition processer_over (pc : processer_pc) : Prop :=
  pc = PFinish \/ pc = PExit.

(** Entries a processer has counted but not yet handed to [processCert]. *)
Definition processer_counted (pc : processer_pc) : nat :=
  match pc with PCall _ => 1 | _ => 0 end.

Definition fetchers_exited (st : state) : Prop :=
  Forall (fun pc => pc = FExit) (fetcherJobs st).

Definition processers_exited (st : state) : Prop :=
  Forall (fun pc => pc = PExit) (processerJobs st).

(** The shutdown sequence: what holds of the two queues and the two pools
    while [Scan] stands at each of its statements. *)
Definition phase_inv (st : state) : Prop :=
  match main st with
  | MStartProcessers _ _ | MStartFetchers _ _ | MFeed _ =>
      closed (fetches st) = false /\ closed (jobs st) = false
  | MWaitFetchers =>
      closed (fetches st) = true /\ closed (jobs st) = false
  | MCloseJobs =>
      closed (fetches st) = true /\ closed (jobs st) = false
      /\ fetchers_exited st
  | MWaitProcessers =>
      closed (fetches st) = true /\ closed (jobs st) = true
      /\ fetchers_exited st
  | MComplete | MReturn _ =>
      closed (fetches st) = true /\ closed (jobs st) = true
      /\ fetchers_exited st /\ processers_exited st
  end.

(** The statement [Scan] executes after the one at [pc], from the end of
    the feeding loop on. *)
Definition shutdown_next (pc : main_pc) : option main_pc :=
  match pc with
  | MFeed [] => Some MWaitFetchers
  | MWaitFetchers => Some MCloseJobs
  | MCloseJobs => Some MWaitProcessers
  | MWaitProcessers => Some MComplete
  | MComplete => Some (MReturn None)
  | _ => None
  end.

(** The same facts, one per resource, as functions of the place [Scan]
    stands at. *)
Definition fetches_closed_at (pc : main_pc) : bool :=
  match pc with
  | MStartProcessers _ _ | MStartFetchers _ _ | MFeed _ => false
  | _ => true
  end.

Definition fetchers_gone_at (pc : main_pc) : bool :=
  match pc with
  | MStartProcessers _ _ | MStartFetchers _ _ | MFeed _ | MWaitFetchers => false
  | _ => true
  end.

Definition jobs_closed_at (pc : main_pc) : bool :=
  match pc with
  | MWaitProcessers | MComplete | MReturn _ => true
  | _ => false
  end.

Definition processers_gone_at (pc : main_pc) : bool :=
  match pc with
  | MComplete | MReturn _ => true
  | _ => false
  end.

(** The pools while and after [Scan] starts them. *)
Definition pools_inv (st : state) : Prop :=
  match main st with
  | MStartProcessers w _ =>
      length (fetcherJobs st) = 0%nat
      /\ (w = 0 \/ (0 < length (processerJobs st))%nat)
  | MStartFetchers w _ =>
      (1 <= NumWorkers (opts (scanner st)) -> (0 < length (processerJobs st))%nat)
      /\ (w = 0 \/ (0 < length (fetcherJobs st))%nat)
  | _ =>
      (1 <= NumWorkers (opts (scanner st)) -> (0 < length (processerJobs st))%nat)
      /\ (1 <= ParallelFetch (opts (scanner st)) -> (0 < length (fetcherJobs st))%nat)
  end.

(** The synchronisation invariant: it holds whatever the client does. *)
Record sync_inv (s : Scanner) (st : state) : Prop := {
  sync_alive : panicked st = false;
  sync_opts : opts (scanner st) = opts s;
  sync_uri : LogUri (scanner st) = LogUri s;
  sync_fetches_cap : cap (fetches st) = 1000;
  sync_jobs_cap : cap (jobs st) = 100000;
  sync_fetcherWG :
    fetcherWG st = Z.of_nat (sum_list_with fetcher_live (fetcherJobs st));
  sync_processorWG :
    processorWG st = Z.of_nat (sum_list_with processer_live (processerJobs st));
  sync_fetches_closed : closed (fetches st) = fetches_closed_at (main st);
  sync_jobs_closed : closed (jobs st) = jobs_closed_at (main st);
  sync_fetchers_gone : fetchers_gone_at (main st) = true -> fetcherWG st = 0;
  sync_processers_gone : processers_gone_at (main st) = true -> processorWG st = 0;
  sync_return : forall err, main st = MReturn err -> err = None;
  sync_pools : pools_inv st;
  sync_fetcher_over :
    forall id pc, fetcherJobs st !! id = Some pc -> fetcher_over pc ->
                  closed (fetches st) = true /\ buf (fetches st) = [];
  sync_processer_over :
    forall id pc, processerJobs st !! id = Some pc -> processer_over pc ->
                  closed (jobs st) = true /\ buf (jobs st) = [];
  sync_counter :
    certsProcessed (scanner st)
    = wrap64 (Z.of_nat (length (handled st)
                        + sum_list_with processer_counted (processerJobs st)))
}.

(** *** Where the indices are

    [q] selects what is counted: [Some i] counts the occurrences of the
    index [i], [None] counts every index. *)

Definition hit (q : option Z) (i : Z) : nat :=
  match q with
  | None => 1
  | Some j => if i =? j then 1 else 0
  end.

Definition span (q : option Z) (r : fetchRange) : nat :=
  match q with
  | None => width r
  | Some j => if (start r <=? j) && (j <=? end_ r) then 1 else 0
  end.

Definition hits (q : option Z) (l : list LogEntry) : nat :=
  sum_list_with (fun e => hit q (Index e)) l.

Definition spans (q : option Z) (l : list fetchRange) : nat :=
  sum_list_with (span q) l.

(** Indices still owed by a fetcher: those of the range it is working on. *)
Definition fetcher_owes (q : option Z) (pc : fetcher_pc) : nat :=
  match pc with
  | FGet r | FPush r _ => span q r
  | _ => 0
  end.

(** The entry a processer has taken from the queue and not yet handled. *)
Definition processer_holds (q : option Z) (pc : processer_pc) : nat :=
  match pc with
  | PCount e | PCall e => hit q (Index e)
  | _ => 0
  end.

(** The ranges [Scan] has not sent to the work queue yet. *)
Definition unfed (pc : main_pc) : list fetchRange :=
  match pc with
  | MStartProcessers _ ranges | MStartFetchers _ ranges | MFeed ranges => ranges
  | _ => []
  end.

(** Indices not yet handed to [processCert], wherever they are. *)
Definition in_flight (q : option Z) (st : state) : nat :=
  sum_list_with (processer_holds q) (processerJobs st)
  + hits q (buf (jobs st))
  + sum_list_with (fetcher_owes q) (fetcherJobs st)
  + spans q (buf (fetches st))
  + spans q (unfed (main st)).

(** A range no [r.start++] can carry past the largest [int64]. *)
Definition range_ok (r : fetchRange) : Prop :=
  min_int64 <= start r <= end_ r + 1 /\ end_ r < max_int64.

Definition fetcher_ok (pc : fetcher_pc) : Prop :=
  match pc with
  | FGet r => range_ok r
  | FPush r l => range_ok r /\ (length l <= width r)%nat
  | _ => True
  end.

(** The client never returns more entries than requested. *)
Definition honours_contract : Prop :=
  forall c s e c' l,
    GetEntries c s e = (c', Ok l) ->
    Z.of_nat (length l) <= Z.max 0 (e - s + 1).

(** The client returns the whole requested range at every call. *)
Definition returns_full_range : Prop :=
  forall c s e, exists c' l,
    GetEntries c s e = (c', Ok l)
    /\ Z.of_nat (length l) = Z.max 0 (e - s + 1).

(** The data invariant: every index of [ranges] is at exactly one place. *)
Record data_inv (ranges : list fetchRange) (st : state) : Prop := {
  data_fetchers : Forall fetcher_ok (fetcherJobs st);
  data_fetches : Forall range_ok (buf (fetches st));
  data_unfed : Forall range_ok (unfed (main st));
  data_conserved :
    forall q, (hits q (handled st) + in_flight q st = spans q ranges)%nat
}.

(** Nothing to do: the invariant of a scan over no range at all. *)
Record idle_inv (st : state) : Prop := {
  idle_unfed : unfed (main st) = [];
  idle_fetches : buf (fetches st) = [];
  idle_jobs : buf (jobs st) = [];
  idle_fetchers :
    Forall (fun pc => pc = FRecv \/ fetcher_over pc) (fetcherJobs st);
  idle_processers :
    Forall (fun pc => pc = PRecv \/ processer_over pc) (processerJobs st);
  idle_handled : handled st = [];
  idle_counter : certsProcessed (scanner st) = 0
}.

(** *** A measure of the work left *)

Definition processer_weight (pc : processer_pc) : nat :=
  match pc with
  | PRecv => 2
  | PCount _ => 4
  | PCall _ => 3
  | PFinish => 1
  | PExit => 0
  end.

Definition fetcher_weight (pc : fetcher_pc) : nat :=
  match pc with
  | FRecv => 2
  | FGet r => 6 * width r + 4
  | FPush r [] => 6 * width r + (if width r is O then 3 else 5)
  | FPush r (_ :: _) => 6 * width r + 3
  | FFinish => 1
  | FExit => 0
  end.

Definition range_weight (r : fetchRange) : nat := 6 * width r + 3.

Definition main_weight (o : ScannerOptions) (pc : main_pc) : nat :=
  match pc with
  | MStartProcessers w ranges =>
      3 * Z.to_nat (NumWorkers o - w) + 3 * Z.to_nat (ParallelFetch o)
      + sum_list_with range_weight ranges + length ranges + 8
  | MStartFetchers w ranges =>
      3 * Z.to_nat (ParallelFetch o - w)
      + sum_list_with range_weight ranges + length ranges + 7
  | MFeed ranges => sum_list_with range_weight ranges + length ranges + 6
  | MWaitFetchers => 5
  | MCloseJobs => 4
  | MWaitProcessers => 3
  | MComplete => 2
  | MReturn _ => 1
  end.

Definition weight (st : state) : nat :=
  main_weight (opts (scanner st)) (main st)
  + sum_list_with fetcher_weight (fetcherJobs st)
  + sum_list_with processer_weight (processerJobs st)
  + sum_list_with range_weight (buf (fetches st))
  + 3 * length (buf (jobs st)).

(** The loop counters of lines 197 and 202 count the goroutines started. *)
Definition counters_inv (st : state) : Prop :=
  match main st with
  | MStartProcessers w _ | MStartFetchers w _ => 0 <= w
  | _ => True
  end.

(** Every call a fetcher is about to make succeeds, with at least one entry
    when the range is not empty. *)
Definition fetch_progresses (st : state) : Prop :=
  forall id r, fetcherJobs st !! id = Some (FGet r) ->
    exists c l,
      GetEntries (logClient (scanner st)) (start r) (end_ r) = (c, Ok l)
      /\ ((0 < width r)%nat -> l <> []).

(** There is a goroutine to take what a blocked sender wants to send. *)
Definition pools_suffice (st : state) : Prop :=
  (forall r rest, main st = MFeed (r :: rest) ->
                  (0 < length (fetcherJobs st))%nat)
  /\ (forall id r e l, fetcherJobs st !! id = Some (FPush r (e :: l)) ->
                       (0 < length (processerJobs st))%nat).

(** The pool sizes are values of Go's [int]. *)
Definition pools_typed (o : ScannerOptions) : Prop :=
  NumWorkers o <= max_int64 /\ ParallelFetch o <= max_int64.

(** The client fails at every call. *)
Definition always_fails : Prop :=
  forall c s e, exists c' err, GetEntries c s e = (c', Err err).

(** *** What has been put on the work queue

    The ranges a step has appended to the work queue, read off the queue
    before and after the step (sends append at the end, receives take
    from the front), and the ranges the steps of a schedule have
    appended to it, in the order of the sends. *)
Definition enqueued (st st' : state) : list fetchRange :=
  drop (length (buf (fetches st))) (buf (fetches st')).

Fixpoint fed (schedule : list tid) (st : state) : list fetchRange :=
  match schedule with
  | [] => []
  | t :: rest =>
      match step t st with
      | Some st' => enqueued st st' ++ fed rest st'
      | None => []
      end
  end.

(** ** Further properties: definitions *)

(** The batches in closed form: the [k]-th range starts [k] batches after
    [startIndex] and is cut at [endIndex]. *)
Definition batch_count (startIndex endIndex batchSize : Z) : Z :=
  (endIndex - startIndex + batchSize - 1) / batchSize.

Definition batch (startIndex endIndex batchSize k : Z) : fetchRange :=
  {| start := startIndex + k * batchSize;
     end_ := Z.min (startIndex + (k + 1) * batchSize) endIndex - 1 |}.

Definition batches (startIndex endIndex batchSize : Z) : list fetchRange :=
  map (batch startIndex endIndex batchSize)
    (seqZ 0 (batch_count startIndex endIndex batchSize)).

(** A response that brings the loop of [fetcherJob] no further: an error
    or an empty batch. *)
Definition fruitless (res : result (list LogEntry)) : Prop :=
  match res with
  | Err _ => True
  | Ok l => l = []
  end.

(** Neither queue holds more than its capacity (lines 172-173). *)
Definition queues_bounded (st : state) : Prop :=
  Z.of_nat (length (buf (fetches st))) <= 1000
  /\ Z.of_nat (length (buf (jobs st))) <= 100000.

(** The goroutines the loops of lines 197-205 have started so far: [w] of
    the pool being started, all of a pool already started. *)
Definition pools_started (o : ScannerOptions) (st : state) : Prop :=
  match main st with
  | MStartProcessers w _ =>
      0 <= w <= Z.max 0 (NumWorkers o)
      /\ length (processerJobs st) = Z.to_nat w
      /\ length (fetcherJobs st) = 0%nat
  | MStartFetchers w _ =>
      0 <= w <= Z.max 0 (ParallelFetch o)
      /\ length (processerJobs st) = Z.to_nat (NumWorkers o)
      /\ length (fetcherJobs st) = Z.to_nat w
  | _ =>
      length (processerJobs st) = Z.to_nat (NumWorkers o)
      /\ length (fetcherJobs st) = Z.to_nat (ParallelFetch o)
  end.

(** The client answers every call, never with more entries than were
    requested, and with at least one entry when the range is not empty:
    it may return fewer leaves than requested (lines 98-100). *)
Definition productive : Prop :=
  forall c s e, exists c' l,
    GetEntries c s e = (c', Ok l)
    /\ Z.of_nat (length l) <= Z.max 0 (e - s + 1)
    /\ (s <= e -> l <> []).

(** The indices of the interval [[startIndex, endIndex)], once each. *)
Definition once_in (startIndex endIndex i : Z) : nat :=
  if (startIndex <=? i) && (i <? endIndex) then 1 else 0.

(** *** The order of the indices

    The index a processer has taken and not yet handled, the indices a
    fetcher still owes, and the indices of the whole pipeline in the order
    in which they lie in it: handled, held by the processers, queued,
    owed by the fetchers, in the work queue, not sent yet. *)
Definition processer_index (pc : processer_pc) : list Z :=
  match pc with
  | PCount e | PCall e => [Index e]
  | _ => []
  end.

Definition fetcher_indices (pc : fetcher_pc) : list Z :=
  match pc with
  | FGet r | FPush r _ => indices r
  | _ => []
  end.

Definition pipeline_order (st : state) : list Z :=
  map Index (handled st)
  ++ concat (map processer_index (processerJobs st))
  ++ map Index (buf (jobs st))
  ++ concat (map fetcher_indices (fetcherJobs st))
  ++ concat (map indices (buf (fetches st)))
  ++ concat (map indices (unfed (main st))).

(** At most one fetcher and at most one processer. *)
Definition single_file (st : state) : Prop :=
  (length (fetcherJobs st) <= 1)%nat /\ (length (processerJobs st) <= 1)%nat.

(** *** What is printed

    A warning quotes an error the client has returned (line 89); every
    other line is a status message, printed only when [Quiet] is off. *)
Definition warning_line (s : Scanner) (line : string) : Prop :=
  exists c a b c' err,
    GetEntries c a b = (c', Err err)
    /\ line = LogUri s +:+ ": " +:+ ("Problem fetching from log: " +:+ err).

Definition status_line (s : Scanner) (line : string) : Prop :=
  Quiet (opts s) = false /\ exists msg, line = LogUri s +:+ ": " +:+ msg.

(** The line of line 213, for the counter as it stands in [st]. *)
Definition completion_line (s : Scanner) (st : state) : string :=
  LogUri s +:+ ": "
  +:+ ("Completed " +:+ dec (certsProcessed (scanner st))
       +:+ " certs in " +:+ humanTime elapsed).

(** The first line, and the last one once [Scan] has returned. *)
Definition report_inv (s : Scanner) (st : state) : Prop :=
  exists mid,
    printed st
    = Log s "Starting scan..." ++ mid
      ++ match main st with
         | MReturn _ => if Quiet (opts s) then [] else [completion_line s st]
         | _ => []
         end.

(** *** A pool that is empty

    Without a fetcher nothing leaves the work queue and nothing happens
    downstream of it. *)
Record starved_inv (s : Scanner) (rs : list fetchRange) (st : state) : Prop := {
  starved_fetchers : fetcherJobs st = [];
  starved_loop : forall w ranges, main st = MStartFetchers w ranges -> w = 0;
  starved_jobs : buf (jobs st) = [];
  starved_processers :
    Forall (fun pc => pc = PRecv \/ processer_over pc) (processerJobs st);
  starved_handled : handled st = [];
  starved_counter : certsProcessed (scanner st) = 0;
  starved_client : logClient (scanner st) = logClient s;
  starved_queue :
    fetches_closed_at (main st) = false ->
    (length (buf (fetches st)) + length (unfed (main st)) = length rs)%nat;
  starved_fits : fetches_closed_at (main st) = true -> (length rs <= 1000)%nat
}.

(** Without a processer nothing leaves the entry queue. *)
Record unhandled_inv (st : state) : Prop := {
  unhandled_processers : processerJobs st = [];
  unhandled_loop : forall w ranges, main st = MStartProcessers w ranges -> w = 0;
  unhandled_handled : handled st = [];
  unhandled_counter : certsProcessed (scanner st) = 0
}.

(** *** A client that delivers nothing

    Every call fails or returns no entry. *)
Definition delivers_nothing : Prop :=
  forall c s e c' l, GetEntries c s e = (c', Ok l) -> l = [].

(** The fetcher is about to send an entry (line 94). *)
Definition fetcher_sends (pc : fetcher_pc) : bool :=
  match pc with
  | FPush _ (_ :: _) => true
  | _ => false
  end.

(** Nothing has entered the entry queue. *)
Record barren_inv (st : state) : Prop := {
  barren_fetchers : Forall (fun pc => fetcher_sends pc = false) (fetcherJobs st);
  barren_jobs : buf (jobs st) = [];
  barren_processers :
    Forall (fun pc => pc = PRecv \/ processer_over pc) (processerJobs st);
  barren_handled : handled st = [];
  barren_counter : certsProcessed (scanner st) = 0
}.

(** * Properties *)

(** Lemmas that do not speak of the log client do not depend on it. *)
Ltac pure :=
  try clear GetEntries; try clear elapsed; try clear Client;
  try clear LeafInput.

(** ** Machine integers and strings *)

Lemma wrap64_id (z : Z) : in_int64 z -> wrap64 z = z.
Proof.
  unfold in_int64, min_int64, max_int64, wrap64. intros Hz.
  rewrite Z.mod_small; lia.
Qed.

Lemma wrap64_range (z : Z) : in_int64 (wrap64 z).
Proof.
  unfold in_int64, min_int64, max_int64, wrap64.
  pose proof (Z.mod_pos_bound (z + 2 ^ 63) (2 ^ 64)). lia.
Qed.

Lemma append_nil_r (s : string) : s +:+ "" = s.
Proof.
  induction s as [|c s IH]; [reflexivity|].
  change (String c s +:+ "") with (String c (s +:+ "")). now rewrite IH.
Qed.

Lemma append_assoc (s1 s2 s3 : string) : (s1 +:+ s2) +:+ s3 = s1 +:+ (s2 +:+ s3).
Proof.
  induction s1 as [|c s1 IH]; [reflexivity|].
  change ((String c s1 +:+ s2) +:+ s3) with (String c ((s1 +:+ s2) +:+ s3)).
  now rewrite IH.
Qed.

(** ** [humanTime] *)

Lemma humanTime_units (seconds : Z) :
  0 <= seconds <= humanTime_limit ->
  let nanos := wrap64 (seconds * Duration.Second) in
  Z.quot nanos Duration.Hour = seconds / 3600
  /\ Z.quot (Z.rem nanos Duration.Hour) Duration.Minute = seconds mod 3600 / 60
  /\ Z.quot (Z.rem (Z.rem nanos Duration.Hour) Duration.Minute) Duration.Second
     = seconds mod 60.
Proof.
  pure.
  unfold humanTime_limit, Duration.Hour, Duration.Minute, Duration.Second.
  intros Hs; cbv zeta.
  rewrite wrap64_id by (unfold in_int64, min_int64, max_int64; lia).
  rewrite !Z.rem_mod_nonneg, !Z.quot_div_nonneg;
    repeat match goal with
           | |- 0 <= _ mod _ => apply Z.mod_pos_bound
           | |- 0 <= _ => lia
           | |- 0 < _ => lia
           end.
  repeat split; Z.div_mod_to_equations; lia.
Qed.

(** C10 (as amended): for every [seconds] between 0 and 9223372036,
    [humanTime seconds] is the concatenation of "<H> hours ", "<M> minutes "
    and "<S> seconds " with H = seconds / 3600, M = (seconds mod 3600) / 60,
    S = seconds mod 60, each component omitted exactly when its value is
    zero. *)
Theorem humanTime_correct (seconds : Z) :
  0 <= seconds <= humanTime_limit ->
  humanTime seconds = humanTime_spec seconds.
Proof.
  pure.
  intros Hs. destruct (humanTime_units seconds Hs) as (Hh & Hm & Hsec).
  unfold humanTime, humanTime_spec, component.
  rewrite Hh, Hm, Hsec.
  assert (0 <= seconds / 3600) by (Z.div_mod_to_equations; lia).
  assert (0 <= seconds mod 3600 / 60) by (Z.div_mod_to_equations; lia).
  assert (0 <= seconds mod 60) by (Z.div_mod_to_equations; lia).
  repeat match goal with
         | |- context [?a >? 0] =>
             let E := fresh in
             destruct (Z.gtb_spec a 0) as [E|E];
             [ destruct (Z.eqb_spec a 0); [lia|]
             | replace a with 0 by lia ]
         end;
    cbn [Z.eqb]; rewrite ?append_nil_r, ?append_assoc; reflexivity.
Qed.

(** ** The partitioning loop *)

Lemma Scan_ranges_S (fuel : nat) (s endIndex batchSize : Z) (l : list fetchRange) :
  Scan_ranges fuel s endIndex batchSize = Some l ->
  Scan_ranges (S fuel) s endIndex batchSize = Some l.
Proof.
  revert s l. induction fuel as [|fuel IH]; intros s l; [discriminate|].
  cbn [Scan_ranges]. destruct (s <? endIndex); [|trivial].
  destruct (Scan_ranges fuel _ endIndex batchSize) as [l'|] eqn:E; [|discriminate].
  intros [= <-]. apply IH in E. cbn [Scan_ranges] in E. now rewrite E.
Qed.

Lemma Scan_ranges_mono (fuel fuel' : nat) (s endIndex batchSize : Z) (l : list fetchRange) :
  (fuel <= fuel')%nat ->
  Scan_ranges fuel s endIndex batchSize = Some l ->
  Scan_ranges fuel' s endIndex batchSize = Some l.
Proof.
  induction 1 as [|fuel' _ IH]; [trivial|].
  intros H. now apply Scan_ranges_S, IH.
Qed.

(** Without overflow one turn of the loop cuts off the next batch. *)
Lemma Scan_ranges_turn (s endIndex batchSize : Z) :
  in_int64 s -> in_int64 endIndex -> 0 < batchSize ->
  endIndex + batchSize <= 2 ^ 63 -> s < endIndex ->
  let e := wrap64 (min (wrap64 (s + batchSize)) endIndex - 1) in
  e = Z.min (s + batchSize) endIndex - 1 /\ wrap64 (e + 1) = e + 1.
Proof.
  unfold in_int64, min_int64, max_int64. intros Hs He Hb Hsum Hlt. cbv zeta.
  rewrite (wrap64_id (s + batchSize))
    by (unfold in_int64, min_int64, max_int64; lia).
  assert (Hmin : min (s + batchSize) endIndex = Z.min (s + batchSize) endIndex).
  { unfold min. destruct (Z.ltb_spec (s + batchSize) endIndex); lia. }
  rewrite Hmin.
  rewrite (wrap64_id (Z.min _ _ - 1))
    by (unfold in_int64, min_int64, max_int64; lia).
  split; [reflexivity|].
  apply wrap64_id. unfold in_int64, min_int64, max_int64; lia.
Qed.

Lemma Scan_ranges_tiles (fuel : nat) (s endIndex batchSize : Z) :
  in_int64 s -> in_int64 endIndex -> 0 < batchSize ->
  endIndex + batchSize <= 2 ^ 63 ->
  (Z.to_nat (endIndex - s) < fuel)%nat ->
  exists l, Scan_ranges fuel s endIndex batchSize = Some l
            /\ tiles batchSize endIndex s l.
Proof.
  intros Hs He Hb Hsum. revert s Hs.
  induction fuel as [|fuel IH]; intros s Hs Hfuel; [lia|].
  cbn [Scan_ranges]. destruct (Z.ltb_spec s endIndex) as [Hlt|Hge].
  - destruct (Scan_ranges_turn s endIndex batchSize Hs He Hb Hsum Hlt) as [He' Hnext].
    cbv zeta in He', Hnext. rewrite Hnext, He'.
    destruct (IH (Z.min (s + batchSize) endIndex - 1 + 1)) as (l & -> & Ht).
    + unfold in_int64, min_int64, max_int64 in *. lia.
    + lia.
    + eexists; split; [reflexivity|]. constructor; [lia | lia | exact Ht].
  - eexists; split; [reflexivity|]. constructor. lia.
Qed.

Lemma tiles_indices (batchSize endIndex s : Z) (l : list fetchRange) :
  tiles batchSize endIndex s l -> s <= endIndex ->
  concat (map indices l) = seqZ s (endIndex - s).
Proof.
  induction 1 as [s Hs|s e l Hse Hw Ht IH]; intros Hle.
  - cbn. symmetry. apply seqZ_nil. lia.
  - cbn [map concat]. rewrite IH by lia. unfold indices; cbn [start end_].
    replace (endIndex - s) with ((e - s + 1) + (endIndex - (e + 1))) by lia.
    rewrite (seqZ_app s (e - s + 1) (endIndex - (e + 1))) by lia.
    do 2 f_equal. lia.
Qed.

Lemma tiles_head (batchSize endIndex s : Z) (l : list fetchRange) :
  tiles batchSize endIndex s l ->
  forall r, head l = Some r -> start r = s.
Proof. destruct 1; cbn; intros r [= <-]; reflexivity. Qed.

Lemma tiles_adjacent (batchSize endIndex s : Z) (l : list fetchRange) :
  tiles batchSize endIndex s l -> adjacent l.
Proof.
  induction 1 as [s Hs|s e l Hse Hw Ht IH]; intros i r r' Hi Hi'.
  - discriminate.
  - destruct i as [|i]; cbn in Hi, Hi'.
    + injection Hi as <-. cbn [end_].
      symmetry. apply (tiles_head _ _ _ _ Ht). now destruct l.
    + eapply IH; eassumption.
Qed.

Lemma tiles_last (batchSize endIndex s : Z) (l : list fetchRange) :
  tiles batchSize endIndex s l ->
  forall r, last l = Some r -> end_ r = endIndex - 1.
Proof.
  induction 1 as [s Hs|s e l Hse Hw Ht IH]; intros r; [discriminate|].
  destruct l as [|r1 l].
  - cbn. intros [= <-]. cbn. inversion Ht; subst. lia.
  - change (last (_ :: r1 :: l)) with (last (r1 :: l)). apply IH.
Qed.

Lemma tiles_Forall (batchSize endIndex s : Z) (l : list fetchRange) :
  tiles batchSize endIndex s l ->
  Forall (fun r => s <= start r /\ start r <= end_ r < endIndex
                   /\ end_ r - start r + 1 <= batchSize) l.
Proof.
  induction 1 as [s Hs|s e l Hse Hw Ht IH]; constructor.
  - cbn. lia.
  - eapply Forall_impl; [exact IH|]. cbn. intros r; lia.
Qed.

(** C1 (as amended): for [startIndex < endIndex], [batchSize > 0] and
    [endIndex + batchSize <= 2^63] (so that no [start + batchSize]
    overflows), the partitioning loop of [Scan] terminates and yields
    ranges r_0 ... r_k with r_0.start = startIndex,
    r_i.end + 1 = r_(i+1).start, r_k.end = endIndex - 1, every width at
    most [batchSize], whose indices in order are exactly
    [[startIndex, endIndex)]. *)
Theorem Scan_ranges_partition (startIndex endIndex batchSize : Z) :
  in_int64 startIndex -> in_int64 endIndex ->
  startIndex < endIndex -> 0 < batchSize ->
  endIndex + batchSize <= 2 ^ 63 ->
  exists l,
    (forall fuel, (Z.to_nat (endIndex - startIndex) < fuel)%nat ->
                  Scan_ranges fuel startIndex endIndex batchSize = Some l)
    /\ partition_contract startIndex endIndex batchSize l
    /\ Forall (fun r => start r <= end_ r) l.
Proof.
  intros Hs He Hlt Hb Hsum.
  destruct (Scan_ranges_tiles (S (Z.to_nat (endIndex - startIndex)))
              startIndex endIndex batchSize Hs He Hb Hsum) as (l & Hl & Ht); [lia|].
  exists l. split; [|split].
  - intros fuel Hfuel. eapply Scan_ranges_mono; [|exact Hl]. lia.
  - assert (Hne : exists r0, head l = Some r0).
    { inversion Ht; subst; [lia | cbn; eauto]. }
    destruct Hne as [r0 Hr0].
    split; [|split; [|split; [|split]]].
    + exists r0. split; [exact Hr0 | eapply tiles_head; eassumption].
    + eapply tiles_adjacent; eassumption.
    + destruct (last l) as [rk|] eqn:Hk.
      * exists rk. split; [reflexivity | eapply tiles_last; eassumption].
      * apply last_None in Hk. subst l. discriminate.
    + eapply Forall_impl; [eapply tiles_Forall; eassumption|]. cbn. intros r; lia.
    + eapply tiles_indices; [eassumption | lia].
  - eapply Forall_impl; [eapply tiles_Forall; eassumption|]. cbn. intros r; lia.
Qed.

(** ** [TreeSize] *)

(** C8 (as amended): when [GetSTH] succeeds with a tree size below 2^63,
    [TreeSize] returns the tree size it reported, unchanged, and a nil
    error; a tree size from 2^63 on, which the unsigned field of the
    library can hold, comes back lowered by 2^64, a negative number, with
    a nil error all the same; when [GetSTH] fails, [TreeSize] returns
    that very error.  In every case the client has been called exactly
    once. *)
Theorem TreeSize_propagates (GetSTH : Client -> Client * result SignedTreeHead) (s : Scanner) :
  (forall c sth,
      GetSTH (logClient s) = (c, Ok sth) -> in_int64 (STH_TreeSize sth) ->
      TreeSize GetSTH s = (with_logClient s c, (STH_TreeSize sth, None)))
  /\ (forall c sth,
         GetSTH (logClient s) = (c, Ok sth) ->
         2 ^ 63 <= STH_TreeSize sth < 2 ^ 64 ->
         TreeSize GetSTH s
         = (with_logClient s c, (STH_TreeSize sth - 2 ^ 64, None)))
  /\ (forall c err,
         GetSTH (logClient s) = (c, Err err) ->
         TreeSize GetSTH s = (with_logClient s c, (0, Some err))).
Proof.
  unfold TreeSize. split; [|split].
  - intros c sth -> Hsize. now rewrite wrap64_id.
  - intros c sth -> Hsize. do 2 f_equal. f_equal.
    clear GetEntries elapsed. unfold wrap64. Z.div_mod_to_equations. lia.
  - now intros c err ->.
Qed.

(** ** The fetch loop on one range *)

Lemma advance_start (r : fetchRange) :
  in_int64 (start r) -> start r < max_int64 ->
  advance r = {| start := start r + 1; end_ := end_ r |}.
Proof.
  intros Hs Hlt. unfold advance. f_equal. apply wrap64_id.
  unfold in_int64, min_int64, max_int64 in *. lia.
Qed.

Lemma pushEntries_spec (l : list LogEntry) (r : fetchRange) :
  in_int64 (start r) -> start r + Z.of_nat (length l) <= max_int64 ->
  map Index (fst (pushEntries r l)) = seqZ (start r) (Z.of_nat (length l))
  /\ map Leaf (fst (pushEntries r l)) = map Leaf l
  /\ snd (pushEntries r l)
     = {| start := start r + Z.of_nat (length l); end_ := end_ r |}.
Proof.
  revert r. induction l as [|e l IH]; intros r Hs Hlen.
  - cbn. split; [reflexivity|]. split; [reflexivity|].
    destruct r; cbn; f_equal; lia.
  - cbn [pushEntries length] in *.
    rewrite advance_start
      by (trivial; unfold in_int64, min_int64, max_int64 in *; lia).
    destruct (IH {| start := start r + 1; end_ := end_ r |}) as (Hi & Hl & Hr).
    { unfold in_int64, min_int64, max_int64 in *. cbn. lia. }
    { cbn. lia. }
    destruct (pushEntries _ l) as [out r'].
    cbn [fst snd map start end_ reindex Index Leaf] in *.
    split; [|split].
    + rewrite seqZ_cons by lia. f_equal. rewrite Hi. f_equal; lia.
    + now rewrite Hl.
    + rewrite Hr. f_equal; lia.
Qed.

Lemma pushEntries_length (l : list LogEntry) (r : fetchRange) :
  length (fst (pushEntries r l)) = length l.
Proof.
  revert r. induction l as [|e l IH]; intros r; [reflexivity|].
  cbn [pushEntries]. specialize (IH (advance r)).
  destruct (pushEntries _ l). cbn in *. now rewrite IH.
Qed.

Lemma fetchLoop_sound (responses : list (result (list LogEntry))) (r : fetchRange) :
  in_int64 (start r) -> start r <= end_ r -> end_ r < max_int64 ->
  honours r responses ->
  let f := fetchLoop r responses in
  let n := Z.of_nat (length (sent f)) in
  map Index (sent f) = seqZ (start r) n
  /\ map Leaf (sent f) = map Leaf (take (length (sent f)) (delivered responses))
  /\ (pending f = None -> n = end_ r - start r + 1)
  /\ (forall r', pending f = Some r' ->
                 r' = {| start := start r + n; end_ := end_ r |}
                 /\ start r' <= end_ r')
  /\ Forall (fun q => start r <= fst q <= end_ r /\ snd q = end_ r) (requests f)
  /\ (Z.of_nat (length (delivered responses)) >= end_ r - start r + 1 ->
      pending f = None).
Proof.
  revert r. induction responses as [|res rest IH]; intros r Hs Hle Hmax Hh.
  - cbn. split; [reflexivity|]. split; [reflexivity|].
    split; [discriminate|]. split; [|split; [constructor | lia]].
    intros r' [= <-]. split; [destruct r; cbn; f_equal; lia | exact Hle].
  - destruct res as [l|err]; cbn [fetchLoop honours delivered] in *.
    + destruct Hh as [Hlen Hh].
      destruct (pushEntries_spec l r) as (Hi & Hl & Hr); [trivial | lia |].
      pose proof (pushEntries_length l r) as Hlen'.
      destruct (pushEntries r l) as [out r'].
      cbn [fst snd] in *. subst r'. cbn [start end_].
      destruct (Z.gtb_spec (start r + Z.of_nat (length l)) (end_ r)) as [Hgt|Hngt].
      * cbn [sent pending requests]. rewrite Hlen'.
        rewrite take_app_length.
        split; [exact Hi|]. split; [exact Hl|]. split; [lia|].
        split; [discriminate|]. split; [|reflexivity].
        repeat constructor; cbn; lia.
      * destruct (IH {| start := start r + Z.of_nat (length l); end_ := end_ r |})
          as (Hi' & Hl' & Hp' & Hq' & Hr' & Hd').
        { unfold in_int64, min_int64, max_int64 in *. cbn. lia. }
        { cbn. lia. }
        { exact Hmax. }
        { exact Hh. }
        cbv zeta in *. cbn [sent pending requests start end_] in *.
        rewrite !length_app, Hlen', !map_app, Hi, Hl, Hi', Hl'.
        rewrite Nat2Z.inj_add.
        split; [|split; [|split; [|split; [|split]]]].
        -- rewrite (seqZ_app (start r)) by lia. reflexivity.
        -- rewrite take_app_add', map_app by reflexivity. reflexivity.
        -- intros Hp. specialize (Hp' Hp). lia.
        -- intros r' Hp. destruct (Hq' r' Hp) as [-> Hle']. cbn in *.
           split; [f_equal; lia | lia].
        -- constructor; [cbn; lia|].
           eapply Forall_impl; [exact Hr'|]. cbn. intros q; lia.
        -- intros Hd. apply Hd'. lia.
    + destruct (IH r Hs Hle Hmax Hh) as (Hi' & Hl' & Hp' & Hq' & Hr' & Hd').
      cbv zeta in *. cbn [sent pending requests].
      split; [exact Hi'|]. split; [exact Hl'|]. split; [exact Hp'|].
      split; [exact Hq'|]. split; [|exact Hd'].
      constructor; [cbn; lia | exact Hr'].
Qed.

(** C2 (as amended): for every range whose end lies below the largest
    [int64], and every run of the client that never returns more entries
    than requested, the worker sends the entries it was handed stamped
    with the indices [start], [start + 1], ... of the range (whatever
    index the client gave them), in ascending order; once the loop is over
    it has sent exactly one entry for each index of [[start, end]]; while
    it is not, the next request is for the narrowed range
    [[start + sent, end]]; a successful call of fewer entries than remain
    makes the worker advance [start] past them and ask again for the rest,
    a failed call makes it ask again for the same range; and the loop is
    over as soon as the client has handed over as many entries as the
    range holds. *)
Theorem fetcherJob_serves_range (r : fetchRange) (responses : list (result (list LogEntry))) :
  in_int64 (start r) -> start r <= end_ r -> end_ r < max_int64 ->
  honours r responses ->
  let f := fetchLoop r responses in
  let n := Z.of_nat (length (sent f)) in
  map Index (sent f) = seqZ (start r) n
  /\ map Leaf (sent f) = map Leaf (take (length (sent f)) (delivered responses))
  /\ (pending f = None -> map Index (sent f) = indices r)
  /\ (forall r', pending f = Some r' ->
                 r' = {| start := start r + n; end_ := end_ r |}
                 /\ start r' <= end_ r')
  /\ (forall l rest,
         responses = Ok l :: rest ->
         Z.of_nat (length l) < end_ r - start r + 1 ->
         let f' := fetchLoop {| start := start r + Z.of_nat (length l);
                                end_ := end_ r |} rest in
         requests f = (start r, end_ r) :: requests f'
         /\ sent f = fst (pushEntries r l) ++ sent f'
         /\ pending f = pending f')
  /\ (forall err rest,
         responses = Err err :: rest ->
         let f' := fetchLoop r rest in
         requests f = (start r, end_ r) :: requests f'
         /\ sent f = sent f' /\ pending f = pending f')
  /\ (Z.of_nat (length (delivered responses)) >= end_ r - start r + 1 ->
      pending f = None).
Proof.
  intros Hs Hle Hmax Hh.
  destruct (fetchLoop_sound responses r Hs Hle Hmax Hh)
    as (Hi & Hl & Hp & Hq & _ & Hd).
  cbv zeta in *.
  split; [exact Hi|]. split; [exact Hl|].
  split; [intros Hn; rewrite Hi, (Hp Hn); reflexivity|].
  split; [exact Hq|]. split; [|split; [|exact Hd]].
  - intros l rest -> Hlt. cbn [fetchLoop].
    destruct (pushEntries_spec l r) as (_ & _ & Hr); [trivial | lia |].
    destruct (pushEntries r l) as [out r']. cbn [fst snd] in *. subst r'.
    cbn [start end_].
    destruct (Z.gtb_spec (start r + Z.of_nat (length l)) (end_ r)); [lia|].
    cbn. auto.
  - intros err rest ->. cbn. auto.
Qed.

(** ** Further properties of [min], [max], [humanTime] and the
    partitioning loop *)

(** [min] returns the smaller and [max] the larger of its arguments, on
    all integers and whichever comes first: they are the minimum and the
    maximum of the integers, and between them they return both
    arguments. *)
Lemma min_max_spec (a b : Z) :
  min a b = Z.min a b /\ max a b = Z.max a b
  /\ min a b + max a b = a + b.
Proof.
  pure. unfold min, max.
  destruct (Z.ltb_spec a b), (Z.gtb_spec a b); lia.
Qed.

Lemma append_eq_nil (s1 s2 : string) : s1 +:+ s2 = "" -> s1 = "" /\ s2 = "".
Proof.
  pure. destruct s1 as [|c s1]; [auto|].
  change (String c s1 +:+ s2) with (String c (s1 +:+ s2)). discriminate.
Qed.

Lemma quot_rem_nonpos (a b : Z) :
  a <= 0 -> 0 < b -> Z.quot a b <= 0 /\ Z.rem a b <= 0.
Proof.
  pure. intros Ha Hb. split; [|apply Z.rem_nonpos; lia].
  replace a with (- - a) by lia. rewrite Z.quot_opp_l by lia.
  pose proof (Z.quot_pos (- a) b ltac:(lia) Hb). lia.
Qed.

(** Within the range in which the nanoseconds fit an [int64], for negative
    arguments too, [humanTime] returns the empty string exactly when no
    second is left to report. *)
Lemma humanTime_empty_iff (seconds : Z) :
  - humanTime_limit <= seconds <= humanTime_limit ->
  humanTime seconds = "" <-> seconds <= 0.
Proof.
  pure. intros Hs. unfold humanTime_limit in Hs.
  destruct (Z.le_gt_cases seconds 0) as [Hneg|Hpos].
  - split; [trivial|]. intros _. unfold humanTime.
    rewrite wrap64_id
      by (unfold in_int64, min_int64, max_int64, Duration.Second; lia).
    unfold Duration.Hour, Duration.Minute, Duration.Second.
    destruct (quot_rem_nonpos (seconds * 1000000000) (60 * (60 * 1000000000)))
      as [Q1 R1]; [lia | lia |].
    destruct (quot_rem_nonpos (Z.rem (seconds * 1000000000)
                                 (60 * (60 * 1000000000))) (60 * 1000000000))
      as [Q2 R2]; [exact R1 | lia |].
    destruct (quot_rem_nonpos (Z.rem (Z.rem (seconds * 1000000000)
                                        (60 * (60 * 1000000000)))
                                 (60 * 1000000000)) 1000000000)
      as [Q3 _]; [exact R2 | lia |].
    repeat match goal with
           | |- context [?a >? 0] =>
               destruct (Z.gtb_spec a 0); [exfalso; lia|]
           end.
    reflexivity.
  - split; [|lia]. intros Hempty. exfalso.
    destruct (humanTime_units seconds) as (Hh & Hm & Hsec);
      [unfold humanTime_limit; lia|].
    unfold humanTime in Hempty. cbv zeta in Hempty.
    rewrite Hh, Hm, Hsec in Hempty.
    assert (Hsome : 0 < seconds / 3600 \/ 0 < seconds mod 3600 / 60
                    \/ 0 < seconds mod 60)
      by (Z.div_mod_to_equations; lia).
    repeat match type of Hempty with
           | context [?a >? 0] => destruct (Z.gtb_spec a 0)
           end;
      repeat match type of Hempty with
             | _ +:+ _ = "" =>
                 apply append_eq_nil in Hempty; destruct Hempty as [? Hempty]
             end;
      try discriminate; lia.
Qed.

Lemma batches_nil (s e b : Z) : 0 < b -> e <= s -> batches s e b = [].
Proof.
  pure. intros Hb Hle. unfold batches, batch_count.
  rewrite seqZ_nil; [reflexivity|]. Z.div_mod_to_equations. nia.
Qed.

Lemma batches_cons (s e b : Z) :
  0 < b -> s < e ->
  batches s e b
  = {| start := s; end_ := Z.min (s + b) e - 1 |} :: batches (Z.min (s + b) e) e b.
Proof.
  pure. intros Hb Hlt. unfold batches at 1.
  assert (Hn : 0 < batch_count s e b)
    by (unfold batch_count; Z.div_mod_to_equations; nia).
  rewrite seqZ_cons by exact Hn. cbn [map]. f_equal.
  - unfold batch. f_equal; [lia | do 2 f_equal; lia].
  - destruct (Z.le_gt_cases e (s + b)) as [Hlast|Hmore].
    + rewrite Z.min_r by lia. rewrite batches_nil by lia.
      rewrite seqZ_nil; [reflexivity|].
      unfold batch_count. Z.div_mod_to_equations. nia.
    + rewrite Z.min_l by lia. unfold batches.
      replace (Z.pred (batch_count s e b)) with (batch_count (s + b) e b)
        by (unfold batch_count; Z.div_mod_to_equations; nia).
      change (Z.succ 0) with (1 + 0). rewrite <- fmap_add_seqZ.
      rewrite <- list_fmap_compose. apply list_fmap_ext.
      intros _ k _. unfold batch. cbn. f_equal; [lia | do 2 f_equal; lia].
Qed.

Lemma Scan_ranges_batches (fuel : nat) (s endIndex batchSize : Z) :
  in_int64 s -> in_int64 endIndex -> 0 < batchSize ->
  endIndex + batchSize <= 2 ^ 63 ->
  (Z.to_nat (endIndex - s) < fuel)%nat ->
  Scan_ranges fuel s endIndex batchSize = Some (batches s endIndex batchSize).
Proof.
  pure. intros Hs He Hb Hsum. revert s Hs.
  induction fuel as [|fuel IH]; intros s Hs Hfuel; [lia|].
  cbn [Scan_ranges]. destruct (Z.ltb_spec s endIndex) as [Hlt|Hge].
  - destruct (Scan_ranges_turn s endIndex batchSize Hs He Hb Hsum Hlt) as [He' Hnext].
    cbv zeta in He', Hnext. rewrite Hnext, He'.
    replace (Z.min (s + batchSize) endIndex - 1 + 1)
      with (Z.min (s + batchSize) endIndex) by lia.
    rewrite IH.
    + now rewrite (batches_cons s endIndex batchSize).
    + unfold in_int64, min_int64, max_int64 in *. lia.
    + lia.
  - now rewrite batches_nil.
Qed.

(** The partition in closed form: when nothing overflows, the loop yields
    exactly the ranges number 0, 1, ... up to the count
    (endIndex - startIndex) / batchSize rounded up, the [k]-th running
    from [startIndex + k * batchSize] to the index before
    [startIndex + (k + 1) * batchSize] or before [endIndex], whichever
    comes first; every range but the last holds exactly [batchSize]
    indices. *)
Lemma Scan_ranges_closed_form (startIndex endIndex batchSize : Z) :
  in_int64 startIndex -> in_int64 endIndex ->
  0 < batchSize -> endIndex + batchSize <= 2 ^ 63 ->
  exists l,
    (forall fuel, (Z.to_nat (endIndex - startIndex) < fuel)%nat ->
                  Scan_ranges fuel startIndex endIndex batchSize = Some l)
    /\ Z.of_nat (length l)
       = Z.max 0 ((endIndex - startIndex + batchSize - 1) / batchSize)
    /\ (forall k r, l !! k = Some r ->
          start r = startIndex + Z.of_nat k * batchSize
          /\ end_ r = Z.min (startIndex + (Z.of_nat k + 1) * batchSize) endIndex - 1)
    /\ (forall k r, l !! k = Some r -> (S k < length l)%nat ->
          end_ r - start r + 1 = batchSize).
Proof.
  pure. intros Hs He Hb Hsum. exists (batches startIndex endIndex batchSize).
  assert (Hlen : Z.of_nat (length (batches startIndex endIndex batchSize))
                 = Z.max 0 (batch_count startIndex endIndex batchSize)).
  { unfold batches. rewrite length_map, length_seqZ. lia. }
  assert (Hk : forall k r, batches startIndex endIndex batchSize !! k = Some r ->
                 r = batch startIndex endIndex batchSize (Z.of_nat k)
                 /\ Z.of_nat k < batch_count startIndex endIndex batchSize).
  { intros k r Hl. unfold batches in Hl. rewrite list_lookup_fmap in Hl.
    destruct (seqZ 0 _ !! k) as [j|] eqn:Hj; [|discriminate].
    apply lookup_seqZ in Hj. destruct Hj as [-> Hj]. injection Hl as <-.
    split; [f_equal; lia | lia]. }
  split; [|split; [|split]].
  - intros fuel Hfuel. now apply Scan_ranges_batches.
  - exact Hlen.
  - intros k r Hl. destruct (Hk k r Hl) as [-> _]. cbn. auto.
  - intros k r Hl Hnext. destruct (Hk k r Hl) as [-> Hlt]. cbn.
    assert (Z.of_nat k + 1 < batch_count startIndex endIndex batchSize) by lia.
    unfold batch_count in *. Z.div_mod_to_equations. nia.
Qed.

(** ** The fetch loop: edge behaviour *)

(** A successful answer that carries the range to its end or past it
    finishes the range, whatever the client would have answered next: no
    further request is made, and every entry of the answer has been sent,
    stamped [start], [start + 1], ... -- also the entries beyond [end]
    when the client returned more than it was asked for, since the answer
    is not cut down to the range. *)
Lemma fetchLoop_finishes_range (r : fetchRange) (l : list LogEntry) (rest : list (result (list LogEntry))) :
  in_int64 (start r) -> start r + Z.of_nat (length l) <= max_int64 ->
  end_ r < start r + Z.of_nat (length l) ->
  let f := fetchLoop r (Ok l :: rest) in
  requests f = [(start r, end_ r)]
  /\ pending f = None
  /\ length (sent f) = length l
  /\ map Index (sent f) = seqZ (start r) (Z.of_nat (length l))
  /\ map Leaf (sent f) = map Leaf l.
Proof.
  intros Hs Hmax Hend. cbv zeta. cbn [fetchLoop].
  destruct (pushEntries_spec l r Hs Hmax) as (Hi & Hl & Hr).
  pose proof (pushEntries_length l r) as Hlen.
  destruct (pushEntries r l) as [out r']. cbn [fst snd] in *. subst r'.
  cbn [start end_].
  destruct (Z.gtb_spec (start r + Z.of_nat (length l)) (end_ r)); [|lia].
  cbn. auto.
Qed.

(** While the client fails or answers with no entry at all, the worker
    on a range that is not empty sends nothing and asks again for the very
    same range, as many times as the client is willing to answer. *)
Lemma fetchLoop_fruitless (r : fetchRange) (responses : list (result (list LogEntry))) :
  start r <= end_ r -> Forall fruitless responses ->
  fetchLoop r responses
  = {| requests := replicate (length responses) (start r, end_ r);
       sent := []; pending := Some r |}.
Proof.
  intros Hle Hall. induction Hall as [|res rest Hres _ IH]; [reflexivity|].
  destruct res as [l|err]; cbn [fruitless] in Hres.
  - subst l. cbn [fetchLoop pushEntries length replicate].
    destruct (Z.gtb_spec (start r) (end_ r)); [lia|]. now rewrite IH.
  - cbn [fetchLoop length replicate]. now rewrite IH.
Qed.

(** The loop keeps nothing from one call to the next but the narrowed
    range: after the answers [first], it goes on from the pending range as
    a fresh loop would; and once the range is finished, no later answer is
    asked for. *)
Lemma fetchLoop_app (r : fetchRange) (first later : list (result (list LogEntry))) :
  fetchLoop r (first ++ later)
  = match pending (fetchLoop r first) with
    | Some r' =>
        {| requests := requests (fetchLoop r first) ++ requests (fetchLoop r' later);
           sent := sent (fetchLoop r first) ++ sent (fetchLoop r' later);
           pending := pending (fetchLoop r' later) |}
    | None => fetchLoop r first
    end.
Proof.
  revert r. induction first as [|res first IH]; intros r.
  - cbn. now destruct (fetchLoop r later).
  - destruct res as [l|err]; cbn [app fetchLoop].
    + destruct (pushEntries r l) as [out r'].
      destruct (start r' >? end_ r'); [reflexivity|].
      rewrite IH. cbn [pending requests sent].
      destruct (pending (fetchLoop r' first)) eqn:Hp;
        cbn [pending requests sent]; rewrite ?Hp; [|reflexivity].
      now rewrite app_assoc.
    + rewrite IH. cbn [pending requests sent].
      destruct (pending (fetchLoop r first)) eqn:Hp;
        cbn [pending requests sent]; rewrite ?Hp; reflexivity.
Qed.

(** ** The pipeline: channels and sums *)

Lemma recv_Received {A : Type} (c c' : chan A) (x : A) :
  recv c = Received x c' ->
  buf c = x :: buf c' /\ cap c' = cap c /\ closed c' = closed c.
Proof.
  unfold recv. destruct (buf c) as [|y b] eqn:E.
  - destruct (closed c); discriminate.
  - intros [= -> <-]. cbn. auto.
Qed.

Lemma recv_RecvClosed {A : Type} (c : chan A) :
  recv c = RecvClosed -> buf c = [] /\ closed c = true.
Proof.
  unfold recv. destruct (buf c); [|discriminate].
  destruct (closed c); [auto | discriminate].
Qed.

Lemma recv_RecvBlocks {A : Type} (c : chan A) :
  recv c = RecvBlocks -> buf c = [] /\ closed c = false.
Proof.
  unfold recv. destruct (buf c); [|discriminate].
  destruct (closed c); [discriminate | auto].
Qed.

Lemma send_Sent {A : Type} (c c' : chan A) (x : A) :
  send c x = Sent c' ->
  closed c = false /\ buf c' = buf c ++ [x] /\ cap c' = cap c
  /\ closed c' = false /\ Z.of_nat (length (buf c)) < cap c.
Proof.
  unfold send. destruct (closed c) eqn:Ec; [discriminate|].
  destruct (Z.ltb_spec (Z.of_nat (length (buf c))) (cap c)); [|discriminate].
  intros [= <-]. cbn. auto.
Qed.

Lemma send_SendBlocks {A : Type} (c : chan A) (x : A) :
  send c x = SendBlocks ->
  closed c = false /\ cap c <= Z.of_nat (length (buf c)).
Proof.
  unfold send. destruct (closed c) eqn:Ec; [discriminate|].
  destruct (Z.ltb_spec (Z.of_nat (length (buf c))) (cap c)); [discriminate|].
  auto.
Qed.

Lemma send_SendPanics {A : Type} (c : chan A) (x : A) :
  send c x = SendPanics -> closed c = true.
Proof.
  unfold send. destruct (closed c) eqn:Ec; [trivial|].
  destruct (Z.of_nat (length (buf c)) <? cap c); discriminate.
Qed.

Lemma close_Some {A : Type} (c c' : chan A) :
  close c = Some c' ->
  closed c = false /\ buf c' = buf c /\ cap c' = cap c /\ closed c' = true.
Proof.
  unfold close. destruct (closed c); [discriminate|].
  intros [= <-]. cbn. auto.
Qed.

Lemma close_None {A : Type} (c : chan A) :
  close c = None -> closed c = true.
Proof. unfold close. destruct (closed c); [trivial | discriminate]. Qed.

Lemma sum_list_with_insert {A : Type} (f : A -> nat) (l : list A) (i : nat) (x y : A) :
  l !! i = Some x ->
  (sum_list_with f (<[i := y]> l) + f x = sum_list_with f l + f y)%nat.
Proof.
  revert i. induction l as [|a l IH]; intros [|i] Hi; try discriminate.
  - injection Hi as ->. simpl. lia.
  - simpl in *. specialize (IH i Hi). lia.
Qed.

Lemma sum_list_with_lookup {A : Type} (f : A -> nat) (l : list A) (i : nat) (x : A) :
  l !! i = Some x -> (f x <= sum_list_with f l)%nat.
Proof.
  revert i. induction l as [|a l IH]; intros [|i] Hi; try discriminate.
  - injection Hi as ->. simpl. lia.
  - simpl in *. specialize (IH i Hi). lia.
Qed.

Lemma sum_list_with_zero {A : Type} (f : A -> nat) (l : list A) (i : nat) (x : A) :
  sum_list_with f l = 0%nat -> l !! i = Some x -> f x = 0%nat.
Proof. intros H0 Hi. pose proof (sum_list_with_lookup f l i x Hi). lia. Qed.

Lemma wrap64_succ (z : Z) : wrap64 (wrap64 z + 1) = wrap64 (z + 1).
Proof.
  unfold wrap64.
  replace ((z + 2 ^ 63) mod 2 ^ 64 - 2 ^ 63 + 1 + 2 ^ 63)
    with ((z + 2 ^ 63) mod 2 ^ 64 + 1) by lia.
  replace (z + 1 + 2 ^ 63) with ((z + 2 ^ 63) + 1) by lia.
  now rewrite Zplus_mod_idemp_l.
Qed.

(** ** The pipeline: one step *)

(** What an operation on a channel with a known outcome says of the
    channel before and after. *)
Ltac chan_facts :=
  repeat match goal with
    | E : recv _ = Received _ _ |- _ =>
        apply recv_Received in E; destruct E as (? & ? & ?)
    | E : recv _ = RecvClosed |- _ =>
        apply recv_RecvClosed in E; destruct E as (? & ?)
    | E : recv _ = RecvBlocks |- _ =>
        apply recv_RecvBlocks in E; destruct E as (? & ?)
    | E : send _ _ = Sent _ |- _ =>
        apply send_Sent in E; destruct E as (? & ? & ? & ? & ?)
    | E : send _ _ = SendBlocks |- _ =>
        apply send_SendBlocks in E; destruct E as (? & ?)
    | E : send _ _ = SendPanics |- _ => apply send_SendPanics in E
    | E : close _ = Some _ |- _ =>
        apply close_Some in E; destruct E as (? & ? & ? & ?)
    | E : close _ = None |- _ => apply close_None in E
    end.

(** Case analysis on [H : step t st = Some st']: one goal for every
    statement a goroutine can execute. *)
Ltac step_cases H :=
  unfold step in H;
  lazymatch type of H with
  | (if panicked ?st then _ else match ?t with _ => _ end) = _ =>
      let Hal := fresh "Halive" in
      destruct (panicked st) eqn:Hal; [discriminate|];
      destruct t as [|id|id];
      [ unfold Scan_step in H;
        let Hm := fresh "Hmain" in
        destruct (main st) as [w ranges|w ranges|[|r rest]| | | | |err] eqn:Hm
      | let Hpc := fresh "Hpc" in
        destruct (fetcherJobs st !! id) as [[|r|r [|logEntry rest]| |]|] eqn:Hpc;
        [..|discriminate]; unfold fetcherJob in H
      | let Hpc := fresh "Hpc" in
        destruct (processerJobs st !! id) as [[|entry|entry| |]|] eqn:Hpc;
        [..|discriminate]; unfold processerJob in H ];
      unfold fetcherWG_Done, processorWG_Done in H;
      cbv zeta in H;
      repeat match type of H with
        | context [match ?x with _ => _ end] => destruct x eqn:?
        end;
      try discriminate;
      injection H as H; symmetry in H; subst
  end.

Lemma step_alive (t : tid) (st st' : state) :
  step t st = Some st' -> panicked st = false.
Proof. unfold step. destruct (panicked st); [discriminate | trivial]. Qed.

(** Projections of an updated state. *)
Ltac simpl_state :=
  cbn [scanner fetches jobs fetcherWG processorWG main fetcherJobs
       processerJobs printed handled panicked set_scanner set_fetches
       set_jobs set_fetcherWG set_processorWG set_main set_fetcherJobs
       set_processerJobs print call_processCert panic set_fetcher
       set_processer with_logClient with_certsProcessed LogUri logClient
       opts certsProcessed fetches_closed_at fetchers_gone_at jobs_closed_at
       processers_gone_at] in *.

(** Sums over a pool in which the goroutine [i] has moved from [x] to [y],
    or to which a goroutine has been added. *)
Ltac sum_facts :=
  repeat match goal with
    | Hpc : ?l !! ?i = Some ?x |- context [sum_list_with ?f (<[?i := ?y]> ?l)] =>
        lazymatch goal with
        | _ : (sum_list_with f (<[i := y]> l) + f x = _)%nat |- _ => fail
        | _ => pose proof (sum_list_with_insert f l i x y Hpc)
        end
    end;
  repeat match goal with
    | Hpc : ?l !! ?i = Some ?x, H : context [sum_list_with ?f ?l] |- _ =>
        lazymatch goal with
        | _ : (f x <= sum_list_with f l)%nat |- _ => fail
        | _ => pose proof (sum_list_with_lookup f l i x Hpc)
        end
    end;
  rewrite ?sum_list_with_app, ?length_insert, ?length_app in *;
  cbn [fetcher_live processer_live processer_counted sum_list_with length] in *.

(** A goroutine found in a pool after a step is the one that moved, the one
    that was started, or one that was there before. *)
Ltac lookup_cases H :=
  first
    [ apply list_lookup_insert_Some in H;
      destruct H as [(<- & <- & ?)|(? & H)]
    | apply lookup_snoc_Some in H;
      destruct H as [(? & H)|(? & <-)] ].

(** The synchronisation invariant is kept by every step. *)
Lemma sync_inv_step (s : Scanner) (t : tid) (st st' : state) :
  sync_inv s st -> step t st = Some st' -> sync_inv s st'.
Proof.
  intros I Hstep. step_cases Hstep; chan_facts.
  all: destruct I as [Hal Hop Huri Hfc Hjc Hfwg Hpwg Hfcl Hjcl Hfg Hpg Hret
                        Hpools Hfo Hpo Hcnt].
  all: unfold pools_inv in *.
  all: try rewrite Hmain in *.
  all: simpl_state.
  all: destruct_and?.
  all: try congruence.
  all: try (pose proof (sum_list_with_lookup fetcher_live _ _ _ Hpc) as Hlive;
            cbn [fetcher_live] in Hlive).
  all: try (pose proof (sum_list_with_lookup processer_live _ _ _ Hpc) as Hlive;
            cbn [processer_live] in Hlive).
  all: try match goal with
         | E : (_ <=? 0) = true |- _ => apply Z.leb_le in E; exfalso; lia
         | E : (_ <=? 0) = false |- _ => apply Z.leb_gt in E
         end.
  all: constructor; unfold pools_inv; simpl_state;
      try rewrite Hmain;
      first [ assumption | congruence | (sum_facts; lia)
            | (intros; sum_facts; lia)
            | (rewrite ?length_insert; assumption)
            | (sum_facts; rewrite ?Hcnt, ?wrap64_succ; f_equal; lia)
            | (intros ? ? Hl Hov; try lookup_cases Hl;
               try (unfold fetcher_over, processer_over in Hov;
                    destruct Hov; discriminate);
               try (destruct (Hfo _ _ Hl Hov) as [? ?]);
               try (destruct (Hpo _ _ Hl Hov) as [? ?]);
               try (destruct (Hfo _ _ Hpc (or_introl eq_refl)) as [? ?]);
               try (destruct (Hpo _ _ Hpc (or_introl eq_refl)) as [? ?]);
               split; congruence)
            | idtac ].
  - exfalso. rewrite Hjcl in *.
    assert (fetchers_gone_at (main st) = true) as Hg
        by (destruct (main st); cbn in *; congruence).
    specialize (Hfg Hg). lia.
  - intros Hg. specialize (Hfg Hg). lia.
  - intros Hg. specialize (Hpg Hg). lia.
Qed.

Lemma sync_inv_start (s : Scanner) (ranges : list fetchRange) :
  sync_inv s (Scan_start s ranges).
Proof.
  constructor; cbn; try reflexivity; try discriminate; auto.
Qed.

(** Whatever every step preserves holds of every reachable state. *)
Lemma exec_invariant (P : state -> Prop) :
  (forall t st st', P st -> step t st = Some st' -> P st') ->
  forall schedule st st', P st -> exec schedule st = Some st' -> P st'.
Proof.
  intros Hstep. induction schedule as [|t schedule IH]; intros st st' HP.
  - now intros [= <-].
  - cbn. destruct (step t st) as [st1|] eqn:E; [|discriminate].
    apply IH. eapply Hstep; eassumption.
Qed.

Lemma exec_app (schedule1 schedule2 : list tid) (st : state) :
  exec (schedule1 ++ schedule2) st
  = match exec schedule1 st with
    | Some st1 => exec schedule2 st1
    | None => None
    end.
Proof.
  revert st. induction schedule1 as [|t schedule1 IH]; intros st; [reflexivity|].
  cbn. destruct (step t st); [apply IH | reflexivity].
Qed.

Lemma reachable_sync_inv (s : Scanner) (ranges : list fetchRange) (st : state) :
  reachable (Scan_start s ranges) st -> sync_inv s st.
Proof.
  intros [schedule Hex].
  eapply (exec_invariant (sync_inv s)); [|apply sync_inv_start|exact Hex].
  intros t st1 st2. apply sync_inv_step.
Qed.

(** ** The pipeline: where the indices are *)

Lemma width_pos (r : fetchRange) : (start r >? end_ r) = false -> (0 < width r)%nat.
Proof. unfold width. destruct (Z.gtb_spec (start r) (end_ r)); [discriminate|]. lia. Qed.

Lemma width_zero (r : fetchRange) : (start r >? end_ r) = true -> width r = 0%nat.
Proof. unfold width. destruct (Z.gtb_spec (start r) (end_ r)); [|discriminate]. lia. Qed.

Lemma advance_ok (r : fetchRange) :
  range_ok r -> (0 < width r)%nat ->
  range_ok (advance r) /\ width r = S (width (advance r))
  /\ forall q, span q r = (hit q (start r) + span q (advance r))%nat.
Proof.
  unfold range_ok, width. intros [Hs He] Hw.
  rewrite advance_start
    by (unfold in_int64, min_int64, max_int64 in *; lia).
  cbn [start end_]. split; [lia|]. split; [lia|].
  intros [j|]; cbn [span hit start end_]; [|unfold width; cbn; lia].
  destruct (Z.eqb_spec (start r) j), (Z.leb_spec (start r) j),
    (Z.leb_spec j (end_ r)), (Z.leb_spec (start r + 1) j); cbn; lia.
Qed.

Lemma span_empty (q : option Z) (r : fetchRange) : width r = 0%nat -> span q r = 0%nat.
Proof.
  unfold width. intros Hw. destruct q as [j|]; cbn; [|exact Hw].
  destruct (Z.leb_spec (start r) j), (Z.leb_spec j (end_ r)); cbn; lia.
Qed.

(** Sums of owed and held indices. *)
Ltac data_simpl :=
  rewrite ?sum_list_with_app in *;
  cbn [fetcher_owes processer_holds unfed sum_list_with reindex Index Leaf
       fetcher_ok length] in *.

(** The buffers after the step in terms of the buffers before. *)
Ltac buf_rewrite :=
  repeat match goal with
    | H : buf _ = _ |- _ => rewrite H in *
    end.

(** So is the data invariant, as long as the client honours its contract. *)
Lemma data_inv_step (rs : list fetchRange) (t : tid) (st st' : state) :
  honours_contract ->
  data_inv rs st -> step t st = Some st' -> data_inv rs st'.
Proof.
  intros Hcontract [Hfs Hfb Hun Hcons] Hstep.
  step_cases Hstep; chan_facts.
  all: try (pose proof (Forall_lookup_1 _ _ _ _ Hfs Hpc) as Hok;
            cbn [fetcher_ok] in Hok).
  all: try rewrite Hmain in *.
  all: try match goal with
         | Hok : range_ok ?r /\ (length (_ :: _) <= width ?r)%nat |- _ =>
             destruct Hok as [Hok Hlen]; cbn [length] in Hlen;
             destruct (advance_ok r Hok ltac:(lia)) as (Hok' & Hw' & Hspan)
         end.
  all: try match goal with
         | E : (start ?r >? end_ ?r) = true |- _ =>
             pose proof (fun q => span_empty q r (width_zero r E)) as Hspan
         end.
  all: constructor; simpl_state; try rewrite Hmain; cbn [unfed] in *;
      first [ assumption
            | (apply Forall_insert; [assumption | cbn [fetcher_ok]; tauto])
            | (intros q; specialize (Hcons q);
               try specialize (Hspan q);
               unfold in_flight, hits, spans in *; simpl_state;
               try rewrite Hmain in *; buf_rewrite;
               sum_facts; data_simpl; lia)
            | idtac ].
  all: buf_rewrite; rewrite ?Forall_app, ?Forall_cons, ?Forall_singleton in *;
      destruct_and?; try (split_and?; cbn [fetcher_ok]; auto; fail).
  - apply Forall_insert; [assumption | cbn [fetcher_ok]; assumption].
  - apply Forall_insert; [assumption | cbn [fetcher_ok]].
    split; [assumption|].
    match goal with
    | E : GetEntries _ _ _ = _ |- _ => apply Hcontract in E; unfold width; lia
    end.
  - apply Forall_insert; [assumption | cbn [fetcher_ok]].
    split; [assumption | lia].
Qed.

Lemma data_inv_start (s : Scanner) (rs : list fetchRange) :
  Forall range_ok rs -> data_inv rs (Scan_start s rs).
Proof.
  intros Hrs. constructor; cbn; auto.
Qed.

(** ** The pipeline: a scan over no range *)

Lemma idle_inv_step (t : tid) (st st' : state) :
  idle_inv st -> step t st = Some st' -> idle_inv st'.
Proof.
  intros [Hun Hfb Hjb Hfs Hps Hh Hc] Hstep.
  step_cases Hstep; chan_facts.
  all: try (pose proof (Forall_lookup_1 _ _ _ _ Hfs Hpc) as Hok).
  all: try (pose proof (Forall_lookup_1 _ _ _ _ Hps Hpc) as Hok).
  all: try (unfold fetcher_over, processer_over in Hok;
            destruct Hok as [Hok|[Hok|Hok]]; discriminate).
  all: try rewrite Hmain in *; cbn [unfed] in *; try congruence.
  all: constructor; simpl_state; try rewrite Hmain; cbn [unfed] in *;
      try congruence;
      try (apply Forall_insert; [assumption|]);
      try (apply Forall_app; split; [assumption|repeat constructor]);
      unfold fetcher_over, processer_over; auto.
Qed.

Lemma idle_inv_start (s : Scanner) : idle_inv (Scan_start s []).
Proof. constructor; cbn; auto. Qed.

(** ** The pipeline: progress and termination *)

Lemma counters_inv_step (s : Scanner) (t : tid) (st st' : state) :
  pools_typed (opts s) ->
  sync_inv s st -> counters_inv st -> step t st = Some st' -> counters_inv st'.
Proof.
  intros [HN HF] I Hc Hstep. pose proof (sync_opts _ _ I) as Hop.
  unfold counters_inv in *.
  step_cases Hstep; simpl_state; try rewrite Hmain in *; trivial; try lia.
  all: rewrite Hop in *;
    match goal with
    | E : (_ <? _) = true |- _ => apply Z.ltb_lt in E
    end;
    rewrite wrap64_id; unfold in_int64, min_int64, max_int64 in *; lia.
Qed.

Lemma step_no_panic (s : Scanner) (t : tid) (st st' : state) :
  sync_inv s st -> step t st = Some st' -> panicked st' = false.
Proof. intros I Hstep. exact (sync_alive _ _ (sync_inv_step _ _ _ _ I Hstep)). Qed.

(** Every step shrinks the weight, unless it is a call of the client that
    fails or returns nothing for a range that is not empty. *)
Lemma weight_step (s : Scanner) (t : tid) (st st' : state) :
  pools_typed (opts s) ->
  sync_inv s st -> counters_inv st ->
  Forall fetcher_ok (fetcherJobs st) -> fetch_progresses st ->
  step t st = Some st' ->
  (weight st' < weight st)%nat.
Proof.
  intros [HN HF] I Hc Hfs Hprog Hstep. pose proof (sync_opts _ _ I) as Hop.
  pose proof (step_no_panic _ _ _ _ I Hstep) as Hnp.
  unfold counters_inv in *.
  step_cases Hstep; chan_facts; simpl_state; try discriminate.
  all: try (pose proof (Forall_lookup_1 _ _ _ _ Hfs Hpc) as Hok;
            cbn [fetcher_ok] in Hok).
  all: try (pose proof (Hprog _ _ Hpc) as (c' & l' & Hget & Hne)).
  all: unfold weight; simpl_state; try rewrite Hmain in *; buf_rewrite.
  all: sum_facts; cbn [main_weight fetcher_weight processer_weight] in *;
    rewrite ?sum_list_with_app, ?length_app in *;
    cbn [sum_list_with length fetcher_weight processer_weight] in *.
  all: try lia.
  all: try match goal with
         | E : (_ <? _) = true |- _ => apply Z.ltb_lt in E
         | E : (_ <? _) = false |- _ => apply Z.ltb_ge in E
         end.
  all: try (rewrite Hop in *; rewrite wrap64_id;
            unfold in_int64, min_int64, max_int64 in *; lia).
  - unfold range_weight. lia.
  - assert (a = l') as -> by congruence.
    destruct l' as [|e l']; destruct (width r) eqn:Hw;
      cbn [fetcher_weight] in *; rewrite ?Hw in *; try lia.
    exfalso. apply Hne; [lia | reflexivity].
  - congruence.
  - rewrite (width_zero r) in * by assumption. lia.
  - pose proof (width_pos r ltac:(assumption)).
    destruct (width r); [lia|]. lia.
  - destruct Hok as [Hok Hlen]. cbn [length] in Hlen.
    destruct (advance_ok r Hok ltac:(lia)) as (_ & Hw & _).
    rewrite Hw in *.
    destruct rest; destruct (width (advance r));
      cbn [fetcher_weight] in *; lia.
Qed.

Lemma sum_list_with_pos {A : Type} (f : A -> nat) (l : list A) :
  sum_list_with f l <> 0%nat -> exists i x, l !! i = Some x /\ f x <> 0%nat.
Proof.
  induction l as [|a l IH]; simpl; [congruence|]. intros Hs.
  destruct (Nat.eq_dec (f a) 0%nat) as [Ha|Ha].
  - destruct IH as (i & x & Hi & Hx); [lia|]. exists (S i), x. auto.
  - exists 0%nat, a. auto.
Qed.

Lemma processer_can_step (s : Scanner) (st : state) (id : nat) (pc : processer_pc) :
  sync_inv s st -> processerJobs st !! id = Some pc -> pc <> PExit ->
  buf (jobs st) <> [] \/ closed (jobs st) = true ->
  exists st', step (Processer id) st = Some st'.
Proof.
  intros I Hpc Hne Hjobs. unfold step.
  rewrite (sync_alive _ _ I), Hpc.
  destruct pc; cbn [processerJob]; eauto; [|congruence].
  unfold recv. destruct (buf (jobs st)); [|eauto].
  destruct Hjobs as [? | ->]; [congruence | eauto].
Qed.

Lemma fetcher_can_step (s : Scanner) (st : state) (id : nat) (pc : fetcher_pc) :
  sync_inv s st -> pools_suffice st ->
  fetcherJobs st !! id = Some pc -> pc <> FExit ->
  (pc = FRecv -> buf (fetches st) <> [] \/ closed (fetches st) = true) ->
  closed (jobs st) = false ->
  exists t st', step t st = Some st'.
Proof.
  intros I [_ Hsuf] Hpc Hne Hrecv Hopen.
  pose proof (sync_alive _ _ I) as Hal.
  destruct pc as [|r|r [|e l]| |]; try congruence.
  - exists (Fetcher id). unfold step. rewrite Hal, Hpc. cbn [fetcherJob].
    unfold recv. destruct (buf (fetches st)); [|eauto].
    destruct Hrecv as [? | ->]; [reflexivity | congruence | eauto].
  - exists (Fetcher id). unfold step. rewrite Hal, Hpc. cbn [fetcherJob].
    destruct (GetEntries _ _ _) as [c [l|err]]; eauto.
  - exists (Fetcher id). unfold step. rewrite Hal, Hpc. cbn [fetcherJob].
    destruct (start r >? end_ r); eauto.
  - destruct (send (jobs st) (reindex r e)) as [c| |] eqn:Hsend.
    + exists (Fetcher id). unfold step. rewrite Hal, Hpc. cbn [fetcherJob].
      rewrite Hsend. eauto.
    + apply send_SendBlocks in Hsend. destruct Hsend as [_ Hfull].
      rewrite (sync_jobs_cap _ _ I) in Hfull.
      specialize (Hsuf _ _ _ _ Hpc).
      destruct (processerJobs st) as [|pc0 ps] eqn:Hps; [cbn in Hsuf; lia|].
      assert (Hpc0 : processerJobs st !! 0%nat = Some pc0) by now rewrite Hps.
      assert (Hbuf : buf (jobs st) <> []).
      { destruct (buf (jobs st)); [cbn in Hfull; lia | congruence]. }
      destruct (processer_can_step s st 0 pc0 I Hpc0) as [st' Hst']; [|auto|eauto].
      intros ->. destruct (sync_processer_over _ _ I 0%nat PExit Hpc0); [|congruence].
      right; reflexivity.
    + apply send_SendPanics in Hsend. congruence.
  - exists (Fetcher id). unfold step. rewrite Hal, Hpc. cbn [fetcherJob]. eauto.
Qed.

(** Unless [Scan] has returned, some goroutine can take a step. *)
Lemma progress (s : Scanner) (st : state) :
  sync_inv s st -> pools_suffice st ->
  (exists err, returned st err) \/ exists t st', step t st = Some st'.
Proof.
  intros I Hsuf. pose proof (sync_alive _ _ I) as Hal.
  pose proof (sync_fetches_closed _ _ I) as Hfcl.
  pose proof (sync_jobs_closed _ _ I) as Hjcl.
  destruct (main st) as [w ranges|w ranges|[|r rest]| | | | |err] eqn:Hmain;
    cbn in Hfcl, Hjcl.
  - right. exists Main. unfold step, Scan_step. rewrite Hal, Hmain.
    destruct (w <? _); eauto.
  - right. exists Main. unfold step, Scan_step. rewrite Hal, Hmain.
    destruct (w <? _); eauto.
  - right. exists Main. unfold step, Scan_step, close. rewrite Hal, Hmain, Hfcl. eauto.
  - right. destruct (send (fetches st) r) as [c| |] eqn:Hsend.
    + exists Main. unfold step, Scan_step. rewrite Hal, Hmain, Hsend. eauto.
    + apply send_SendBlocks in Hsend. destruct Hsend as [_ Hfull].
      rewrite (sync_fetches_cap _ _ I) in Hfull.
      pose proof (proj1 Hsuf _ _ Hmain) as Hlen.
      destruct (fetcherJobs st) as [|pc0 fs] eqn:Hfs; [cbn in Hlen; lia|].
      assert (Hpc0 : fetcherJobs st !! 0%nat = Some pc0) by now rewrite Hfs.
      assert (Hbuf : buf (fetches st) <> []).
      { destruct (buf (fetches st)); [cbn in Hfull; lia | congruence]. }
      apply (fetcher_can_step s st 0 pc0 I Hsuf Hpc0); auto.
      intros ->. destruct (sync_fetcher_over _ _ I 0%nat FExit Hpc0); [|congruence].
      right; reflexivity.
    + apply send_SendPanics in Hsend. congruence.
  - right. destruct (Z.eqb_spec (fetcherWG st) 0) as [Hwg|Hwg].
    + exists Main. unfold step, Scan_step. rewrite Hal, Hmain.
      apply Z.eqb_eq in Hwg. rewrite Hwg. eauto.
    + rewrite (sync_fetcherWG _ _ I) in Hwg.
      destruct (sum_list_with_pos fetcher_live (fetcherJobs st))
        as (id & pc & Hpc & Hlive); [lia|].
      apply (fetcher_can_step s st id pc I Hsuf Hpc); auto.
      intros ->. now apply Hlive.
  - right. exists Main. unfold step, Scan_step, close. rewrite Hal, Hmain, Hjcl. eauto.
  - right. destruct (Z.eqb_spec (processorWG st) 0) as [Hwg|Hwg].
    + exists Main. unfold step, Scan_step. rewrite Hal, Hmain.
      apply Z.eqb_eq in Hwg. rewrite Hwg. eauto.
    + rewrite (sync_processorWG _ _ I) in Hwg.
      destruct (sum_list_with_pos processer_live (processerJobs st))
        as (id & pc & Hpc & Hlive); [lia|].
      exists (Processer id).
      apply (processer_can_step s st id pc I Hpc); auto.
      intros ->. now apply Hlive.
  - right. exists Main. unfold step, Scan_step. rewrite Hal, Hmain. eauto.
  - left. exists err. exact Hmain.
Qed.

(** Under an invariant that makes every step shrink the weight, schedules
    are no longer than the initial weight, and every reachable state can
    be driven to the return of [Scan]. *)
Section Termination.

Variable P : state -> Prop.
Hypothesis P_step : forall t st st', P st -> step t st = Some st' -> P st'.
Hypothesis P_weight :
  forall t st st', P st -> step t st = Some st' -> (weight st' < weight st)%nat.
Hypothesis P_progress :
  forall st, P st ->
    (exists err, returned st err) \/ exists t st', step t st = Some st'.

Lemma exec_bounded (schedule : list tid) (st st' : state) :
  P st -> exec schedule st = Some st' ->
  (length schedule + weight st' <= weight st)%nat.
Proof using P_step P_weight.
  revert st. induction schedule as [|t schedule IH]; intros st HP.
  - intros [= <-]. cbn. lia.
  - cbn. destruct (step t st) as [st1|] eqn:E; [|discriminate].
    intros Hex. specialize (IH st1 (P_step _ _ _ HP E) Hex).
    pose proof (P_weight _ _ _ HP E). lia.
Qed.

Lemma exec_completes (st : state) :
  P st -> exists schedule st' err, exec schedule st = Some st' /\ returned st' err.
Proof using P_step P_weight P_progress.
  remember (weight st) as n eqn:Hn. revert st Hn.
  induction n as [n IH] using lt_wf_ind. intros st -> HP.
  destruct (P_progress st HP) as [[err Hret]|(t & st1 & Hstep)].
  - exists [], st, err. auto.
  - destruct (IH (weight st1) (P_weight _ _ _ HP Hstep) st1 eq_refl
                (P_step _ _ _ HP Hstep)) as (schedule & st' & err & Hex & Hret).
    exists (t :: schedule), st', err. cbn. rewrite Hstep. auto.
Qed.

End Termination.

(** ** The pipeline: what has been handled when [Scan] returns *)

Lemma sum_list_with_zero_impl {A : Type} (f g : A -> nat) (l : list A) :
  (forall x, f x = 0%nat -> g x = 0%nat) ->
  sum_list_with f l = 0%nat -> sum_list_with g l = 0%nat.
Proof.
  intros Hfg. induction l as [|a l IH]; simpl; [trivial|].
  intros Hs. rewrite (Hfg a), IH by lia. reflexivity.
Qed.

Lemma hits_None (l : list LogEntry) : hits None l = length l.
Proof.
  unfold hits. induction l as [|e l IH]; [reflexivity|].
  cbn [sum_list_with length]. now rewrite IH.
Qed.

Lemma pools_suffice_sync (s : Scanner) (st : state) :
  sync_inv s st ->
  1 <= NumWorkers (opts s) -> 1 <= ParallelFetch (opts s) ->
  pools_suffice st.
Proof.
  intros I HN HF. pose proof (sync_pools _ _ I) as Hp.
  rewrite <- (sync_opts _ _ I) in HN, HF. unfold pools_inv in Hp. split.
  - intros r rest Hmain. rewrite Hmain in Hp. now apply Hp.
  - intros id r e l Hpc. destruct (main st); try (now apply Hp).
    destruct Hp as [Hlen _]. apply lookup_lt_Some in Hpc. lia.
Qed.

Lemma returned_handled (s : Scanner) (rs : list fetchRange) (st : state) (err : option string) :
  sync_inv s st -> data_inv rs st ->
  1 <= NumWorkers (opts s) -> 1 <= ParallelFetch (opts s) ->
  returned st err ->
  err = None
  /\ (forall q, hits q (handled st) = spans q rs)
  /\ certsProcessed (scanner st) = wrap64 (Z.of_nat (length (handled st))).
Proof.
  intros I D HN HF Hret. unfold returned in Hret.
  pose proof (sync_pools _ _ I) as Hp. unfold pools_inv in Hp.
  rewrite <- (sync_opts _ _ I) in HN, HF. rewrite Hret in Hp.
  destruct Hp as [Hps Hfs]. specialize (Hps HN). specialize (Hfs HF).
  pose proof (sync_fetchers_gone _ _ I) as Hfg.
  pose proof (sync_processers_gone _ _ I) as Hpg.
  rewrite Hret in Hfg, Hpg. specialize (Hfg eq_refl). specialize (Hpg eq_refl).
  rewrite (sync_fetcherWG _ _ I) in Hfg. rewrite (sync_processorWG _ _ I) in Hpg.
  assert (Hfl : sum_list_with fetcher_live (fetcherJobs st) = 0%nat) by lia.
  assert (Hpl : sum_list_with processer_live (processerJobs st) = 0%nat) by lia.
  assert (Hjobs : buf (jobs st) = []).
  { destruct (lookup_lt_is_Some_2 (processerJobs st) 0%nat Hps) as [pc Hpc].
    pose proof (sum_list_with_zero _ _ _ _ Hpl Hpc) as Hl.
    destruct pc; try discriminate.
    apply (sync_processer_over _ _ I _ _ Hpc). right; reflexivity. }
  assert (Hfetches : buf (fetches st) = []).
  { destruct (lookup_lt_is_Some_2 (fetcherJobs st) 0%nat Hfs) as [pc Hpc].
    pose proof (sum_list_with_zero _ _ _ _ Hfl Hpc) as Hl.
    destruct pc; try discriminate.
    apply (sync_fetcher_over _ _ I _ _ Hpc). right; reflexivity. }
  split; [exact (sync_return _ _ I _ Hret)|]. split.
  - intros q. rewrite <- (data_conserved _ _ D q).
    assert (Hh : sum_list_with (processer_holds q) (processerJobs st) = 0%nat).
    { apply (sum_list_with_zero_impl processer_live); [|exact Hpl].
      intros []; cbn; congruence. }
    assert (Ho : sum_list_with (fetcher_owes q) (fetcherJobs st) = 0%nat).
    { apply (sum_list_with_zero_impl fetcher_live); [|exact Hfl].
      intros []; cbn; congruence. }
    unfold in_flight. rewrite Hjobs, Hfetches, Hret, Hh, Ho.
    unfold hits, spans. simpl. lia.
  - rewrite (sync_counter _ _ I).
    assert (Hc : sum_list_with processer_counted (processerJobs st) = 0%nat).
    { apply (sum_list_with_zero_impl processer_live); [|exact Hpl].
      intros []; cbn; congruence. }
    rewrite Hc. do 2 f_equal. lia.
Qed.

Lemma tiles_range_ok (batchSize endIndex s : Z) (l : list fetchRange) :
  tiles batchSize endIndex s l -> min_int64 <= s -> endIndex <= max_int64 ->
  Forall range_ok l.
Proof.
  intros Ht Hs He. eapply Forall_impl; [eapply tiles_Forall; exact Ht|].
  unfold range_ok. cbn. intros r. lia.
Qed.

Lemma tiles_spans (batchSize endIndex s : Z) (l : list fetchRange) :
  tiles batchSize endIndex s l -> s <= endIndex ->
  spans None l = Z.to_nat (endIndex - s)
  /\ forall i, spans (Some i) l = if (s <=? i) && (i <? endIndex) then 1%nat else 0%nat.
Proof.
  unfold spans. induction 1 as [s Hs|s e l Hse Hw Ht IH]; intros Hle.
  - cbn. split; [lia|]. intros i.
    destruct (Z.leb_spec s i), (Z.ltb_spec i endIndex); cbn; trivial; lia.
  - destruct IH as [IHn IHi]; [lia|]. simpl. split.
    + rewrite IHn. unfold width. cbn. lia.
    + intros i. rewrite IHi.
      destruct (Z.leb_spec s i), (Z.leb_spec i e), (Z.leb_spec (e + 1) i),
        (Z.ltb_spec i endIndex); cbn; lia.
Qed.

(** ** What [Scan] guarantees *)

Lemma Scan_reachable (fuel : nat) (schedule : list tid) (s : Scanner) (startIndex endIndex : Z) (st : state) :
  Scan fuel schedule s startIndex endIndex = Some st ->
  exists rs, Scan_ranges fuel startIndex endIndex (BatchSize (opts s)) = Some rs
             /\ exec schedule (Scan_start s rs) = Some st.
Proof.
  unfold Scan. destruct (Scan_ranges _ _ _ _) as [rs|]; [|discriminate].
  intros Hex. exists rs. auto.
Qed.

Lemma exited_of_live_fetchers (l : list fetcher_pc) :
  sum_list_with fetcher_live l = 0%nat -> Forall (fun pc => pc = FExit) l.
Proof.
  induction l as [|pc l IH]; simpl; intros Hs; constructor.
  - destruct pc; cbn in Hs; trivial; lia.
  - apply IH. lia.
Qed.

Lemma exited_of_live_processers (l : list processer_pc) :
  sum_list_with processer_live l = 0%nat -> Forall (fun pc => pc = PExit) l.
Proof.
  induction l as [|pc l IH]; simpl; intros Hs; constructor.
  - destruct pc; cbn in Hs; trivial; lia.
  - apply IH. lia.
Qed.

Lemma sync_phase_inv (s : Scanner) (st : state) : sync_inv s st -> phase_inv st.
Proof.
  intros I. unfold phase_inv, fetchers_exited, processers_exited.
  pose proof (sync_fetches_closed _ _ I) as Hf.
  pose proof (sync_jobs_closed _ _ I) as Hj.
  pose proof (sync_fetchers_gone _ _ I) as Hfg.
  pose proof (sync_processers_gone _ _ I) as Hpg.
  rewrite (sync_fetcherWG _ _ I) in Hfg. rewrite (sync_processorWG _ _ I) in Hpg.
  destruct (main st); cbn in *; repeat split; trivial;
    first [ apply exited_of_live_fetchers; specialize (Hfg eq_refl); lia
          | apply exited_of_live_processers; specialize (Hpg eq_refl); lia ].
Qed.

(** C9: whatever the indices, the handler, the client and the schedule,
    when [Scan] returns it returns nil. *)
Theorem Scan_returns_nil (fuel : nat) (schedule : list tid) (s : Scanner) (startIndex endIndex : Z) (st : state) (err : option string) :
  Scan fuel schedule s startIndex endIndex = Some st ->
  returned st err ->
  err = None.
Proof.
  intros HScan Hret. apply Scan_reachable in HScan.
  destruct HScan as (rs & _ & Hex).
  assert (I : sync_inv s st) by (eapply reachable_sync_inv; eexists; exact Hex).
  exact (sync_return _ _ I _ Hret).
Qed.

(** What a step appends to the work queue is the range [Scan] had still
    to send and has no longer. *)
Lemma enqueued_step (t : tid) (st st' : state) :
  step t st = Some st' ->
  enqueued st st' ++ unfed (main st') = unfed (main st).
Proof.
  intros Hstep. unfold enqueued.
  step_cases Hstep; chan_facts; simpl_state; try rewrite Hmain;
    cbn [unfed]; buf_rewrite;
    rewrite ?drop_all, ?drop_app_length; cbn [app]; trivial.
  now rewrite drop_ge by (cbn [length]; lia).
Qed.

Lemma fed_unfed (schedule : list tid) (st0 st : state) :
  exec schedule st0 = Some st ->
  fed schedule st0 ++ unfed (main st) = unfed (main st0).
Proof.
  revert st0. induction schedule as [|t schedule IH]; intros st0.
  - now intros [= <-].
  - cbn [exec fed]. destruct (step t st0) as [st1|] eqn:Hstep; [|discriminate].
    intros Hex. rewrite <- app_assoc, (IH st1 Hex).
    exact (enqueued_step t _ _ Hstep).
Qed.

(** C7: in every execution of [Scan] the ranges put on the work queue so
    far, followed by those [Scan] has still to send, are the ranges of
    the partition, in order; the work queue is closed by [Scan] itself,
    and only once every range of the partition has been put on it;
    [Scan] then stands at the wait for the fetchers and leaves it only
    when every fetcher has returned; only then does it close the entry
    queue; and it returns only after every processer has returned.  No
    other goroutine moves [Scan] or closes a queue, and [Scan] passes
    through these statements in this order. *)
Theorem Scan_shutdown_order (s : Scanner) (rs : list fetchRange) (schedule : list tid) (st : state) :
  exec schedule (Scan_start s rs) = Some st ->
  phase_inv st
  /\ fed schedule (Scan_start s rs) ++ unfed (main st) = rs
  /\ (closed (fetches st) = true -> fed schedule (Scan_start s rs) = rs)
  /\ (closed (jobs st) = true -> closed (fetches st) = true /\ fetchers_exited st)
  /\ (forall err, returned st err -> closed (jobs st) = true /\ processers_exited st)
  /\ (forall t st', step t st = Some st' ->
        (t <> Main ->
         main st' = main st
         /\ closed (fetches st') = closed (fetches st)
         /\ closed (jobs st') = closed (jobs st))
        /\ (t = Main -> forall pc, shutdown_next (main st) = Some pc -> main st' = pc)
        /\ (closed (fetches st) = false -> closed (fetches st') = true ->
            t = Main /\ main st = MFeed [] /\ main st' = MWaitFetchers
            /\ fed schedule (Scan_start s rs) = rs)
        /\ (closed (jobs st) = false -> closed (jobs st') = true ->
            t = Main /\ main st = MCloseJobs /\ main st' = MWaitProcessers
            /\ fetchers_exited st)).
Proof.
  intros Hex.
  assert (Hreach : reachable (Scan_start s rs) st) by (eexists; exact Hex).
  pose proof (reachable_sync_inv _ _ _ Hreach) as I.
  pose proof (sync_phase_inv _ _ I) as Hph.
  pose proof (fed_unfed _ _ _ Hex) as Hfed. cbn [Scan_start main unfed] in Hfed.
  assert (Hall : unfed (main st) = [] -> fed schedule (Scan_start s rs) = rs).
  { intros Hun. now rewrite Hun, app_nil_r in Hfed. }
  split; [exact Hph|]. split; [exact Hfed|]. split; [|split; [|split]].
  - intros Hc. apply Hall. unfold phase_inv in Hph.
    destruct (main st); cbn; trivial; destruct Hph as [Hf _]; congruence.
  - unfold phase_inv in Hph. destruct (main st); intros Hc;
      destruct_and?; try congruence; auto.
  - unfold returned, phase_inv in *. intros err Hret. rewrite Hret in Hph. tauto.
  - intros t st' Hstep.
    pose proof (step_no_panic _ _ _ _ I Hstep) as Hnp.
    unfold phase_inv in Hph.
    step_cases Hstep; chan_facts; simpl_state; try discriminate;
      try rewrite Hmain in *; cbn [shutdown_next unfed] in *;
      split_and!; intros; destruct_and?; try congruence; auto;
      split_and!; first [congruence | now apply Hall].
Qed.

Lemma failing_fetch_step (st : state) (id : nat) (r : fetchRange) (c : Client) (err : string) :
  panicked st = false ->
  fetcherJobs st !! id = Some (FGet r) ->
  GetEntries (logClient (scanner st)) (start r) (end_ r) = (c, Err err) ->
  exists st',
    step (Fetcher id) st = Some st'
    /\ fetcherJobs st' = fetcherJobs st
    /\ printed st'
       = printed st
         ++ Log (scanner st) ("Fetching entries " +:+ dec (start r) +:+ " to "
                              +:+ dec (end_ r))
         ++ Warn (scanner st) ("Problem fetching from log: " +:+ err)
    /\ scanner st' = with_logClient (scanner st) c
    /\ main st' = main st /\ fetches st' = fetches st /\ jobs st' = jobs st
    /\ processerJobs st' = processerJobs st /\ handled st' = handled st
    /\ fetcherWG st' = fetcherWG st /\ processorWG st' = processorWG st
    /\ panicked st' = false.
Proof.
  intros Hal Hpc Hget. eexists. unfold step. rewrite Hal, Hpc.
  cbn [fetcherJob]. cbv zeta. simpl_state. rewrite Hget.
  split; [reflexivity|]. simpl_state.
  rewrite list_insert_id by exact Hpc. rewrite <- app_assoc.
  repeat split; trivial.
Qed.

Lemma failing_fetch_forever (n : nat) (st : state) (id : nat) (r : fetchRange) :
  always_fails -> panicked st = false ->
  fetcherJobs st !! id = Some (FGet r) ->
  exists st',
    exec (replicate n (Fetcher id)) st = Some st'
    /\ fetcherJobs st' !! id = Some (FGet r)
    /\ panicked st' = false
    /\ jobs st' = jobs st /\ handled st' = handled st.
Proof.
  intros Hfail. revert st. induction n as [|n IH]; intros st Hal Hpc.
  - exists st. cbn. auto.
  - destruct (Hfail (logClient (scanner st)) (start r) (end_ r)) as (c & err & Hget).
    destruct (failing_fetch_step st id r c err Hal Hpc Hget)
      as (st1 & Hstep & Hfs & _ & _ & _ & _ & Hj & _ & Hh & _ & _ & Hal1).
    destruct (IH st1) as (st' & Hex & Hpc' & Hal' & Hj' & Hh');
      [exact Hal1 | now rewrite Hfs|].
    exists st'. cbn [replicate exec]. rewrite Hstep.
    repeat split; trivial; congruence.
Qed.

(** C6: a failed call of [GetEntries] makes the fetcher log a warning and
    stand again before the call for the same range, whatever the error and
    however many calls have failed before, so that a client that always
    fails is asked again without end; a fetcher gets to its last statements
    only by finding the work queue closed and empty; and the error [Scan]
    returns is nil. *)
Theorem fetcherJob_retries (s : Scanner) (rs : list fetchRange) (st : state) :
  reachable (Scan_start s rs) st ->
  (forall id r c err,
      fetcherJobs st !! id = Some (FGet r) ->
      GetEntries (logClient (scanner st)) (start r) (end_ r) = (c, Err err) ->
      exists st',
        step (Fetcher id) st = Some st'
        /\ fetcherJobs st' !! id = Some (FGet r)
        /\ printed st'
           = printed st
             ++ Log (scanner st) ("Fetching entries " +:+ dec (start r)
                                  +:+ " to " +:+ dec (end_ r))
             ++ [LogUri s +:+ ": " +:+ ("Problem fetching from log: " +:+ err)]
        /\ jobs st' = jobs st /\ handled st' = handled st
        /\ main st' = main st)
  /\ (always_fails ->
      forall id r n,
        fetcherJobs st !! id = Some (FGet r) ->
        exists st',
          exec (replicate n (Fetcher id)) st = Some st'
          /\ fetcherJobs st' !! id = Some (FGet r)
          /\ jobs st' = jobs st /\ handled st' = handled st)
  /\ (forall t st' id pc',
        step t st = Some st' ->
        fetcherJobs st' !! id = Some pc' -> fetcher_over pc' ->
        (exists pc, fetcherJobs st !! id = Some pc /\ fetcher_over pc)
        \/ (t = Fetcher id /\ fetcherJobs st !! id = Some FRecv
            /\ closed (fetches st) = true /\ buf (fetches st) = []))
  /\ (forall id pc, fetcherJobs st !! id = Some pc -> fetcher_over pc ->
                    closed (fetches st) = true /\ buf (fetches st) = [])
  /\ (forall err, returned st err -> err = None).
Proof.
  intros Hreach. pose proof (reachable_sync_inv _ _ _ Hreach) as I.
  pose proof (sync_alive _ _ I) as Hal.
  split; [|split; [|split; [|split]]].
  - intros id r c err Hpc Hget.
    destruct (failing_fetch_step st id r c err Hal Hpc Hget)
      as (st' & Hstep & Hfs & Hpr & _ & Hm & _ & Hj & _ & Hh & _).
    exists st'. rewrite Hfs, Hpr. unfold Warn. rewrite (sync_uri _ _ I).
    repeat split; trivial.
  - intros Hfail id r n Hpc.
    destruct (failing_fetch_forever n st id r Hfail Hal Hpc)
      as (st' & Hex & Hpc' & _ & Hj & Hh).
    exists st'. auto.
  - intros t st' id0 pc' Hstep Hpc' Hover.
    step_cases Hstep; chan_facts; simpl_state;
      try (left; eexists; split; [eassumption | assumption]);
      try (apply lookup_snoc_Some in Hpc';
           destruct Hpc' as [[_ Hpc']|[_ <-]];
           [left; eexists; split; [eassumption | assumption]
           |unfold fetcher_over in Hover; destruct Hover; discriminate]);
      apply list_lookup_insert_Some in Hpc';
      destruct Hpc' as [(<- & <- & _)|[_ Hpc']];
      try (left; eexists; split; [eassumption | assumption]);
      try (unfold fetcher_over in Hover; destruct Hover; discriminate).
    + right. auto.
    + left. eexists; split; [eassumption | left; reflexivity].
    + left. eexists; split; [eassumption | left; reflexivity].
  - exact (sync_fetcher_over _ _ I).
  - exact (sync_return _ _ I).
Qed.

(** C4 (as amended): [certsProcessed] is changed by one statement only,
    the addition in the processer (line 68), which adds one for the entry
    the processer has just taken from the entry queue and is about to hand
    to [processCert]; no step of a fetcher, and in particular no delivery
    to the entry queue, changes it.  At every moment it equals (in
    [int64]) the number of entries handed to [processCert] plus the number
    of entries counted and about to be handed over: every entry is counted
    exactly once. *)
Theorem certsProcessed_counted_by_processer (s : Scanner) (rs : list fetchRange) (st : state) :
  reachable (Scan_start s rs) st ->
  certsProcessed (scanner st)
  = wrap64 (Z.of_nat (length (handled st)
                      + sum_list_with processer_counted (processerJobs st)))
  /\ forall t st',
      step t st = Some st' ->
      match t with
      | Processer id =>
          match processerJobs st !! id with
          | Some (PCount entry) =>
              certsProcessed (scanner st')
              = wrap64 (certsProcessed (scanner st) + 1)
              /\ processerJobs st' !! id = Some (PCall entry)
              /\ handled st' = handled st /\ jobs st' = jobs st
          | _ => certsProcessed (scanner st') = certsProcessed (scanner st)
          end
      | _ => certsProcessed (scanner st') = certsProcessed (scanner st)
      end.
Proof.
  intros Hreach. pose proof (reachable_sync_inv _ _ _ Hreach) as I.
  split; [exact (sync_counter _ _ I)|].
  intros t st' Hstep.
  step_cases Hstep; simpl_state; try rewrite Hpc; trivial.
  repeat split. apply list_lookup_insert_eq. eapply lookup_lt_Some; eassumption.
Qed.

(** *** Runs that come to an end *)

Lemma idle_fetcher_ok (st : state) : idle_inv st -> Forall fetcher_ok (fetcherJobs st).
Proof.
  intros Hi. eapply Forall_impl; [exact (idle_fetchers _ Hi)|].
  unfold fetcher_over. intros pc [->|[->| ->]]; exact Logic.I.
Qed.

Lemma idle_fetch_progresses (st : state) : idle_inv st -> fetch_progresses st.
Proof.
  intros Hi id r Hpc.
  pose proof (Forall_lookup_1 _ _ _ _ (idle_fetchers _ Hi) Hpc) as Hok.
  unfold fetcher_over in Hok. destruct Hok as [Hok|[Hok|Hok]]; discriminate.
Qed.

Lemma idle_pools_suffice (st : state) : idle_inv st -> pools_suffice st.
Proof.
  intros Hi. split.
  - intros r rest Hmain. pose proof (idle_unfed _ Hi) as Hun.
    rewrite Hmain in Hun. discriminate.
  - intros id r e l Hpc.
    pose proof (Forall_lookup_1 _ _ _ _ (idle_fetchers _ Hi) Hpc) as Hok.
    unfold fetcher_over in Hok. destruct Hok as [Hok|[Hok|Hok]]; discriminate.
Qed.

Lemma full_range_honours : returns_full_range -> honours_contract.
Proof.
  intros Hfull c s e c' l Hget.
  destruct (Hfull c s e) as (c1 & l1 & Hget1 & Hlen).
  rewrite Hget in Hget1. injection Hget1 as _ <-. lia.
Qed.

Lemma full_range_progresses (st : state) : returns_full_range -> fetch_progresses st.
Proof.
  intros Hfull id r _.
  destruct (Hfull (logClient (scanner st)) (start r) (end_ r)) as (c & l & Hget & Hlen).
  exists c, l. split; [exact Hget|].
  unfold width. intros Hw ->. cbn in Hlen. lia.
Qed.

Lemma Scan_start_weight (s : Scanner) (rs : list fetchRange) :
  weight (Scan_start s rs)
  = (3 * Z.to_nat (NumWorkers (opts s)) + 3 * Z.to_nat (ParallelFetch (opts s))
     + sum_list_with range_weight rs + length rs + 8)%nat.
Proof. unfold weight. cbn. rewrite Z.sub_0_r. lia. Qed.

(** A scan over no range: the invariant, and what follows from it. *)
Lemma idle_run (s : Scanner) (schedule : list tid) (st : state) :
  pools_typed (opts s) ->
  exec schedule (Scan_start s []) = Some st ->
  idle_inv st
  /\ (forall err, returned st err -> err = None)
  /\ (length schedule + weight st <= weight (Scan_start s []))%nat
  /\ exists schedule' st' err,
       exec schedule' st = Some st' /\ returned st' err.
Proof.
  intros Htyped Hex.
  set (P := fun st => sync_inv s st /\ counters_inv st /\ idle_inv st).
  assert (P_step : forall t st st', P st -> step t st = Some st' -> P st').
  { intros t st1 st2 (I & Hc & Hi) Hstep. split; [|split].
    - eapply sync_inv_step; eassumption.
    - eapply counters_inv_step; eassumption.
    - eapply idle_inv_step; eassumption. }
  assert (P_weight : forall t st st', P st -> step t st = Some st' ->
                                      (weight st' < weight st)%nat).
  { intros t st1 st2 (I & Hc & Hi) Hstep.
    eapply weight_step; eauto using idle_fetcher_ok, idle_fetch_progresses. }
  assert (P_progress : forall st, P st ->
            (exists err, returned st err) \/ exists t st', step t st = Some st').
  { intros st1 (I & Hc & Hi). eapply progress; eauto using idle_pools_suffice. }
  assert (P0 : P (Scan_start s [])).
  { split; [apply sync_inv_start|]. split; [cbn; lia | apply idle_inv_start]. }
  assert (HP : P st) by (eapply (exec_invariant P); eassumption).
  destruct HP as (I & Hc & Hi).
  split; [exact Hi|]. split; [exact (sync_return _ _ I)|]. split.
  - eapply (exec_bounded P); eassumption.
  - apply (exec_completes P); unfold P; auto.
Qed.

(** A scan against a client that returns whole ranges. *)
Lemma full_range_run (s : Scanner) (rs : list fetchRange) (schedule : list tid) (st : state) :
  returns_full_range -> pools_typed (opts s) ->
  1 <= NumWorkers (opts s) -> 1 <= ParallelFetch (opts s) ->
  Forall range_ok rs ->
  exec schedule (Scan_start s rs) = Some st ->
  (forall err, returned st err ->
     err = None
     /\ (forall q, hits q (handled st) = spans q rs)
     /\ certsProcessed (scanner st) = wrap64 (Z.of_nat (length (handled st))))
  /\ (length schedule + weight st <= weight (Scan_start s rs))%nat
  /\ exists schedule' st' err,
       exec schedule' st = Some st' /\ returned st' err.
Proof.
  intros Hfull Htyped HN HF Hrs Hex.
  set (P := fun st => sync_inv s st /\ counters_inv st /\ data_inv rs st).
  assert (P_step : forall t st st', P st -> step t st = Some st' -> P st').
  { intros t st1 st2 (I & Hc & Hd) Hstep. split; [|split].
    - eapply sync_inv_step; eassumption.
    - eapply counters_inv_step; eassumption.
    - eapply data_inv_step; eauto using full_range_honours. }
  assert (P_weight : forall t st st', P st -> step t st = Some st' ->
                                      (weight st' < weight st)%nat).
  { intros t st1 st2 (I & Hc & Hd) Hstep.
    eapply weight_step; eauto using full_range_progresses.
    exact (data_fetchers _ _ Hd). }
  assert (P_progress : forall st, P st ->
            (exists err, returned st err) \/ exists t st', step t st = Some st').
  { intros st1 (I & Hc & Hd). eapply progress; eauto using pools_suffice_sync. }
  assert (P0 : P (Scan_start s rs)).
  { split; [apply sync_inv_start|]. split; [cbn; lia | now apply data_inv_start]. }
  assert (HP : P st) by (eapply (exec_invariant P); eassumption).
  destruct HP as (I & Hc & Hd).
  split; [|split].
  - intros err Hret. eapply returned_handled; eassumption.
  - eapply (exec_bounded P); eassumption.
  - apply (exec_completes P); unfold P; auto.
Qed.

Lemma Scan_extend (fuel : nat) (schedule schedule' : list tid) (s : Scanner) (startIndex endIndex : Z) (st st' : state) :
  Scan fuel schedule s startIndex endIndex = Some st ->
  exec schedule' st = Some st' ->
  Scan fuel (schedule ++ schedule') s startIndex endIndex = Some st'.
Proof.
  unfold Scan. destruct (Scan_ranges _ _ _ _); [|discriminate].
  intros Hex Hex'. now rewrite exec_app, Hex.
Qed.

(** C5 (as amended): when [startIndex >= endIndex] (whatever the batch
    size), the partitioning loop yields no range, and [Scan] handles no
    entry, leaves the counter at zero, can always run on to its return,
    returns nil, and takes no more steps than it needs to start and stop
    its goroutines. *)
Theorem Scan_empty_interval (s : Scanner) (startIndex endIndex : Z) :
  endIndex <= startIndex -> pools_typed (opts s) ->
  (forall fuel, (0 < fuel)%nat ->
                Scan_ranges fuel startIndex endIndex (BatchSize (opts s)) = Some [])
  /\ forall fuel schedule st,
      Scan fuel schedule s startIndex endIndex = Some st ->
      handled st = []
      /\ certsProcessed (scanner st) = 0
      /\ (forall err, returned st err -> err = None)
      /\ (length schedule
          <= 3 * Z.to_nat (NumWorkers (opts s))
             + 3 * Z.to_nat (ParallelFetch (opts s)) + 8)%nat
      /\ exists schedule' st',
           Scan fuel (schedule ++ schedule') s startIndex endIndex = Some st'
           /\ returned st' None.
Proof.
  intros Hle Htyped.
  assert (Hranges : forall fuel, (0 < fuel)%nat ->
            Scan_ranges fuel startIndex endIndex (BatchSize (opts s)) = Some []).
  { intros [|fuel] Hfuel; [lia|]. cbn [Scan_ranges].
    destruct (Z.ltb_spec startIndex endIndex); [lia | reflexivity]. }
  split; [exact Hranges|].
  intros fuel schedule st HScan.
  assert (Hex : exec schedule (Scan_start s []) = Some st).
  { unfold Scan in HScan. destruct fuel as [|fuel]; [discriminate|].
    now rewrite Hranges in HScan by lia. }
  destruct (idle_run s schedule st Htyped Hex) as (Hi & Hret & Hlen & Hdone).
  split; [exact (idle_handled _ Hi)|]. split; [exact (idle_counter _ Hi)|].
  split; [exact Hret|]. split.
  - rewrite Scan_start_weight in Hlen. cbn in Hlen. lia.
  - destruct Hdone as (schedule' & st' & err & Hex' & Hret').
    exists schedule', st'. split; [eapply Scan_extend; eassumption|].
    assert (Hex2 : exec (schedule ++ schedule') (Scan_start s []) = Some st')
      by now rewrite exec_app, Hex.
    destruct (idle_run s _ st' Htyped Hex2) as (_ & Hnil & _).
    now rewrite (Hnil err Hret') in Hret'.
Qed.

Lemma Scan_ranges_det (fuel fuel' : nat) (s endIndex batchSize : Z) (l l' : list fetchRange) :
  Scan_ranges fuel s endIndex batchSize = Some l ->
  Scan_ranges fuel' s endIndex batchSize = Some l' ->
  l = l'.
Proof.
  intros H H'.
  apply (Scan_ranges_mono _ (Nat.max fuel fuel')) in H; [|lia].
  apply (Scan_ranges_mono _ (Nat.max fuel fuel')) in H'; [|lia].
  congruence.
Qed.

(** C3 (as amended): with a client that returns the whole requested range
    at every call, a batch size of 1000, and at least one processer and
    one fetcher, every run of [Scan(0, 5000, processCert)] can be carried
    on to the return of [Scan] (within a bounded number of steps), and
    when [Scan] returns nil has been returned, [processCert] has been
    called exactly once with each index of [[0, 5000)] and with no other
    index, 5000 times in all, and [certsProcessed] is 5000. *)
Theorem Scan_handles_every_index_once (s : Scanner) :
  returns_full_range ->
  BatchSize (opts s) = 1000 -> pools_typed (opts s) ->
  1 <= NumWorkers (opts s) -> 1 <= ParallelFetch (opts s) ->
  (forall fuel, (5 < fuel)%nat -> Scan fuel [] s 0 5000 <> None)
  /\ forall fuel schedule st,
      Scan fuel schedule s 0 5000 = Some st ->
      (forall err, returned st err ->
         err = None
         /\ (forall i, hits (Some i) (handled st)
                       = if (0 <=? i) && (i <? 5000) then 1%nat else 0%nat)
         /\ Z.of_nat (length (handled st)) = 5000
         /\ certsProcessed (scanner st) = 5000)
      /\ Z.of_nat (length schedule)
         <= 3 * NumWorkers (opts s) + 3 * ParallelFetch (opts s) + 30028
      /\ exists schedule' st',
           Scan fuel (schedule ++ schedule') s 0 5000 = Some st'
           /\ returned st' None.
Proof.
  intros Hfull Hbatch Htyped HN HF.
  set (rs := [ {| start := 0; end_ := 999 |}; {| start := 1000; end_ := 1999 |};
               {| start := 2000; end_ := 2999 |}; {| start := 3000; end_ := 3999 |};
               {| start := 4000; end_ := 4999 |} ]).
  assert (Hrs : forall fuel, (5 < fuel)%nat -> Scan_ranges fuel 0 5000 1000 = Some rs).
  { intros fuel Hfuel. apply (Scan_ranges_mono 6); [lia | reflexivity]. }
  assert (Htiles : tiles 1000 5000 0 rs).
  { destruct (Scan_ranges_tiles (S (Z.to_nat 5000)) 0 5000 1000) as (l & Hl & Ht);
      try (unfold in_int64, min_int64, max_int64; lia).
    rewrite (Scan_ranges_det _ _ _ _ _ _ _ (Hrs 6%nat ltac:(lia)) Hl). exact Ht. }
  assert (Hok : Forall range_ok rs).
  { eapply tiles_range_ok; [exact Htiles | |]; unfold min_int64, max_int64; lia. }
  destruct (tiles_spans _ _ _ _ Htiles ltac:(lia)) as [Hall Hone].
  split.
  { intros fuel Hfuel. unfold Scan. rewrite Hbatch, Hrs by exact Hfuel. discriminate. }
  intros fuel schedule st HScan.
  assert (Hex : exec schedule (Scan_start s rs) = Some st).
  { unfold Scan in HScan. rewrite Hbatch in HScan.
    destruct (Scan_ranges fuel 0 5000 1000) as [l|] eqn:Hl; [|discriminate].
    now rewrite (Scan_ranges_det _ _ _ _ _ _ _ (Hrs 6%nat ltac:(lia)) Hl). }
  destruct (full_range_run s rs schedule st Hfull Htyped HN HF Hok Hex)
    as (Hret & Hlen & Hdone).
  split; [|split].
  - intros err Herr. destruct (Hret err Herr) as (Hnil & Hhits & Hcount).
    assert (Hfive : Z.of_nat (length (handled st)) = 5000).
    { rewrite <- hits_None, Hhits, Hall. lia. }
    split; [exact Hnil|]. split; [|split; [exact Hfive|]].
    + intros i. rewrite Hhits. apply Hone.
    + rewrite Hcount, Hfive. reflexivity.
  - rewrite Scan_start_weight in Hlen.
    assert (Hw : Z.of_nat (sum_list_with range_weight rs) = 30015) by reflexivity.
    assert (Hn : length rs = 5%nat) by reflexivity.
    lia.
  - destruct Hdone as (schedule' & st' & err & Hex' & Hret').
    exists schedule', st'. split; [eapply Scan_extend; eassumption|].
    assert (Hex2 : exec (schedule ++ schedule') (Scan_start s rs) = Some st')
      by now rewrite exec_app, Hex.
    destruct (full_range_run s rs _ st' Hfull Htyped HN HF Hok Hex2) as (Hnil & _).
    destruct (Hnil err Hret') as [-> _]. exact Hret'.
Qed.

(** *** The fetcher of the pipeline runs the loop of [fetchLoop]

    While the entry queue is open and has room, the sends of lines 92-96
    append to it the entries [pushEntries] computes. *)

Lemma fetcher_pushes (id : nat) (l : list LogEntry) (st : state) (r : fetchRange) :
  panicked st = false ->
  fetcherJobs st !! id = Some (FPush r l) ->
  closed (jobs st) = false ->
  Z.of_nat (length (buf (jobs st))) + Z.of_nat (length l) <= cap (jobs st) ->
  exists st',
    exec (replicate (length l) (Fetcher id)) st = Some st'
    /\ fetcherJobs st' = <[id := FPush (snd (pushEntries r l)) []]> (fetcherJobs st)
    /\ buf (jobs st') = buf (jobs st) ++ fst (pushEntries r l)
    /\ cap (jobs st') = cap (jobs st) /\ closed (jobs st') = false
    /\ panicked st' = false
    /\ scanner st' = scanner st /\ fetches st' = fetches st
    /\ main st' = main st /\ processerJobs st' = processerJobs st
    /\ handled st' = handled st /\ printed st' = printed st.
Proof.
  revert st r. induction l as [|e l IH]; intros st r Hal Hpc Hopen Hroom.
  - exists st. cbn [length replicate exec pushEntries fst snd].
    rewrite app_nil_r, list_insert_id by exact Hpc. repeat split; trivial.
  - cbn [length] in Hroom.
    assert (Hsend : exists c, send (jobs st) (reindex r e) = Sent c
                              /\ buf c = buf (jobs st) ++ [reindex r e]
                              /\ cap c = cap (jobs st) /\ closed c = false).
    { unfold send. rewrite Hopen.
      destruct (Z.ltb_spec (Z.of_nat (length (buf (jobs st)))) (cap (jobs st))); [|lia].
      eexists. split; [reflexivity|]. cbn. auto. }
    destruct Hsend as (c & Hsend & Hbuf & Hcap & Hclosed).
    set (st1 := set_fetcher id (FPush (advance r) l) (set_jobs c st)).
    assert (Hstep : step (Fetcher id) st = Some st1).
    { unfold step. rewrite Hal, Hpc. cbn [fetcherJob]. now rewrite Hsend. }
    destruct (IH st1 (advance r)) as (st' & Hex & Hfs & Hjobs & Hcap' & Hcl' & Hal' & Hrest).
    + exact Hal.
    + subst st1. simpl_state. apply list_lookup_insert_eq.
      eapply lookup_lt_Some. exact Hpc.
    + subst st1. simpl_state. exact Hclosed.
    + subst st1. simpl_state. rewrite Hbuf, Hcap, length_app. cbn [length]. lia.
    + exists st'. cbn [length replicate exec pushEntries]. rewrite Hstep.
      destruct (pushEntries (advance r) l) as [out r'] eqn:Hpush.
      subst st1. simpl_state. cbn [fst snd] in *.
      rewrite Hfs, Hjobs, Hbuf, Hcap', Hcap, list_insert_insert_eq, <- app_assoc.
      repeat split; trivial; apply Hrest.
Qed.

(** One turn of the loop of lines 85-103 in the pipeline: the call, the
    sends and the test leave the fetcher where [fetchLoop] goes on, with
    the entries [pushEntries] computes appended to the entry queue. *)
Lemma fetcher_turn (id : nat) (st : state) (r : fetchRange) (c : Client) (l : list LogEntry) :
  panicked st = false ->
  fetcherJobs st !! id = Some (FGet r) ->
  GetEntries (logClient (scanner st)) (start r) (end_ r) = (c, Ok l) ->
  closed (jobs st) = false ->
  Z.of_nat (length (buf (jobs st))) + Z.of_nat (length l) <= cap (jobs st) ->
  let r' := snd (pushEntries r l) in
  exists st',
    exec (Fetcher id :: replicate (length l) (Fetcher id) ++ [Fetcher id]) st = Some st'
    /\ fetcherJobs st'
       = <[id := if start r' >? end_ r' then FRecv else FGet r']> (fetcherJobs st)
    /\ buf (jobs st') = buf (jobs st) ++ fst (pushEntries r l)
    /\ handled st' = handled st
    /\ certsProcessed (scanner st') = certsProcessed (scanner st).
Proof.
  intros Hal Hpc Hget Hopen Hroom r'.
  set (st1 := set_fetcher id (FPush r l)
                (set_scanner (with_logClient (scanner st) c)
                   (print (Log (scanner st)
                             ("Fetching entries " +:+ dec (start r) +:+ " to "
                              +:+ dec (end_ r))) st))).
  assert (Hstep : step (Fetcher id) st = Some st1).
  { unfold step. rewrite Hal, Hpc. cbn [fetcherJob]. cbv zeta. simpl_state.
    now rewrite Hget. }
  assert (Hlt : (id < length (fetcherJobs st))%nat) by (eapply lookup_lt_Some; exact Hpc).
  destruct (fetcher_pushes id l st1 r)
    as (st2 & Hex & Hfs & Hjobs & _ & _ & Hal2 & Hsc & _ & _ & _ & Hh & _).
  { exact Hal. }
  { subst st1. simpl_state. now apply list_lookup_insert_eq. }
  { exact Hopen. }
  { exact Hroom. }
  assert (Hpc2 : fetcherJobs st2 !! id = Some (FPush r' [])).
  { rewrite Hfs. apply list_lookup_insert_eq. subst st1. simpl_state.
    now rewrite length_insert. }
  exists (set_fetcher id (if start r' >? end_ r' then FRecv else FGet r') st2).
  split; [|split; [|split; [|split]]].
  - cbn [exec]. rewrite Hstep, exec_app, Hex. cbn [exec].
    unfold step. rewrite Hal2, Hpc2. cbn [fetcherJob].
    now destruct (start r' >? end_ r').
  - simpl_state. rewrite Hfs. subst st1. simpl_state.
    now rewrite !list_insert_insert_eq.
  - simpl_state. rewrite Hjobs. subst st1. reflexivity.
  - simpl_state. rewrite Hh. subst st1. reflexivity.
  - simpl_state. rewrite Hsc. subst st1. reflexivity.
Qed.

(** ** Further properties of the pipeline *)

(** A batch size of zero: whatever the interval, as long as it is not
    empty, every turn of the loop pushes an empty range and leaves [start]
    where it was, so the loop never ends. *)
Lemma Scan_ranges_zero_batch (fuel : nat) (startIndex endIndex : Z) :
  in_int64 startIndex -> startIndex < endIndex ->
  Scan_ranges fuel startIndex endIndex 0 = None.
Proof.
  pure. intros Hs Hlt. induction fuel as [|fuel IH]; [reflexivity|].
  cbn [Scan_ranges]. destruct (Z.ltb_spec startIndex endIndex); [|lia].
  rewrite Z.add_0_r, (wrap64_id startIndex) by exact Hs.
  assert (Hmin : min startIndex endIndex = startIndex).
  { unfold min. destruct (Z.ltb_spec startIndex endIndex); lia. }
  rewrite Hmin, wrap64_succ.
  replace (startIndex - 1 + 1) with startIndex by lia.
  rewrite (wrap64_id startIndex) by exact Hs. now rewrite IH.
Qed.

(** *** What never happens *)

Lemma queues_bounded_step (s : Scanner) (t : tid) (st st' : state) :
  sync_inv s st -> queues_bounded st -> step t st = Some st' ->
  queues_bounded st'.
Proof.
  intros I [Hf Hj] Hstep.
  pose proof (sync_fetches_cap _ _ I) as Hfc.
  pose proof (sync_jobs_cap _ _ I) as Hjc.
  unfold queues_bounded.
  step_cases Hstep; chan_facts; simpl_state; buf_rewrite;
    rewrite ?length_app in *; cbn [length] in *; lia.
Qed.

(** Whatever the options, the ranges, the client and the schedule, no
    goroutine of [Scan] panics: nothing is sent on a closed queue, no
    queue is closed twice, no [WaitGroup] counter falls below zero.  The
    work queue never holds more than 1000 ranges and the entry queue never
    more than 100000 entries, and each [WaitGroup] counts the goroutines
    of its pool that have not returned. *)
Lemma Scan_never_panics (fuel : nat) (schedule : list tid) (s : Scanner) (startIndex endIndex : Z) (st : state) :
  Scan fuel schedule s startIndex endIndex = Some st ->
  panicked st = false
  /\ queues_bounded st
  /\ fetcherWG st = Z.of_nat (sum_list_with fetcher_live (fetcherJobs st))
  /\ processorWG st = Z.of_nat (sum_list_with processer_live (processerJobs st)).
Proof.
  intros HScan. apply Scan_reachable in HScan. destruct HScan as (rs & _ & Hex).
  assert (HP : sync_inv s st /\ queues_bounded st).
  { eapply (exec_invariant (fun st => sync_inv s st /\ queues_bounded st));
      [| |exact Hex].
    - intros t st1 st2 [I Hq] Hstep.
      split; [eapply sync_inv_step | eapply queues_bounded_step]; eassumption.
    - split; [apply sync_inv_start | split; cbn; lia]. }
  destruct HP as [I Hq].
  split; [exact (sync_alive _ _ I)|]. split; [exact Hq|].
  split; [exact (sync_fetcherWG _ _ I) | exact (sync_processorWG _ _ I)].
Qed.

(** *** The pools *)

Lemma pools_started_step (s : Scanner) (t : tid) (st st' : state) :
  pools_typed (opts s) ->
  sync_inv s st -> pools_started (opts s) st -> step t st = Some st' ->
  pools_started (opts s) st'.
Proof.
  intros [HN HF] I Hp Hstep. pose proof (sync_opts _ _ I) as Hop.
  unfold pools_started in *.
  step_cases Hstep; simpl_state; try rewrite Hmain in *;
    rewrite ?length_insert, ?length_app; cbn [length]; trivial.
  all: rewrite Hop in *;
    repeat match goal with
      | E : (_ <? _) = true |- _ => apply Z.ltb_lt in E
      | E : (_ <? _) = false |- _ => apply Z.ltb_ge in E
      end;
    rewrite ?wrap64_id by (unfold in_int64, min_int64, max_int64 in *; lia);
    lia.
Qed.

(** [Scan] starts exactly [NumWorkers] processers and then exactly
    [ParallelFetch] fetchers -- none of a pool whose size is zero or
    negative -- all of them before it sends the first range, and no
    goroutine is started later: from the first send to the return, the
    pools have these sizes. *)
Lemma Scan_starts_pools (fuel : nat) (schedule : list tid) (s : Scanner) (startIndex endIndex : Z) (st : state) :
  pools_typed (opts s) ->
  Scan fuel schedule s startIndex endIndex = Some st ->
  pools_started (opts s) st
  /\ ((exists rest, main st = MFeed rest) \/ fetches_closed_at (main st) = true ->
      length (processerJobs st) = Z.to_nat (NumWorkers (opts s))
      /\ length (fetcherJobs st) = Z.to_nat (ParallelFetch (opts s))).
Proof.
  intros Htyped HScan. apply Scan_reachable in HScan.
  destruct HScan as (rs & _ & Hex).
  assert (HP : sync_inv s st /\ pools_started (opts s) st).
  { eapply (exec_invariant (fun st => sync_inv s st /\ pools_started (opts s) st));
      [| |exact Hex].
    - intros t st1 st2 [I Hq] Hstep.
      split; [eapply sync_inv_step | eapply pools_started_step]; eassumption.
    - split; [apply sync_inv_start | cbn; lia]. }
  destruct HP as [_ Hp]. split; [exact Hp|].
  unfold pools_started in Hp.
  intros [[rest Hm]|Hm]; destruct (main st); cbn in Hm; try discriminate; exact Hp.
Qed.

(** *** Every interval, every client that honours the contract *)

Lemma tiles_length (batchSize endIndex s : Z) (l : list fetchRange) :
  tiles batchSize endIndex s l -> s <= endIndex ->
  (length l <= Z.to_nat (endIndex - s))%nat.
Proof.
  pure. induction 1 as [s Hs|s e l Hse Hw Ht IH]; intros Hle; cbn; [lia|].
  specialize (IH ltac:(lia)). lia.
Qed.

Lemma range_weight_sum (l : list fetchRange) :
  sum_list_with range_weight l = (6 * spans None l + 3 * length l)%nat.
Proof.
  pure. unfold spans. induction l as [|r l IH]; [reflexivity|].
  cbn [sum_list_with length span]. unfold range_weight at 1. lia.
Qed.

(** The ranges [Scan] works on when no addition of the partitioning loop
    overflows. *)
Lemma Scan_interval (fuel : nat) (schedule : list tid) (s : Scanner) (startIndex endIndex : Z) (st : state) :
  in_int64 startIndex -> in_int64 endIndex ->
  0 < BatchSize (opts s) -> endIndex + BatchSize (opts s) <= 2 ^ 63 ->
  Scan fuel schedule s startIndex endIndex = Some st ->
  exists rs,
    exec schedule (Scan_start s rs) = Some st
    /\ Forall range_ok rs
    /\ spans None rs = Z.to_nat (endIndex - startIndex)
    /\ (forall i, spans (Some i) rs = once_in startIndex endIndex i)
    /\ concat (map indices rs) = seqZ startIndex (endIndex - startIndex)
    /\ (length rs <= Z.to_nat (endIndex - startIndex))%nat.
Proof.
  intros Hs He Hb Hsum HScan. apply Scan_reachable in HScan.
  destruct HScan as (rs & Hrs & Hex). exists rs. split; [exact Hex|].
  destruct (Scan_ranges_tiles (S (Z.to_nat (endIndex - startIndex)))
              startIndex endIndex (BatchSize (opts s)) Hs He Hb Hsum ltac:(lia))
    as (l & Hl & Ht).
  rewrite <- (Scan_ranges_det _ _ _ _ _ _ _ Hrs Hl) in Ht. clear l Hl.
  unfold once_in.
  destruct (Z.le_gt_cases startIndex endIndex) as [Hle|Hgt].
  - destruct (tiles_spans _ _ _ _ Ht Hle) as [Hall Hone].
    split; [|split; [exact Hall|split; [exact Hone|split]]].
    + unfold in_int64 in *. eapply tiles_range_ok; [exact Ht | |]; lia.
    + eapply tiles_indices; eassumption.
    + eapply tiles_length; eassumption.
  - inversion Ht; subst; [|lia].
    split; [constructor|]. split; [cbn; lia|]. split; [|split].
    + intros i. cbn.
      destruct (Z.leb_spec startIndex i), (Z.ltb_spec i endIndex); cbn; trivial; lia.
    + cbn. symmetry. apply seqZ_nil. lia.
    + cbn. lia.
Qed.

Lemma contract_run (s : Scanner) (rs : list fetchRange) (schedule : list tid) (st : state) :
  honours_contract -> Forall range_ok rs ->
  exec schedule (Scan_start s rs) = Some st ->
  sync_inv s st /\ data_inv rs st.
Proof.
  intros Hc Hrs Hex.
  eapply (exec_invariant (fun st => sync_inv s st /\ data_inv rs st));
    [| |exact Hex].
  - intros t st1 st2 [I D] Hstep.
    split; [eapply sync_inv_step | eapply data_inv_step]; eassumption.
  - split; [apply sync_inv_start | now apply data_inv_start].
Qed.

(** At every moment of every run, whatever the pools and however often
    the client fails, as long as it never returns more than requested: no
    index has been handed to [processCert] twice, and none outside
    [[startIndex, endIndex)]; every index of the interval not handled yet
    is at exactly one place of the pipeline. *)
Lemma Scan_handles_at_most_once (fuel : nat) (schedule : list tid) (s : Scanner) (startIndex endIndex : Z) (st : state) :
  honours_contract ->
  in_int64 startIndex -> in_int64 endIndex ->
  0 < BatchSize (opts s) -> endIndex + BatchSize (opts s) <= 2 ^ 63 ->
  Scan fuel schedule s startIndex endIndex = Some st ->
  forall i,
    (hits (Some i) (handled st) <= once_in startIndex endIndex i)%nat
    /\ (hits (Some i) (handled st) + in_flight (Some i) st
        = once_in startIndex endIndex i)%nat.
Proof.
  intros Hc Hs He Hb Hsum HScan.
  destruct (Scan_interval _ _ _ _ _ _ Hs He Hb Hsum HScan)
    as (rs & Hex & Hok & _ & Hone & _).
  destruct (contract_run s rs schedule st Hc Hok Hex) as [_ D].
  intros i. pose proof (data_conserved _ _ D (Some i)) as Hcons.
  rewrite Hone in Hcons. split; [lia | exact Hcons].
Qed.

(** When [Scan] returns, with at least one processer and one fetcher and
    a client that never returns more than requested: nil is returned,
    [processCert] has been called exactly once with each index of
    [[startIndex, endIndex)] and with no other index, and the counter is
    the number of these calls. *)
Lemma Scan_exactly_once (fuel : nat) (schedule : list tid) (s : Scanner) (startIndex endIndex : Z) (st : state) (err : option string) :
  honours_contract ->
  in_int64 startIndex -> in_int64 endIndex ->
  0 < BatchSize (opts s) -> endIndex + BatchSize (opts s) <= 2 ^ 63 ->
  1 <= NumWorkers (opts s) -> 1 <= ParallelFetch (opts s) ->
  Scan fuel schedule s startIndex endIndex = Some st ->
  returned st err ->
  err = None
  /\ (forall i, hits (Some i) (handled st) = once_in startIndex endIndex i)
  /\ Z.of_nat (length (handled st)) = Z.max 0 (endIndex - startIndex)
  /\ certsProcessed (scanner st) = wrap64 (Z.max 0 (endIndex - startIndex)).
Proof.
  intros Hc Hs He Hb Hsum HN HF HScan Hret.
  destruct (Scan_interval _ _ _ _ _ _ Hs He Hb Hsum HScan)
    as (rs & Hex & Hok & Hall & Hone & _).
  destruct (contract_run s rs schedule st Hc Hok Hex) as [I D].
  destruct (returned_handled s rs st err I D HN HF Hret) as (Hnil & Hhits & Hcount).
  assert (Hlen : Z.of_nat (length (handled st)) = Z.max 0 (endIndex - startIndex)).
  { rewrite <- hits_None, Hhits, Hall. lia. }
  split; [exact Hnil|]. split; [|split; [exact Hlen|]].
  - intros i. now rewrite Hhits.
  - now rewrite Hcount, Hlen.
Qed.

Lemma productive_honours : productive -> honours_contract.
Proof.
  intros Hp c s e c' l Hget.
  destruct (Hp c s e) as (c1 & l1 & Hget1 & Hlen & _).
  rewrite Hget in Hget1. injection Hget1 as _ <-. exact Hlen.
Qed.

Lemma productive_progresses (st : state) : productive -> fetch_progresses st.
Proof.
  intros Hp id r _.
  destruct (Hp (logClient (scanner st)) (start r) (end_ r)) as (c & l & Hget & _ & Hne).
  exists c, l. split; [exact Hget|]. unfold width. intros Hw. apply Hne. lia.
Qed.


(** *** One fetcher, one processer: the order of the calls *)

Lemma single_lookup {A : Type} (l : list A) (id : nat) (x : A) :
  (length l <= 1)%nat -> l !! id = Some x -> l = [x] /\ id = 0%nat.
Proof.
  destruct l as [|a [|b l]]; cbn; intros Hlen Hl; try lia; [discriminate|].
  destruct id as [|id]; [|discriminate]. injection Hl as ->. auto.
Qed.

Lemma indices_advance (r : fetchRange) :
  range_ok r -> (0 < width r)%nat -> indices r = start r :: indices (advance r).
Proof.
  pure. unfold range_ok, width. intros [Hs He] Hw.
  rewrite advance_start by (unfold in_int64, min_int64, max_int64 in *; lia).
  unfold indices. cbn [start end_]. rewrite seqZ_cons by lia.
  f_equal. f_equal; lia.
Qed.

Lemma indices_empty (r : fetchRange) : width r = 0%nat -> indices r = [].
Proof. pure. unfold width, indices. intros Hw. apply seqZ_nil. lia. Qed.

Lemma seqZ_prefix (l k : list Z) (a m : Z) :
  l ++ k = seqZ a m -> l = seqZ a (Z.of_nat (length l)).
Proof.
  pure. revert a m. induction l as [|x l IH]; intros a m Heq; [reflexivity|].
  destruct (Z.le_gt_cases m 0) as [Hm|Hm].
  - rewrite seqZ_nil in Heq by exact Hm. discriminate.
  - rewrite seqZ_cons in Heq by lia. cbn [app] in Heq.
    injection Heq as -> Heq. apply IH in Heq.
    rewrite seqZ_cons by (cbn [length]; lia). f_equal.
    rewrite Heq at 1. f_equal. cbn [length]. lia.
Qed.

Lemma pools_single (o : ScannerOptions) (st : state) :
  NumWorkers o <= 1 -> ParallelFetch o <= 1 ->
  pools_started o st -> single_file st.
Proof.
  unfold pools_started, single_file. intros HN HF Hp.
  destruct (main st); lia.
Qed.

Lemma pipeline_order_step (rs : list fetchRange) (t : tid) (st st' : state) :
  single_file st -> data_inv rs st -> step t st = Some st' ->
  pipeline_order st' = pipeline_order st.
Proof.
  intros [Hone_f Hone_p] D Hstep.
  pose proof (data_fetchers _ _ D) as Hfs.
  step_cases Hstep; chan_facts.
  all: try (pose proof (Forall_lookup_1 _ _ _ _ Hfs Hpc) as Hok;
            cbn [fetcher_ok] in Hok).
  all: try (destruct (single_lookup _ _ _ Hone_f Hpc) as [Hl ->]).
  all: try (destruct (single_lookup _ _ _ Hone_p Hpc) as [Hl ->]).
  all: unfold pipeline_order; simpl_state; try rewrite Hmain; buf_rewrite;
    try rewrite Hl; cbn [unfed list_insert insert map concat processer_index fetcher_indices
                           reindex Index app];
    rewrite ?map_app, ?concat_app, ?app_nil_r; cbn [map concat app];
    rewrite <- ?app_assoc, ?app_nil_r; cbn [app]; try reflexivity.
  - now rewrite (indices_empty r) by now apply width_zero.
  - destruct Hok as [Hok Hlen]. cbn [length] in Hlen.
    now rewrite (indices_advance r Hok) by lia.
Qed.


(** *** What is printed *)

Lemma printed_step (s : Scanner) (t : tid) (st st' : state) :
  sync_inv s st ->
  Forall (fun line => warning_line s line \/ status_line s line) (printed st) ->
  step t st = Some st' ->
  Forall (fun line => warning_line s line \/ status_line s line) (printed st').
Proof.
  intros I Hp Hstep.
  pose proof (sync_opts _ _ I) as Hop. pose proof (sync_uri _ _ I) as Huri.
  step_cases Hstep; simpl_state; trivial.
  all: unfold Log, Warn in *; simpl_state; rewrite ?Hop, ?Huri.
  all: destruct (Quiet (opts s)) eqn:Hq; rewrite ?app_nil_r; trivial.
  all: rewrite ?Forall_app, ?Forall_singleton; split_and?; trivial.
  all: first [ right; split; [exact Hq | eexists; reflexivity]
             | left; unfold warning_line; eauto 10 ].
Qed.

(** Every line [Scan] and its goroutines print starts with the URI of the
    log, a colon and a space.  With [Quiet] set, nothing is printed but
    warnings, one for an error the client has returned; so a quiet scan
    against a client that never fails prints nothing at all. *)
Lemma Scan_prints (fuel : nat) (schedule : list tid) (s : Scanner) (startIndex endIndex : Z) (st : state) :
  Scan fuel schedule s startIndex endIndex = Some st ->
  Forall (fun line => exists msg, line = LogUri s +:+ ": " +:+ msg) (printed st)
  /\ (Quiet (opts s) = true -> Forall (warning_line s) (printed st))
  /\ (Quiet (opts s) = true ->
      (forall c a b c' err, GetEntries c a b <> (c', Err err)) ->
      printed st = []).
Proof.
  intros HScan. apply Scan_reachable in HScan. destruct HScan as (rs & _ & Hex).
  set (ok := fun line => warning_line s line \/ status_line s line).
  assert (HP : sync_inv s st /\ Forall ok (printed st)).
  { eapply (exec_invariant (fun st => sync_inv s st /\ Forall ok (printed st)));
      [| |exact Hex].
    - intros t st1 st2 [I Hq] Hstep.
      split; [eapply sync_inv_step | eapply printed_step]; eassumption.
    - split; [apply sync_inv_start|]. cbn. unfold Log.
      destruct (Quiet (opts s)) eqn:Hq; [constructor|].
      apply Forall_singleton. right. split; [exact Hq | eexists; reflexivity]. }
  destruct HP as [_ Hp]. split; [|split].
  - eapply Forall_impl; [exact Hp|]. cbn.
    intros line [(c & a & b & c' & err & _ & ->)|[_ Hmsg]]; eauto.
  - intros Hq. eapply Forall_impl; [exact Hp|]. cbn.
    intros line [Hw|[Hs _]]; [exact Hw | congruence].
  - intros Hq Hnever. destruct (printed st) as [|line rest]; [reflexivity|].
    exfalso. apply Forall_cons in Hp. destruct Hp as [Hline _].
    destruct Hline as [(c & a & b & c' & err & Hget & _)|[Hs _]].
    + exact (Hnever _ _ _ _ _ Hget).
    + congruence.
Qed.

(** *** The return *)

Lemma returned_quiescent (s : Scanner) (st : state) (err : option string) (t : tid) :
  sync_inv s st -> returned st err -> step t st = None.
Proof.
  intros I Hret. unfold returned in Hret.
  pose proof (sync_fetchers_gone _ _ I) as Hfg.
  pose proof (sync_processers_gone _ _ I) as Hpg.
  rewrite Hret in Hfg, Hpg. specialize (Hfg eq_refl). specialize (Hpg eq_refl).
  rewrite (sync_fetcherWG _ _ I) in Hfg. rewrite (sync_processorWG _ _ I) in Hpg.
  assert (Hfl : sum_list_with fetcher_live (fetcherJobs st) = 0%nat) by lia.
  assert (Hpl : sum_list_with processer_live (processerJobs st) = 0%nat) by lia.
  unfold step. rewrite (sync_alive _ _ I). destruct t as [|id|id].
  - unfold Scan_step. now rewrite Hret.
  - destruct (fetcherJobs st !! id) as [pc|] eqn:Hpc; [|reflexivity].
    pose proof (sum_list_with_zero fetcher_live _ _ _ Hfl Hpc) as Hl.
    destruct pc; try discriminate. reflexivity.
  - destruct (processerJobs st !! id) as [pc|] eqn:Hpc; [|reflexivity].
    pose proof (sum_list_with_zero processer_live _ _ _ Hpl Hpc) as Hl.
    destruct pc; try discriminate. reflexivity.
Qed.

Lemma report_inv_step (s : Scanner) (t : tid) (st st' : state) :
  sync_inv s st -> report_inv s st -> step t st = Some st' -> report_inv s st'.
Proof.
  intros I [mid Hp] Hstep.
  pose proof (sync_opts _ _ I) as Hop. pose proof (sync_uri _ _ I) as Huri.
  assert (Hnr : forall err, main st <> MReturn err).
  { intros err Hret. now rewrite (returned_quiescent s st err t I Hret) in Hstep. }
  assert (Hp' : printed st = Log s "Starting scan..." ++ mid).
  { rewrite Hp. destruct (main st); rewrite ?app_nil_r; trivial.
    now elim (Hnr err). }
  clear Hp. unfold report_inv.
  step_cases Hstep; simpl_state; try rewrite Hmain in *.
  all: try (now elim (Hnr err)).
  all: try (exists mid; now rewrite app_nil_r).
  all: try (destruct (main st) eqn:Hm; [..|exfalso; eapply Hnr; reflexivity]).
  all: try (rewrite Hp', <- ?app_assoc; eexists; rewrite app_nil_r; reflexivity).
  exists mid. rewrite Hp'. unfold Log, completion_line. simpl_state.
  rewrite Hop, Huri. destruct (Quiet (opts s)); now rewrite <- ?app_assoc.
Qed.

(** Once [Scan] has returned nothing moves any more -- every goroutine it
    started has returned before; the counter is the number of calls of
    [processCert] made; and unless [Quiet] is set, the first line printed
    is the start message and the last one the completion message, which
    reports that counter. *)
Lemma Scan_return (fuel : nat) (schedule : list tid) (s : Scanner) (startIndex endIndex : Z) (st : state) (err : option string) :
  Scan fuel schedule s startIndex endIndex = Some st ->
  returned st err ->
  (forall t, step t st = None)
  /\ fetchers_exited st /\ processers_exited st
  /\ certsProcessed (scanner st) = wrap64 (Z.of_nat (length (handled st)))
  /\ (Quiet (opts s) = false ->
      exists mid,
        printed st
        = [LogUri s +:+ ": " +:+ "Starting scan..."] ++ mid ++ [completion_line s st]).
Proof.
  intros HScan Hret. apply Scan_reachable in HScan.
  destruct HScan as (rs & _ & Hex).
  assert (HP : sync_inv s st /\ report_inv s st).
  { eapply (exec_invariant (fun st => sync_inv s st /\ report_inv s st));
      [| |exact Hex].
    - intros t st1 st2 [I Hq] Hstep.
      split; [eapply sync_inv_step | eapply report_inv_step]; eassumption.
    - split; [apply sync_inv_start|]. exists []. cbn. now rewrite app_nil_r. }
  destruct HP as [I [mid Hp]].
  pose proof (sync_phase_inv _ _ I) as Hph. unfold phase_inv in Hph.
  unfold returned in Hret. rewrite Hret in Hph, Hp.
  destruct Hph as (_ & _ & Hfe & Hpe).
  split; [intros t; eapply returned_quiescent; eassumption|].
  split; [exact Hfe|]. split; [exact Hpe|]. split.
  - rewrite (sync_counter _ _ I).
    assert (Hc : sum_list_with processer_counted (processerJobs st) = 0%nat).
    { clear -Hpe. unfold processers_exited in Hpe.
      induction Hpe as [|pc l -> _ IH]; [reflexivity|]. cbn. exact IH. }
    rewrite Hc. do 2 f_equal. lia.
  - intros Hq. exists mid. rewrite Hp. unfold Log. now rewrite Hq.
Qed.

(** *** A pool that is empty *)

Lemma Scan_batches (fuel : nat) (schedule : list tid) (s : Scanner) (startIndex endIndex : Z) (st : state) :
  in_int64 startIndex -> in_int64 endIndex ->
  0 < BatchSize (opts s) -> endIndex + BatchSize (opts s) <= 2 ^ 63 ->
  Scan fuel schedule s startIndex endIndex = Some st ->
  exec schedule (Scan_start s (batches startIndex endIndex (BatchSize (opts s))))
  = Some st.
Proof.
  intros Hs He Hb Hsum HScan. apply Scan_reachable in HScan.
  destruct HScan as (rs & Hrs & Hex).
  pose proof (Scan_ranges_batches (S (Z.to_nat (endIndex - startIndex)))
                startIndex endIndex (BatchSize (opts s)) Hs He Hb Hsum ltac:(lia))
    as Hl.
  now rewrite <- (Scan_ranges_det _ _ _ _ _ _ _ Hrs Hl).
Qed.

Lemma batches_length (startIndex endIndex batchSize : Z) :
  Z.of_nat (length (batches startIndex endIndex batchSize))
  = Z.max 0 (batch_count startIndex endIndex batchSize).
Proof. pure. unfold batches. rewrite length_map, length_seqZ. lia. Qed.

Lemma starved_inv_step (s : Scanner) (rs : list fetchRange) (t : tid) (st st' : state) :
  ParallelFetch (opts s) <= 0 ->
  sync_inv s st -> queues_bounded st -> starved_inv s rs st ->
  step t st = Some st' -> starved_inv s rs st'.
Proof.
  intros HF I [Hqf _] [Hfs Hw Hjb Hps Hh Hc Hcl Hq Hfit] Hstep.
  pose proof (sync_opts _ _ I) as Hop.
  step_cases Hstep; chan_facts.
  all: try (rewrite Hfs in Hpc; discriminate).
  all: try (pose proof (Forall_lookup_1 _ _ _ _ Hps Hpc) as Hok;
            unfold processer_over in Hok;
            destruct Hok as [Hok|[Hok|Hok]]; try discriminate).
  all: try congruence.
  all: try rewrite Hmain in *; cbn [unfed fetches_closed_at] in *.
  all: try (specialize (Hw _ _ eq_refl); subst w; rewrite Hop in *;
            match goal with
            | E : (0 <? _) = true |- _ => apply Z.ltb_lt in E; lia
            | _ => idtac
            end).
  all: constructor; simpl_state; try rewrite Hmain; cbn [unfed fetches_closed_at];
    trivial; try discriminate; try congruence.
  all: try (apply Forall_insert; [assumption|]; unfold processer_over; auto).
  all: try (apply Forall_app; split; [assumption|]; repeat constructor).
  all: try (intros _; buf_rewrite; rewrite ?length_app; cbn [length] in *;
            specialize (Hq eq_refl); lia).
Qed.

Lemma starved_run (s : Scanner) (rs : list fetchRange) (schedule : list tid) (st : state) :
  ParallelFetch (opts s) <= 0 ->
  exec schedule (Scan_start s rs) = Some st ->
  sync_inv s st /\ queues_bounded st /\ starved_inv s rs st.
Proof.
  intros HF Hex.
  eapply (exec_invariant
            (fun st => sync_inv s st /\ queues_bounded st /\ starved_inv s rs st));
    [| |exact Hex].
  - intros t st1 st2 (I & Hq & Hs) Hstep. split; [|split].
    + eapply sync_inv_step; eassumption.
    + eapply queues_bounded_step; eassumption.
    + eapply starved_inv_step; eassumption.
  - split; [apply sync_inv_start|]. split; [split; cbn; lia|].
    constructor; cbn; trivial; try discriminate.
Qed.

(** With [ParallelFetch] zero or negative no fetcher is started: the
    client is never called, [processCert] is never called, and the counter
    stays at zero, whatever the interval.  [Scan] does not complain: when
    the interval makes at most 1000 ranges, every run can be carried on to
    the return of [Scan], which returns nil. *)
Lemma Scan_no_fetchers (fuel : nat) (schedule : list tid) (s : Scanner) (startIndex endIndex : Z) (st : state) :
  ParallelFetch (opts s) <= 0 ->
  Scan fuel schedule s startIndex endIndex = Some st ->
  fetcherJobs st = []
  /\ logClient (scanner st) = logClient s
  /\ buf (jobs st) = []
  /\ handled st = []
  /\ certsProcessed (scanner st) = 0
  /\ (pools_typed (opts s) ->
      in_int64 startIndex -> in_int64 endIndex ->
      0 < BatchSize (opts s) -> endIndex + BatchSize (opts s) <= 2 ^ 63 ->
      endIndex - startIndex <= 1000 * BatchSize (opts s) ->
      exists schedule' st',
        Scan fuel (schedule ++ schedule') s startIndex endIndex = Some st'
        /\ returned st' None).
Proof.
  intros HF HScan. pose proof HScan as HScan0. apply Scan_reachable in HScan.
  destruct HScan as (rs & _ & Hex).
  destruct (starved_run s rs schedule st HF Hex) as (_ & _ & Hs).
  split; [exact (starved_fetchers _ _ _ Hs)|].
  split; [exact (starved_client _ _ _ Hs)|].
  split; [exact (starved_jobs _ _ _ Hs)|].
  split; [exact (starved_handled _ _ _ Hs)|].
  split; [exact (starved_counter _ _ _ Hs)|].
  intros Htyped Hsi Hei Hb Hsum Hfew. clear rs Hex Hs.
  pose proof (Scan_batches _ _ _ _ _ _ Hsi Hei Hb Hsum HScan0) as Hex.
  set (rs := batches startIndex endIndex (BatchSize (opts s))) in *.
  assert (Hlen : (length rs <= 1000)%nat).
  { pose proof (batches_length startIndex endIndex (BatchSize (opts s))) as Hl.
    fold rs in Hl. unfold batch_count in Hl.
    assert ((endIndex - startIndex + BatchSize (opts s) - 1) / BatchSize (opts s)
            <= 1000) by (Z.div_mod_to_equations; nia).
    lia. }
  set (P := fun st => sync_inv s st /\ counters_inv st /\ queues_bounded st
                      /\ starved_inv s rs st).
  assert (P_step : forall t st st', P st -> step t st = Some st' -> P st').
  { intros t st1 st2 (I & Hc & Hq & Hs) Hstep. split; [|split; [|split]].
    - eapply sync_inv_step; eassumption.
    - eapply counters_inv_step; eassumption.
    - eapply queues_bounded_step; eassumption.
    - eapply starved_inv_step; eassumption. }
  assert (P_weight : forall t st st', P st -> step t st = Some st' ->
                                      (weight st' < weight st)%nat).
  { intros t st1 st2 (I & Hc & Hq & Hs) Hstep.
    eapply weight_step; eauto.
    - rewrite (starved_fetchers _ _ _ Hs). constructor.
    - intros id r Hpc. rewrite (starved_fetchers _ _ _ Hs) in Hpc. discriminate. }
  assert (P_progress : forall st, P st ->
            (exists err, returned st err) \/ exists t st', step t st = Some st').
  { intros st1 (I & Hc & Hq & Hs).
    destruct (main st1) as [| |[|r rest]| | | | |] eqn:Hmain.
    4:{ right. exists Main. unfold step, Scan_step, send.
        rewrite (sync_alive _ _ I), Hmain.
        pose proof (sync_fetches_closed _ _ I) as Hcl. rewrite Hmain in Hcl.
        cbn in Hcl. rewrite Hcl, (sync_fetches_cap _ _ I).
        pose proof (starved_queue _ _ _ Hs) as Hqu. rewrite Hmain in Hqu.
        specialize (Hqu eq_refl). cbn [unfed length] in Hqu.
        destruct (Z.ltb_spec (Z.of_nat (length (buf (fetches st1)))) 1000);
          [eauto | lia]. }
    all: apply (progress s); [exact I|]; split;
      [ intros r' rest' Hm; congruence
      | intros id r' e l Hpc; rewrite (starved_fetchers _ _ _ Hs) in Hpc;
        discriminate ]. }
  assert (P0 : P (Scan_start s rs)).
  { split; [apply sync_inv_start|]. split; [cbn; lia|].
    split; [split; cbn; lia|]. constructor; cbn; trivial; try discriminate. }
  assert (HP : P st) by (eapply (exec_invariant P); eassumption).
  destruct (exec_completes P P_step P_weight P_progress st HP)
    as (schedule' & st' & err & Hex' & Hret').
  exists schedule', st'. split; [eapply Scan_extend; eassumption|].
  assert (HP' : P st') by (eapply (exec_invariant P); eassumption).
  destruct HP' as (I' & _).
  now rewrite (sync_return _ _ I' err Hret') in Hret'.
Qed.

(** With [ParallelFetch] zero or negative and an interval that makes more
    than 1000 ranges, [Scan] never returns: it blocks for ever on the
    send of line 207, the work queue being full and nobody there to
    empty it. *)
Lemma Scan_no_fetchers_blocks (fuel : nat) (schedule : list tid) (s : Scanner) (startIndex endIndex : Z) (st : state) :
  ParallelFetch (opts s) <= 0 ->
  in_int64 startIndex -> in_int64 endIndex ->
  0 < BatchSize (opts s) -> endIndex + BatchSize (opts s) <= 2 ^ 63 ->
  1000 * BatchSize (opts s) < endIndex - startIndex ->
  Scan fuel schedule s startIndex endIndex = Some st ->
  (forall err, ~ returned st err)
  /\ closed (fetches st) = false
  /\ (forall r rest,
        main st = MFeed (r :: rest) ->
        Z.of_nat (length (buf (fetches st))) = 1000 ->
        forall t, step t st = None).
Proof.
  intros HF Hsi Hei Hb Hsum Hmany HScan.
  pose proof (Scan_batches _ _ _ _ _ _ Hsi Hei Hb Hsum HScan) as Hex.
  set (rs := batches startIndex endIndex (BatchSize (opts s))) in *.
  assert (Hlen : (1000 < length rs)%nat).
  { pose proof (batches_length startIndex endIndex (BatchSize (opts s))) as Hl.
    fold rs in Hl. unfold batch_count in Hl.
    assert (1000 < (endIndex - startIndex + BatchSize (opts s) - 1)
                   / BatchSize (opts s))
      by (Z.div_mod_to_equations; nia).
    lia. }
  destruct (starved_run s rs schedule st HF Hex) as (I & [Hqf _] & Hs).
  assert (Hopen : fetches_closed_at (main st) = false).
  { destruct (fetches_closed_at (main st)) eqn:Hc; [|reflexivity].
    pose proof (starved_fits _ _ _ Hs Hc). lia. }
  split; [|split].
  - intros err Hret. unfold returned in Hret. rewrite Hret in Hopen. discriminate.
  - now rewrite (sync_fetches_closed _ _ I).
  - intros r rest Hmain Hfull t. unfold step.
    rewrite (sync_alive _ _ I). destruct t as [|id|id].
    + unfold Scan_step, send.
      rewrite Hmain, (sync_fetches_closed _ _ I), Hopen, (sync_fetches_cap _ _ I).
      destruct (Z.ltb_spec (Z.of_nat (length (buf (fetches st)))) 1000);
        [lia | reflexivity].
    + now rewrite (starved_fetchers _ _ _ Hs).
    + destruct (processerJobs st !! id) as [pc|] eqn:Hpc; [|reflexivity].
      pose proof (sync_jobs_closed _ _ I) as Hjc. rewrite Hmain in Hjc. cbn in Hjc.
      pose proof (Forall_lookup_1 _ _ _ _ (starved_processers _ _ _ Hs) Hpc) as Hok.
      destruct Hok as [->|Hover].
      * cbn [processerJob]. unfold recv.
        now rewrite (starved_jobs _ _ _ Hs), Hjc.
      * destruct (sync_processer_over _ _ I _ _ Hpc Hover). congruence.
Qed.

Lemma unhandled_inv_step (s : Scanner) (t : tid) (st st' : state) :
  NumWorkers (opts s) <= 0 ->
  sync_inv s st -> unhandled_inv st -> step t st = Some st' -> unhandled_inv st'.
Proof.
  intros HN I [Hps Hw Hh Hc] Hstep. pose proof (sync_opts _ _ I) as Hop.
  step_cases Hstep.
  all: try (rewrite Hps in Hpc; discriminate).
  all: try rewrite Hmain in *.
  all: try (specialize (Hw _ _ eq_refl); subst w; rewrite Hop in *;
            match goal with
            | E : (0 <? _) = true |- _ => apply Z.ltb_lt in E; lia
            | _ => idtac
            end).
  all: constructor; simpl_state; try rewrite Hmain; trivial; try discriminate.
Qed.

(** With [NumWorkers] zero or negative no processer is started:
    [processCert] is never called and the counter stays at zero, while the
    fetchers fetch all the same.  If [Scan] returns -- it cannot when the
    interval holds more than 100000 indices, the entry queue being full
    with nobody to empty it -- it returns nil and leaves the entries of
    the whole interval in the entry queue, one for each index. *)
Lemma Scan_no_processers (fuel : nat) (schedule : list tid) (s : Scanner) (startIndex endIndex : Z) (st : state) :
  NumWorkers (opts s) <= 0 ->
  Scan fuel schedule s startIndex endIndex = Some st ->
  processerJobs st = []
  /\ handled st = []
  /\ certsProcessed (scanner st) = 0
  /\ (honours_contract -> 1 <= ParallelFetch (opts s) ->
      in_int64 startIndex -> in_int64 endIndex ->
      0 < BatchSize (opts s) -> endIndex + BatchSize (opts s) <= 2 ^ 63 ->
      forall err, returned st err ->
        err = None
        /\ (forall i, hits (Some i) (buf (jobs st)) = once_in startIndex endIndex i)
        /\ Z.of_nat (length (buf (jobs st))) = Z.max 0 (endIndex - startIndex)
        /\ endIndex - startIndex <= 100000).
Proof.
  intros HN HScan. pose proof HScan as HScan0. apply Scan_reachable in HScan.
  destruct HScan as (rs0 & _ & Hex0).
  assert (HP : sync_inv s st /\ queues_bounded st /\ unhandled_inv st).
  { eapply (exec_invariant
              (fun st => sync_inv s st /\ queues_bounded st /\ unhandled_inv st));
      [| |exact Hex0].
    - intros t st1 st2 (I & Hq & Hu) Hstep. split; [|split].
      + eapply sync_inv_step; eassumption.
      + eapply queues_bounded_step; eassumption.
      + eapply unhandled_inv_step; eassumption.
    - split; [apply sync_inv_start|]. split; [split; cbn; lia|].
      constructor; cbn; trivial. now intros w ranges [= <- _]. }
  destruct HP as (I & [_ Hqj] & [Hps _ Hh Hc]).
  split; [exact Hps|]. split; [exact Hh|]. split; [exact Hc|].
  intros Hcontract HF Hsi Hei Hb Hsum err Hret.
  destruct (Scan_interval _ _ _ _ _ _ Hsi Hei Hb Hsum HScan0)
    as (rs & Hex & Hok & Hall & Hone & _).
  destruct (contract_run s rs schedule st Hcontract Hok Hex) as [_ D].
  unfold returned in Hret.
  pose proof (sync_pools _ _ I) as Hp. unfold pools_inv in Hp.
  rewrite Hret, (sync_opts _ _ I) in Hp. destruct Hp as [_ Hfs]. specialize (Hfs HF).
  pose proof (sync_fetchers_gone _ _ I) as Hfg. rewrite Hret in Hfg.
  specialize (Hfg eq_refl). rewrite (sync_fetcherWG _ _ I) in Hfg.
  assert (Hfl : sum_list_with fetcher_live (fetcherJobs st) = 0%nat) by lia.
  assert (Hfetches : buf (fetches st) = []).
  { destruct (lookup_lt_is_Some_2 (fetcherJobs st) 0%nat Hfs) as [pc Hpc].
    pose proof (sum_list_with_zero _ _ _ _ Hfl Hpc) as Hl.
    destruct pc; try discriminate.
    apply (sync_fetcher_over _ _ I _ _ Hpc). right; reflexivity. }
  assert (Hin : forall q, hits q (buf (jobs st)) = spans q rs).
  { intros q. rewrite <- (data_conserved _ _ D q).
    assert (Ho : sum_list_with (fetcher_owes q) (fetcherJobs st) = 0%nat).
    { apply (sum_list_with_zero_impl fetcher_live); [|exact Hfl].
      intros []; cbn; congruence. }
    unfold in_flight. rewrite Hps, Hfetches, Hret, Ho, Hh.
    unfold hits, spans. simpl. lia. }
  assert (Hlen : Z.of_nat (length (buf (jobs st))) = Z.max 0 (endIndex - startIndex)).
  { rewrite <- hits_None, Hin, Hall. lia. }
  split; [exact (sync_return _ _ I _ Hret)|].
  split; [intros i; now rewrite Hin|]. split; [exact Hlen | lia].
Qed.

(** *** No deadlock *)

(** With at least one processer and one fetcher [Scan] never deadlocks,
    whatever the client does and however the goroutines are scheduled:
    as long as [Scan] has not returned, some goroutine can take a step. *)
Lemma Scan_never_deadlocks (fuel : nat) (schedule : list tid) (s : Scanner) (startIndex endIndex : Z) (st : state) :
  1 <= NumWorkers (opts s) -> 1 <= ParallelFetch (opts s) ->
  Scan fuel schedule s startIndex endIndex = Some st ->
  (exists err, returned st err) \/ exists t st', step t st = Some st'.
Proof.
  intros HN HF HScan. apply Scan_reachable in HScan.
  destruct HScan as (rs & _ & Hex).
  assert (I : sync_inv s st) by (eapply reachable_sync_inv; eexists; exact Hex).
  apply (progress s); [exact I|]. now apply (pools_suffice_sync s).
Qed.

(** *** A client that delivers nothing *)

Lemma delivers_nothing_honours : delivers_nothing -> honours_contract.
Proof.
  intros Hn c s e c' l Hget. rewrite (Hn _ _ _ _ _ Hget). cbn. lia.
Qed.

Lemma barren_inv_step (t : tid) (st st' : state) :
  delivers_nothing ->
  barren_inv st -> step t st = Some st' -> barren_inv st'.
Proof.
  intros Hn [Hfs Hjb Hps Hh Hc] Hstep.
  step_cases Hstep; chan_facts.
  all: try (pose proof (Forall_lookup_1 _ _ _ _ Hfs Hpc) as Hok;
            cbn [fetcher_sends] in Hok; try discriminate).
  all: try (pose proof (Forall_lookup_1 _ _ _ _ Hps Hpc) as Hok;
            unfold processer_over in Hok;
            destruct Hok as [Hok|[Hok|Hok]]; try discriminate).
  all: try congruence.
  all: try match goal with
         | E : GetEntries _ _ _ = (_, Ok ?l) |- _ =>
             pose proof (Hn _ _ _ _ _ E); subst l
         end.
  all: constructor; simpl_state; trivial; try congruence.
  all: try (apply Forall_insert; [assumption|]; unfold processer_over; auto).
  all: try (apply Forall_app; split; [assumption|]; repeat constructor).
Qed.

(** With a client whose every call fails or returns no entry -- a log
    that cannot be reached -- at least one fetcher and an interval that is
    not empty, [Scan] never returns: there is no limit on the retries and
    no timeout.  Meanwhile [processCert] is never called and the counter
    stays at zero. *)
Lemma Scan_hangs_without_entries (fuel : nat) (schedule : list tid) (s : Scanner) (startIndex endIndex : Z) (st : state) :
  delivers_nothing ->
  1 <= ParallelFetch (opts s) ->
  in_int64 startIndex -> in_int64 endIndex ->
  0 < BatchSize (opts s) -> endIndex + BatchSize (opts s) <= 2 ^ 63 ->
  startIndex < endIndex ->
  Scan fuel schedule s startIndex endIndex = Some st ->
  buf (jobs st) = []
  /\ handled st = []
  /\ certsProcessed (scanner st) = 0
  /\ forall err, ~ returned st err.
Proof.
  intros Hn HF Hsi Hei Hb Hsum Hlt HScan.
  destruct (Scan_interval _ _ _ _ _ _ Hsi Hei Hb Hsum HScan)
    as (rs & Hex & Hok & Hall & _).
  destruct (contract_run s rs schedule st (delivers_nothing_honours Hn) Hok Hex)
    as [I D].
  assert (B : barren_inv st).
  { eapply (exec_invariant barren_inv); [| |exact Hex].
    - intros t st1 st2. now apply barren_inv_step.
    - constructor; cbn; trivial. }
  destruct B as [_ Hjb Hps Hh Hc].
  split; [exact Hjb|]. split; [exact Hh|]. split; [exact Hc|].
  intros err Hret. unfold returned in Hret.
  pose proof (sync_pools _ _ I) as Hp. unfold pools_inv in Hp.
  rewrite Hret, (sync_opts _ _ I) in Hp. destruct Hp as [_ Hfs]. specialize (Hfs HF).
  pose proof (sync_fetchers_gone _ _ I) as Hfg. rewrite Hret in Hfg.
  specialize (Hfg eq_refl). rewrite (sync_fetcherWG _ _ I) in Hfg.
  assert (Hfl : sum_list_with fetcher_live (fetcherJobs st) = 0%nat) by lia.
  assert (Hfetches : buf (fetches st) = []).
  { destruct (lookup_lt_is_Some_2 (fetcherJobs st) 0%nat Hfs) as [pc Hpc].
    pose proof (sum_list_with_zero _ _ _ _ Hfl Hpc) as Hl.
    destruct pc; try discriminate.
    apply (sync_fetcher_over _ _ I _ _ Hpc). right; reflexivity. }
  pose proof (data_conserved _ _ D None) as Hcons.
  assert (Ho : sum_list_with (fetcher_owes None) (fetcherJobs st) = 0%nat).
  { apply (sum_list_with_zero_impl fetcher_live); [|exact Hfl].
    intros []; cbn; congruence. }
  assert (Hhold : sum_list_with (processer_holds None) (processerJobs st) = 0%nat).
  { clear -Hps. induction Hps as [|pc l Hpc _ IH]; [reflexivity|].
    cbn [sum_list_with]. rewrite IH.
    destruct Hpc as [->|[->| ->]]; reflexivity. }
  unfold in_flight in Hcons.
  rewrite Hjb, Hfetches, Hret, Ho, Hhold, Hh, Hall in Hcons.
  unfold hits, spans in Hcons. cbn in Hcons. lia.
Qed.

End Scanner.

(** * Concrete runs

    A log of entries without content, served by a client without state
    that returns every requested range in full (stamping each entry with
    an index the scanner does not trust), a client that refuses every
    call, and a scanner whose counter is left over from an earlier scan. *)

Abbreviation full_client :=
  (fun (c : unit) (s e : Z) =>
     (c, Ok (map (fun _ : Z => {| Index := -1; Leaf := tt |})
               (seqZ s (e - s + 1))))).

Abbreviation failing_client :=
  (fun (c : unit) (s e : Z) =>
     (c, @Err (list (@LogEntry unit)) "connection refused")).

Abbreviation scanner_with o :=
  {| LogUri := "log"; logClient := tt; opts := o; certsProcessed := 7 |}.

Abbreviation one_worker_each := (scanner_with DefaultScannerOptions).

(** [Scan] starts its goroutines and sends [n] ranges. *)
Abbreviation starting n := ([Main; Main; Main; Main] ++ replicate n Main).

(** The fetcher serves a range of [n] entries. *)
Abbreviation serving n :=
  ([Fetcher 0; Fetcher 0] ++ replicate n (Fetcher 0) ++ [Fetcher 0]).

(** The processer takes, counts and handles [n] entries. *)
Abbreviation handling n :=
  (concat (replicate n [Processer 0; Processer 0; Processer 0])).

(** A whole run with one fetcher and one processer: [ranges] ranges of
    [batch] entries each. *)
Abbreviation whole_run ranges batch :=
  (starting ranges ++ [Main]
   ++ concat (replicate ranges (serving batch))
   ++ [Fetcher 0; Fetcher 0; Main; Main]
   ++ handling (ranges * batch)
   ++ [Processer 0; Processer 0; Main; Main]).

Example humanTime_3725 : humanTime 3725 = "1 hours 2 minutes 5 seconds ".
Proof. reflexivity. Qed.

Example humanTime_0 : humanTime 0 = "".
Proof. reflexivity. Qed.

Example Scan_ranges_5000 :
  Scan_ranges 6 0 5000 1000
  = Some [ {| start := 0; end_ := 999 |}; {| start := 1000; end_ := 1999 |};
           {| start := 2000; end_ := 2999 |}; {| start := 3000; end_ := 3999 |};
           {| start := 4000; end_ := 4999 |} ].
Proof. reflexivity. Qed.

Example Scan_ranges_short_tail :
  Scan_ranges 4 3 10 4
  = Some [ {| start := 3; end_ := 6 |}; {| start := 7; end_ := 9 |} ].
Proof. reflexivity. Qed.

Example Scan_0_6_by_3 :
  match Scan full_client 3 3 (whole_run 2 3)%nat
          (scanner_with {| BatchSize := 3; NumWorkers := 1; ParallelFetch := 1;
                           Quiet := false |}) 0 6 with
  | Some st =>
      main st = MReturn None
      /\ map Index (handled st) = [0; 1; 2; 3; 4; 5]
      /\ certsProcessed (scanner st) = 6
      /\ printed st
         = [ "log: Starting scan..."; "log: Fetching entries 0 to 2";
             "log: Fetching entries 3 to 5"; "log: Fetcher 0 finished";
             "log: Processor 0 finished"; "log: Completed 6 certs in 3 seconds " ]
  | None => False
  end.
Proof. vm_compute. repeat split. Qed.

Lemma full_client_returns_full_range : returns_full_range full_client.
Proof.
  intros c s e. eexists _, _. split; [reflexivity|].
  rewrite length_map, length_seqZ. lia.
Qed.

Lemma failing_client_always_fails : always_fails failing_client.
Proof. intros c s e. eexists _, _. reflexivity. Qed.

(** ** C1 *)

Lemma Scan_ranges_partition_witness :
  exists l,
    (forall fuel, (Z.to_nat (5000 - 0) < fuel)%nat ->
                  Scan_ranges fuel 0 5000 1000 = Some l)
    /\ partition_contract 0 5000 1000 l
    /\ Forall (fun r => start r <= end_ r) l.
Proof.
  apply (Scan_ranges_partition 0 5000 1000);
    unfold in_int64, min_int64, max_int64; lia.
Defined.

(** [Scan(1, 2, ...)] with the largest batch size: [start + batchSize]
    overflows in the first turn of the loop, which then pushes three
    ranges, the first running from 1 to the largest [int64]. *)
Lemma Scan_ranges_overflow :
  1 < 2 /\ 0 < max_int64 /\ in_int64 1 /\ in_int64 2 /\ in_int64 max_int64
  /\ Scan_ranges 4 1 2 max_int64
     = Some [ {| start := 1; end_ := max_int64 |};
              {| start := min_int64; end_ := -2 |};
              {| start := -1; end_ := 1 |} ]
  /\ ~ exists fuel l,
         Scan_ranges fuel 1 2 max_int64 = Some l
         /\ partition_contract 1 2 max_int64 l.
Proof.
  assert (Hrun : Scan_ranges 4 1 2 max_int64
                 = Some [ {| start := 1; end_ := max_int64 |};
                          {| start := min_int64; end_ := -2 |};
                          {| start := -1; end_ := 1 |} ]) by (vm_compute; reflexivity).
  do 5 (split; [unfold in_int64, min_int64, max_int64; lia|]).
  split; [exact Hrun|].
  intros (fuel & l & Hl & _ & Hadj & _).
  rewrite <- (Scan_ranges_det _ _ _ _ _ _ _ Hrun Hl) in Hadj.
  specialize (Hadj 0%nat _ _ eq_refl eq_refl). vm_compute in Hadj. discriminate.
Qed.

(** ** C2 *)

Lemma fetcherJob_serves_range_witness :
  let r := {| start := 10; end_ := 14 |} in
  let responses :=
    [ Ok [ {| Index := 0; Leaf := "a" |}; {| Index := 0; Leaf := "b" |} ];
      Err "timeout";
      Ok [ {| Index := 7; Leaf := "c" |}; {| Index := 7; Leaf := "d" |};
           {| Index := 7; Leaf := "e" |} ] ] in
  sent (fetchLoop r responses)
  = [ {| Index := 10; Leaf := "a" |}; {| Index := 11; Leaf := "b" |};
      {| Index := 12; Leaf := "c" |}; {| Index := 13; Leaf := "d" |};
      {| Index := 14; Leaf := "e" |} ]
  /\ requests (fetchLoop r responses) = [(10, 14); (12, 14); (12, 14)]
  /\ (pending (fetchLoop r responses) = None ->
      map Index (sent (fetchLoop r responses)) = indices r).
Proof.
  intros r responses. split; [reflexivity|]. split; [reflexivity|].
  apply (fetcherJob_serves_range r responses); subst r responses.
  - unfold in_int64, min_int64, max_int64. cbn. lia.
  - cbn. lia.
  - unfold max_int64. cbn. lia.
  - vm_compute. intuition discriminate.
Defined.

(** A range ending at the largest [int64]: after the only entry of the
    range [r.start++] wraps around, the test of line 97 fails, and the
    worker asks for the range from the smallest to the largest [int64]. *)
Lemma fetcherJob_wraps_at_max_int64 :
  let r := {| start := max_int64; end_ := max_int64 |} in
  let responses :=
    [ Ok [ {| Index := 0; Leaf := tt |} ]; Ok [ {| Index := 0; Leaf := tt |} ] ] in
  in_int64 (start r) /\ start r <= end_ r /\ in_int64 (end_ r)
  /\ honours r responses
  /\ Z.of_nat (length (delivered responses)) >= end_ r - start r + 1
  /\ map Index (sent (fetchLoop r responses)) = [max_int64; min_int64]
  /\ requests (fetchLoop r responses)
     = [(max_int64, max_int64); (min_int64, max_int64)]
  /\ pending (fetchLoop r responses)
     = Some {| start := min_int64 + 1; end_ := max_int64 |}
  /\ map Index (sent (fetchLoop r responses)) <> indices r.
Proof.
  cbv zeta. unfold in_int64.
  repeat split; try (vm_compute; congruence); cbn; unfold max_int64, min_int64; lia.
Qed.

(** ** C3 *)

Lemma Scan_handles_every_index_once_witness :
  exists st,
    Scan full_client 3 6 (whole_run 5 1000)%nat one_worker_each 0 5000 = Some st
    /\ returned st None
    /\ (forall i, hits (Some i) (handled st)
                  = if (0 <=? i) && (i <? 5000) then 1%nat else 0%nat)
    /\ Z.of_nat (length (handled st)) = 5000
    /\ certsProcessed (scanner st) = 5000.
Proof.
  assert (Hrun : exists st,
             Scan full_client 3 6 (whole_run 5 1000)%nat one_worker_each 0 5000
             = Some st /\ returned st None).
  { vm_compute. eexists. split; reflexivity. }
  destruct Hrun as (st & E & Hret).
  exists st. split; [exact E|]. split; [exact Hret|].
  destruct (Scan_handles_every_index_once full_client 3 one_worker_each)
    as [_ H].
  - exact full_client_returns_full_range.
  - reflexivity.
  - unfold pools_typed, max_int64. cbn. lia.
  - cbn. lia.
  - cbn. lia.
  - destruct (H _ _ _ E) as (Hdone & _). destruct (Hdone None Hret) as (_ & Hall).
    exact Hall.
Defined.

(** Without a fetcher nobody takes the ranges from the work queue: [Scan]
    sends them, closes both queues and returns, and no entry has been
    handled. *)
Lemma Scan_without_fetchers :
  let s := scanner_with {| BatchSize := 1000; NumWorkers := 1; ParallelFetch := 0;
                           Quiet := false |} in
  returns_full_range full_client
  /\ BatchSize (opts s) = 1000
  /\ match Scan full_client 3 6
             ([Main; Main; Main] ++ replicate 5 Main
              ++ [Main; Main; Main; Processer 0; Processer 0; Main; Main])
             s 0 5000 with
     | Some st =>
         returned st None /\ handled st = [] /\ certsProcessed (scanner st) = 0
         /\ length (buf (fetches st)) = 5%nat
     | None => False
     end.
Proof.
  cbv zeta. split; [exact full_client_returns_full_range|].
  split; [reflexivity|]. vm_compute. repeat split.
Qed.

(** ** C4 *)

Lemma certsProcessed_counted_by_processer_witness :
  match exec full_client 3 (starting 1 ++ [Fetcher 0; Fetcher 0; Fetcher 0; Processer 0])%nat
          (Scan_start one_worker_each [ {| start := 0; end_ := 0 |} ]) with
  | Some st =>
      processerJobs st !! 0%nat = Some (PCount {| Index := 0; Leaf := tt |})
      /\ certsProcessed (scanner st) = 0
      /\ forall st', step full_client 3 (Processer 0) st = Some st' ->
                     certsProcessed (scanner st') = 1
                     /\ processerJobs st' !! 0%nat
                        = Some (PCall {| Index := 0; Leaf := tt |})
                     /\ handled st' = []
  | None => False
  end.
Proof.
  destruct (exec full_client 3 _ _) as [st|] eqn:E; [|vm_compute in E; discriminate].
  assert (Hpc : processerJobs st !! 0%nat = Some (PCount {| Index := 0; Leaf := tt |})).
  { vm_compute in E. injection E as <-. reflexivity. }
  assert (Hc : certsProcessed (scanner st) = 0).
  { vm_compute in E. injection E as <-. reflexivity. }
  assert (Hh : handled st = []).
  { vm_compute in E. injection E as <-. reflexivity. }
  split; [exact Hpc|]. split; [exact Hc|].
  intros st' Hstep.
  destruct (certsProcessed_counted_by_processer full_client 3 one_worker_each
              _ st (ex_intro _ _ E)) as [_ H].
  specialize (H (Processer 0) st' Hstep). cbv beta iota in H.
  rewrite Hpc in H. destruct H as (H1 & H2 & H3 & _).
  rewrite H1, Hc, H3, Hh. auto.
Defined.

(** The fetcher delivers the entry of index 0 to the entry queue and the
    counter stays at zero; it becomes one when the processer has taken
    the entry, before [processCert] is called. *)
Lemma certsProcessed_not_counted_at_delivery :
  match exec full_client 3 (starting 1 ++ [Fetcher 0; Fetcher 0])%nat
          (Scan_start one_worker_each [ {| start := 0; end_ := 0 |} ]) with
  | Some st =>
      fetcherJobs st !! 0%nat
      = Some (FPush {| start := 0; end_ := 0 |} [ {| Index := -1; Leaf := tt |} ])
      /\ buf (jobs st) = []
      /\ match step full_client 3 (Fetcher 0) st with
         | Some st' =>
             buf (jobs st') = [ {| Index := 0; Leaf := tt |} ]
             /\ certsProcessed (scanner st') = certsProcessed (scanner st)
             /\ certsProcessed (scanner st')
                <> wrap64 (certsProcessed (scanner st) + 1)
             /\ match exec full_client 3 [Processer 0; Processer 0] st' with
                | Some st'' =>
                    certsProcessed (scanner st'')
                    = wrap64 (certsProcessed (scanner st') + 1)
                    /\ handled st'' = []
                | None => False
                end
         | None => False
         end
  | None => False
  end.
Proof. vm_compute. repeat split; discriminate. Qed.

(** ** C5 *)

Lemma Scan_empty_interval_witness :
  match Scan full_client 3 1 (whole_run 0 0)%nat one_worker_each 5 5 with
  | Some st =>
      returned st None /\ handled st = [] /\ certsProcessed (scanner st) = 0
  | None => False
  end.
Proof.
  destruct (Scan full_client 3 1 (whole_run 0 0)%nat one_worker_each 5 5)
    as [st|] eqn:E; [|vm_compute in E; discriminate].
  split; [vm_compute in E; injection E as <-; reflexivity|].
  destruct (Scan_empty_interval full_client 3 one_worker_each 5 5) as [_ H].
  - lia.
  - unfold pools_typed, max_int64. cbn. lia.
  - destruct (H _ _ _ E) as (Hh & Hc & _). auto.
Defined.

(** A batch size of zero: the loop pushes the range from 0 to -1 and
    starts again from 0, and never ends. *)
Lemma Scan_ranges_zero_batch_runs_on (fuel : nat) : Scan_ranges fuel 0 1 0 = None.
Proof.
  induction fuel as [|fuel IH]; [reflexivity|].
  cbn [Scan_ranges]. change (0 <? 1) with true. cbv iota.
  change (wrap64 (wrap64 (min (wrap64 (0 + 0)) 1 - 1) + 1)) with 0.
  now rewrite IH.
Qed.

Lemma Scan_zero_batch_size :
  (0 >= 1 \/ 0 <= 0)
  /\ (forall fuel, Scan_ranges fuel 0 1 0 = None)
  /\ ~ (exists fuel, Scan_ranges fuel 0 1 0 = Some [])
  /\ forall fuel schedule,
       Scan full_client 3 fuel schedule
         (scanner_with {| BatchSize := 0; NumWorkers := 1; ParallelFetch := 1;
                          Quiet := false |}) 0 1 = None.
Proof.
  split; [lia|]. split; [exact Scan_ranges_zero_batch_runs_on|]. split.
  - intros [fuel H]. rewrite Scan_ranges_zero_batch_runs_on in H. discriminate.
  - intros fuel schedule. unfold Scan. cbn [opts BatchSize].
    now rewrite Scan_ranges_zero_batch_runs_on.
Qed.

(** ** C6 *)

Lemma fetcherJob_retries_witness :
  match exec failing_client 3 (starting 1 ++ [Fetcher 0])%nat
          (Scan_start one_worker_each [ {| start := 0; end_ := 9 |} ]) with
  | Some st =>
      exists st',
        exec failing_client 3 (replicate 1000 (Fetcher 0)) st = Some st'
        /\ fetcherJobs st' !! 0%nat = Some (FGet {| start := 0; end_ := 9 |})
        /\ jobs st' = jobs st /\ handled st' = handled st
  | None => False
  end.
Proof.
  destruct (exec failing_client 3 _ _) as [st|] eqn:E; [|vm_compute in E; discriminate].
  destruct (fetcherJob_retries failing_client 3 one_worker_each _ st (ex_intro _ _ E))
    as (_ & H & _).
  apply H; [exact failing_client_always_fails|].
  vm_compute in E. injection E as <-. reflexivity.
Defined.

Example fetcherJob_warns :
  match exec failing_client 3 (starting 1 ++ [Fetcher 0; Fetcher 0; Fetcher 0])%nat
          (Scan_start one_worker_each [ {| start := 0; end_ := 9 |} ]) with
  | Some st =>
      printed st
      = [ "log: Starting scan...";
          "log: Fetching entries 0 to 9";
          "log: Problem fetching from log: connection refused";
          "log: Fetching entries 0 to 9";
          "log: Problem fetching from log: connection refused" ]
  | None => False
  end.
Proof. reflexivity. Qed.

(** ** C7 *)

Lemma Scan_shutdown_order_witness :
  match exec full_client 3 (starting 2 ++ [Main] ++ serving 1 ++ serving 1
                            ++ [Fetcher 0; Fetcher 0; Main; Main])%nat
          (Scan_start one_worker_each
             [ {| start := 0; end_ := 0 |}; {| start := 1; end_ := 1 |} ]) with
  | Some st =>
      main st = MWaitProcessers
      /\ phase_inv st
      /\ fed full_client 3
           (starting 2 ++ [Main] ++ serving 1 ++ serving 1
            ++ [Fetcher 0; Fetcher 0; Main; Main])%nat
           (Scan_start one_worker_each
              [ {| start := 0; end_ := 0 |}; {| start := 1; end_ := 1 |} ])
         = [ {| start := 0; end_ := 0 |}; {| start := 1; end_ := 1 |} ]
      /\ (closed (jobs st) = true ->
          closed (fetches st) = true /\ fetchers_exited st)
  | None => False
  end.
Proof.
  destruct (exec full_client 3 _ _) as [st|] eqn:E; [|vm_compute in E; discriminate].
  split; [vm_compute in E; injection E as <-; reflexivity|].
  assert (Hclosed : closed (fetches st) = true).
  { vm_compute in E. injection E as <-. reflexivity. }
  destruct (Scan_shutdown_order full_client 3 one_worker_each _ _ st E)
    as (Hphase & _ & Hfed & Hjobs & _).
  auto.
Defined.

(** ** C8 *)

Lemma TreeSize_propagates_witness :
  TreeSize (fun c : unit => (c, Ok {| STH_TreeSize := 123456789 |})) one_worker_each
  = (one_worker_each, (123456789, None))
  /\ TreeSize (fun c : unit => (c, Err "no route to host")) one_worker_each
     = (one_worker_each, (0, Some "no route to host")).
Proof.
  split.
  - apply (proj1 (TreeSize_propagates
                    (fun c : unit => (c, Ok {| STH_TreeSize := 123456789 |}))
                    one_worker_each) tt {| STH_TreeSize := 123456789 |}).
    + reflexivity.
    + unfold in_int64, min_int64, max_int64. cbn. lia.
  - apply (proj2 (proj2 (TreeSize_propagates
                           (fun c : unit => (c, Err "no route to host"))
                           one_worker_each)) tt "no route to host").
    reflexivity.
Defined.

(** A log of 2^63 entries: [GetSTH] succeeds with that size, which the
    unsigned field holds, and [TreeSize] returns the smallest [int64], a
    negative number, with a nil error; the largest size the field holds,
    2^64 - 1, comes back as -1. *)
Lemma TreeSize_wraps_from_2_63 :
  0 <= 2 ^ 63 < 2 ^ 64
  /\ TreeSize (fun c : unit => (c, Ok {| STH_TreeSize := 2 ^ 63 |})) one_worker_each
     = (one_worker_each, (min_int64, None))
  /\ min_int64 <> 2 ^ 63
  /\ TreeSize (fun c : unit => (c, Ok {| STH_TreeSize := 2 ^ 64 - 1 |})) one_worker_each
     = (one_worker_each, (-1, None))
  /\ ~ (forall (GetSTH : unit -> unit * result SignedTreeHead) c sth,
          GetSTH tt = (c, Ok sth) ->
          TreeSize GetSTH one_worker_each
          = (with_logClient one_worker_each c, (STH_TreeSize sth, None))).
Proof.
  split; [lia|]. split; [reflexivity|].
  split; [unfold min_int64; lia|]. split; [reflexivity|].
  intros H.
  specialize (H (fun c : unit => (c, Ok {| STH_TreeSize := 2 ^ 63 |})) tt
                {| STH_TreeSize := 2 ^ 63 |} eq_refl).
  vm_compute in H. discriminate.
Qed.

(** ** C9 *)

Lemma Scan_returns_nil_witness :
  match Scan failing_client 3 1 (whole_run 0 0)%nat one_worker_each 9 3 with
  | Some st => exists err, returned st err /\ err = None
  | None => False
  end.
Proof.
  destruct (Scan failing_client 3 1 (whole_run 0 0)%nat one_worker_each 9 3)
    as [st|] eqn:E; [|vm_compute in E; discriminate].
  assert (Hret : returned st None).
  { vm_compute in E. injection E as <-. reflexivity. }
  exists None. split; [exact Hret|].
  exact (Scan_returns_nil failing_client 3 _ _ _ _ _ st None E Hret).
Defined.

(** ** C10 *)

Lemma humanTime_correct_witness :
  0 <= 86399 <= humanTime_limit
  /\ humanTime 86399 = humanTime_spec 86399.
Proof.
  assert (H : 0 <= 86399 <= humanTime_limit) by (unfold humanTime_limit; lia).
  split; [exact H | exact (humanTime_correct 86399 H)].
Defined.

(** One second past the limit the nanosecond count no longer fits an
    [int64]: it wraps to a negative number and every component is
    dropped. *)
Lemma humanTime_overflow :
  0 <= 9223372037 <= max_int64
  /\ humanTime 9223372037 = ""
  /\ humanTime_spec 9223372037 = "2562047 hours 47 minutes 17 seconds "
  /\ humanTime 9223372037 <> humanTime_spec 9223372037.
Proof.
  split; [unfold max_int64; lia|].
  split; [reflexivity|]. split; [reflexivity|]. vm_compute. discriminate.
Qed.

(** * Concrete runs for the further properties

    A client that returns one entry at a time, whatever the range asked
    for, and scanners built by [NewScanner]. *)

Abbreviation partial_client :=
  (fun (c : unit) (s e : Z) =>
     (c, Ok (map (fun _ : Z => {| Index := -1; Leaf := tt |})
               (seqZ s (Z.min 1 (e - s + 1)))))).

Abbreviation default_scanner := (NewScanner "log" tt DefaultScannerOptions).

Abbreviation scanner_of batch workers fetchers quiet :=
  (NewScanner "log" tt
     {| BatchSize := batch; NumWorkers := workers; ParallelFetch := fetchers;
        Quiet := quiet |}).

(** The fetcher serves a range of [n] entries, one entry at each call. *)
Abbreviation serving_one_by_one n :=
  ([Fetcher 0] ++ concat (replicate n [Fetcher 0; Fetcher 0; Fetcher 0])).

Lemma full_client_honours : honours_contract full_client.
Proof.
  intros c s e c' l [= _ <-]. rewrite length_map, length_seqZ. lia.
Qed.

Lemma partial_client_productive : productive partial_client.
Proof.
  intros c s e. eexists _, _. split; [reflexivity|].
  rewrite length_map, length_seqZ. split; [lia|].
  intros Hle Hnil. apply (f_equal length) in Hnil.
  rewrite length_map, length_seqZ in Hnil. cbn in Hnil. lia.
Qed.

Lemma partial_client_honours : honours_contract partial_client.
Proof.
  intros c s e c' l [= _ <-]. rewrite length_map, length_seqZ. lia.
Qed.

Lemma humanTime_empty_iff_witness :
  (humanTime (-90) = "" <-> -90 <= 0) /\ (humanTime 59 = "" <-> 59 <= 0).
Proof.
  split; apply humanTime_empty_iff; unfold humanTime_limit; lia.
Defined.

Lemma Scan_ranges_closed_form_witness :
  exists l,
    (forall fuel, (Z.to_nat (10 - 3) < fuel)%nat -> Scan_ranges fuel 3 10 4 = Some l)
    /\ Z.of_nat (length l) = Z.max 0 ((10 - 3 + 4 - 1) / 4)
    /\ (forall k r, l !! k = Some r ->
          start r = 3 + Z.of_nat k * 4
          /\ end_ r = Z.min (3 + (Z.of_nat k + 1) * 4) 10 - 1)
    /\ (forall k r, l !! k = Some r -> (S k < length l)%nat ->
          end_ r - start r + 1 = 4).
Proof.
  apply (Scan_ranges_closed_form 3 10 4);
    unfold in_int64, min_int64, max_int64; lia.
Defined.

Lemma Scan_ranges_zero_batch_witness : Scan_ranges 100 7 9 0 = None.
Proof.
  apply (Scan_ranges_zero_batch 100 7 9);
    unfold in_int64, min_int64, max_int64; lia.
Defined.

Lemma fetchLoop_finishes_range_witness :
  let r := {| start := 10; end_ := 11 |} in
  let l := [ {| Index := 0; Leaf := "a" |}; {| Index := 0; Leaf := "b" |};
             {| Index := 0; Leaf := "c" |} ] in
  let f := fetchLoop r [Ok l; Ok l] in
  requests f = [(10, 11)]
  /\ pending f = None
  /\ length (sent f) = 3%nat
  /\ map Index (sent f) = seqZ 10 3
  /\ map Leaf (sent f) = ["a"; "b"; "c"].
Proof.
  intros r l.
  apply (fetchLoop_finishes_range r l [Ok l]); subst r l;
    unfold in_int64, min_int64, max_int64; cbn; lia.
Defined.

Lemma fetchLoop_fruitless_witness :
  fetchLoop {| start := 0; end_ := 9 |}
    [Err "timeout"; Ok ([] : list (@LogEntry unit)); Err "reset"]
  = {| requests := [(0, 9); (0, 9); (0, 9)]; sent := []; pending := Some {| start := 0; end_ := 9 |} |}.
Proof.
  apply (fetchLoop_fruitless {| start := 0; end_ := 9 |}
           [Err "timeout"; Ok []; Err "reset"]).
  - cbn. lia.
  - repeat constructor.
Defined.

Lemma Scan_never_panics_witness :
  match Scan full_client 3 2 (starting 1 ++ [Fetcher 0; Fetcher 0; Fetcher 0])%nat
          default_scanner 0 2 with
  | Some st => panicked st = false /\ queues_bounded st
  | None => False
  end.
Proof.
  destruct (Scan full_client 3 _ _ _ _ _) as [st|] eqn:E;
    [|vm_compute in E; discriminate].
  destruct (Scan_never_panics full_client 3 _ _ _ _ _ st E) as (H1 & H2 & _).
  auto.
Defined.

Lemma Scan_starts_pools_witness :
  match Scan full_client 3 2 [Main; Main; Main; Main; Main; Main; Main]
          (scanner_of 1000 3 2 false) 0 2 with
  | Some st =>
      main st = MFeed [ {| start := 0; end_ := 1 |} ]
      /\ length (processerJobs st) = 3%nat /\ length (fetcherJobs st) = 2%nat
  | None => False
  end.
Proof.
  destruct (Scan full_client 3 _ _ _ _ _) as [st|] eqn:E;
    [|vm_compute in E; discriminate].
  assert (Hmain : main st = MFeed [ {| start := 0; end_ := 1 |} ]).
  { vm_compute in E. injection E as <-. reflexivity. }
  split; [exact Hmain|].
  assert (Htyped : pools_typed (opts (scanner_of 1000 3 2 false)))
    by (unfold pools_typed, max_int64; cbn; lia).
  destruct (Scan_starts_pools full_client 3 _ _ _ _ _ st Htyped E) as [_ H].
  apply H. left. eexists. exact Hmain.
Defined.

Lemma Scan_handles_at_most_once_witness :
  match Scan partial_client 3 2
          (starting 1 ++ [Fetcher 0; Fetcher 0; Fetcher 0; Processer 0;
                          Processer 0; Processer 0])%nat
          default_scanner 0 2 with
  | Some st =>
      map Index (handled st) = [0]
      /\ forall i, (hits (Some i) (handled st) <= once_in 0 2 i)%nat
  | None => False
  end.
Proof.
  destruct (Scan partial_client 3 _ _ _ _ _) as [st|] eqn:E;
    [|vm_compute in E; discriminate].
  split; [vm_compute in E; injection E as <-; reflexivity|].
  intros i.
  refine (proj1 (Scan_handles_at_most_once partial_client 3 _ _ _ _ _ st
                   partial_client_honours _ _ _ _ E i));
    unfold in_int64, min_int64, max_int64; cbn; lia.
Defined.

Lemma Scan_exactly_once_witness :
  exists st,
    Scan partial_client 3 2
      (starting 1 ++ [Main] ++ serving_one_by_one 2
       ++ [Fetcher 0; Fetcher 0; Main; Main] ++ handling 2
       ++ [Processer 0; Processer 0; Main; Main])%nat
      default_scanner 0 2 = Some st
    /\ returned st None
    /\ (forall i, hits (Some i) (handled st) = once_in 0 2 i)
    /\ Z.of_nat (length (handled st)) = Z.max 0 (2 - 0)
    /\ certsProcessed (scanner st) = wrap64 (Z.max 0 (2 - 0)).
Proof.
  assert (Hrun : exists st,
             Scan partial_client 3 2
               (starting 1 ++ [Main] ++ serving_one_by_one 2
                ++ [Fetcher 0; Fetcher 0; Main; Main] ++ handling 2
                ++ [Processer 0; Processer 0; Main; Main])%nat
               default_scanner 0 2 = Some st
             /\ returned st None).
  { vm_compute. eexists. split; reflexivity. }
  destruct Hrun as (st & E & Hret).
  exists st. split; [exact E|]. split; [exact Hret|].
  refine (proj2 (Scan_exactly_once partial_client 3 _ _ _ _ _ st None
                   partial_client_honours _ _ _ _ _ _ E Hret));
    unfold in_int64, min_int64, max_int64; cbn; lia.
Defined.



Lemma Scan_prints_witness :
  match Scan failing_client 3 2 (starting 1 ++ [Fetcher 0; Fetcher 0; Fetcher 0])%nat
          (scanner_of 1000 1 1 true) 0 2 with
  | Some st =>
      length (printed st) = 2%nat
      /\ Forall (warning_line failing_client (scanner_of 1000 1 1 true)) (printed st)
  | None => False
  end.
Proof.
  destruct (Scan failing_client 3 _ _ _ _ _) as [st|] eqn:E;
    [|vm_compute in E; discriminate].
  split; [vm_compute in E; injection E as <-; reflexivity|].
  destruct (Scan_prints failing_client 3 _ _ _ _ _ st E) as (_ & H & _).
  apply H. reflexivity.
Defined.

Lemma Scan_return_witness :
  exists st,
    Scan full_client 3 2 (whole_run 1 2)%nat default_scanner 0 2 = Some st
    /\ returned st None
    /\ (forall t, step full_client 3 t st = None)
    /\ certsProcessed (scanner st) = wrap64 (Z.of_nat (length (handled st)))
    /\ exists mid,
         printed st
         = ["log: Starting scan..."] ++ mid
           ++ [completion_line 3 default_scanner st].
Proof.
  assert (Hrun : exists st,
             Scan full_client 3 2 (whole_run 1 2)%nat default_scanner 0 2 = Some st
             /\ returned st None).
  { vm_compute. eexists. split; reflexivity. }
  destruct Hrun as (st & E & Hret).
  exists st. split; [exact E|]. split; [exact Hret|].
  destruct (Scan_return full_client 3 _ _ _ _ _ st None E Hret)
    as (Hq & _ & _ & Hc & Hp).
  split; [exact Hq|]. split; [exact Hc|]. apply Hp. reflexivity.
Defined.

Lemma Scan_no_fetchers_witness :
  match Scan full_client 3 6 [Main; Main; Main; Main; Main]
          (scanner_of 1000 1 0 false) 0 5000 with
  | Some st =>
      fetcherJobs st = [] /\ handled st = [] /\ certsProcessed (scanner st) = 0
      /\ exists schedule' st',
           Scan full_client 3 6 ([Main; Main; Main; Main; Main] ++ schedule')
             (scanner_of 1000 1 0 false) 0 5000 = Some st'
           /\ returned st' None
  | None => False
  end.
Proof.
  destruct (Scan full_client 3 6 [Main; Main; Main; Main; Main]
              (scanner_of 1000 1 0 false) 0 5000) as [st|] eqn:E;
    [|vm_compute in E; discriminate].
  assert (HF : ParallelFetch (opts (scanner_of 1000 1 0 false)) <= 0)
    by (cbn; lia).
  destruct (Scan_no_fetchers full_client 3 _ _ _ _ _ st HF E)
    as (Hf & _ & _ & Hh & Hc & Hdone).
  split; [exact Hf|]. split; [exact Hh|]. split; [exact Hc|].
  apply Hdone; unfold pools_typed, in_int64, min_int64, max_int64; cbn; lia.
Defined.

Lemma Scan_no_fetchers_blocks_witness :
  exists st,
    Scan full_client 3 (Z.to_nat 1002)
      ([Main; Main; Main] ++ replicate (Z.to_nat 1000) Main)
      (scanner_of 1 1 0 false) 0 1001 = Some st
    /\ main st = MFeed [ {| start := 1000; end_ := 1000 |} ]
    /\ (forall err, ~ returned st err)
    /\ (forall t, step full_client 3 t st = None).
Proof.
  assert (Hrun : exists st,
             Scan full_client 3 (Z.to_nat 1002)
               ([Main; Main; Main] ++ replicate (Z.to_nat 1000) Main)
               (scanner_of 1 1 0 false) 0 1001 = Some st
             /\ main st = MFeed [ {| start := 1000; end_ := 1000 |} ]
             /\ Z.of_nat (length (buf (fetches st))) = 1000).
  { vm_compute. eexists. split; [reflexivity|]. split; reflexivity. }
  destruct Hrun as (st & E & Hmain & Hfull).
  exists st. split; [exact E|]. split; [exact Hmain|].
  assert (H : (forall err, ~ returned st err)
              /\ closed (fetches st) = false
              /\ (forall r rest,
                    main st = MFeed (r :: rest) ->
                    Z.of_nat (length (buf (fetches st))) = 1000 ->
                    forall t, step full_client 3 t st = None)).
  { refine (Scan_no_fetchers_blocks full_client 3 _ _ _ _ _ st _ _ _ _ _ _ E);
      unfold in_int64, min_int64, max_int64; cbn; lia. }
  destruct H as (Hnever & _ & Hstuck).
  split; [exact Hnever|]. exact (Hstuck _ _ Hmain Hfull).
Defined.

Lemma Scan_no_processers_witness :
  exists st,
    Scan full_client 3 2
      ([Main; Main; Main; Main; Main] ++ serving 2
       ++ [Fetcher 0; Fetcher 0; Main; Main; Main; Main])%nat
      (scanner_of 1000 0 1 false) 0 2 = Some st
    /\ returned st None
    /\ handled st = []
    /\ certsProcessed (scanner st) = 0
    /\ (forall i, hits (Some i) (buf (jobs st)) = once_in 0 2 i).
Proof.
  assert (Hrun : exists st,
             Scan full_client 3 2
               ([Main; Main; Main; Main; Main] ++ serving 2
                ++ [Fetcher 0; Fetcher 0; Main; Main; Main; Main])%nat
               (scanner_of 1000 0 1 false) 0 2 = Some st
             /\ returned st None).
  { vm_compute. eexists. split; reflexivity. }
  destruct Hrun as (st & E & Hret).
  exists st. split; [exact E|]. split; [exact Hret|].
  assert (HN : NumWorkers (opts (scanner_of 1000 0 1 false)) <= 0)
    by (cbn; lia).
  destruct (Scan_no_processers full_client 3 _ _ _ _ _ st HN E)
    as (_ & Hh & Hc & Hdone).
  split; [exact Hh|]. split; [exact Hc|].
  refine (proj1 (proj2 (Hdone full_client_honours _ _ _ _ _ None Hret)));
    unfold in_int64, min_int64, max_int64; cbn; lia.
Defined.

Lemma fetcher_turn_witness :
  match exec full_client 3 (starting 1 ++ [Fetcher 0])%nat
          (Scan_start default_scanner [ {| start := 0; end_ := 1 |} ]) with
  | Some st =>
      exists st',
        exec full_client 3 (Fetcher 0 :: replicate 2 (Fetcher 0) ++ [Fetcher 0]) st
        = Some st'
        /\ fetcherJobs st' = <[0%nat := FRecv]> (fetcherJobs st)
        /\ buf (jobs st')
           = buf (jobs st)
             ++ [ {| Index := 0; Leaf := tt |}; {| Index := 1; Leaf := tt |} ]
  | None => False
  end.
Proof.
  destruct (exec full_client 3 _ _) as [st|] eqn:E; [|vm_compute in E; discriminate].
  assert (Hal : panicked st = false).
  { vm_compute in E. injection E as <-. reflexivity. }
  assert (Hpc : fetcherJobs st !! 0%nat = Some (FGet {| start := 0; end_ := 1 |})).
  { vm_compute in E. injection E as <-. reflexivity. }
  assert (Hclient : logClient (scanner st) = tt).
  { vm_compute in E. injection E as <-. reflexivity. }
  assert (Hopen : closed (jobs st) = false).
  { vm_compute in E. injection E as <-. reflexivity. }
  assert (Hbuf : buf (jobs st) = [] /\ cap (jobs st) = 100000).
  { vm_compute in E. injection E as <-. split; reflexivity. }
  destruct (fetcher_turn full_client 3 0 st {| start := 0; end_ := 1 |} tt
              [ {| Index := -1; Leaf := tt |}; {| Index := -1; Leaf := tt |} ]
              Hal Hpc)
    as (st' & Hex & Hfs & Hjobs & _).
  - now rewrite Hclient.
  - exact Hopen.
  - destruct Hbuf as [-> ->]. cbn. lia.
  - exists st'. split; [exact Hex|]. split; [exact Hfs | exact Hjobs].
Defined.

Lemma Scan_never_deadlocks_witness :
  match Scan failing_client 3 2 (starting 1 ++ [Main; Fetcher 0; Fetcher 0])%nat
          default_scanner 0 2 with
  | Some st =>
      (exists err, returned st err)
      \/ exists t st', step failing_client 3 t st = Some st'
  | None => False
  end.
Proof.
  destruct (Scan failing_client 3 _ _ _ _ _) as [st|] eqn:E;
    [|vm_compute in E; discriminate].
  refine (Scan_never_deadlocks failing_client 3 _ _ _ _ _ st _ _ E); cbn; lia.
Defined.

Lemma failing_client_delivers_nothing : delivers_nothing failing_client.
Proof. intros c s e c' l Hget. discriminate. Qed.

Lemma Scan_hangs_without_entries_witness :
  match Scan failing_client 3 2 (starting 1 ++ [Main; Fetcher 0; Fetcher 0])%nat
          default_scanner 0 2 with
  | Some st =>
      handled st = [] /\ certsProcessed (scanner st) = 0
      /\ forall err, ~ returned st err
  | None => False
  end.
Proof.
  destruct (Scan failing_client 3 _ _ _ _ _) as [st|] eqn:E;
    [|vm_compute in E; discriminate].
  refine (proj2 (Scan_hangs_without_entries failing_client 3 _ _ _ _ _ st
                   failing_client_delivers_nothing _ _ _ _ _ _ E));
    unfold in_int64, min_int64, max_int64; cbn; lia.
Defined.
